(** * VinylVault: the bounded image cache and the weighted random selection engine

    A shallow embedding of [image_cache.py] (classes [LRUCache] and
    [ImageCache]) and of [random_algorithm.py] (classes [SelectionHistory],
    [WeightCalculator] and [RandomAlgorithm]), with the properties the
    specification states about them.

    Conventions of the embedding:
    - Python [int] is [Z]; Python [float] is idealised as an exact rational
      [Q] (the transcendental functions [math.exp] and [math.log] are taken
      as parameters); where rounding decides a property, the function is
      given in binary64 as well;
    - a [datetime] is the number of whole seconds since the first of January
      1970, in [Z]; every operation reads the clock once and receives that
      reading as its argument [now]; arithmetic that leaves the range of
      [datetime] or of [timedelta] raises [OverflowError], and so does
      [math.exp] beyond the largest binary64 number;
    - a column of the database holds NULL or a value of its declared type;
      what a TEXT column of JSON may hold is spelled out by [json_col];
    - a [dict] is a [gmap]; an [OrderedDict] and a [deque] are lists, oldest
      first; a SQL table is the list of its rows in rowid order;
    - the file system is a finite map from path to content, a path being
      the string it is opened with; which paths the operating system refuses
      is a parameter, while the removal of a file that exists succeeds;
      [pathlib] joins are those of [PurePosixPath];
    - an exception is a distinguished outcome [Raise]; a [try/except] is a
      match on the outcome. *)

From Stdlib Require Import ZArith QArith Lia Lqa Ascii String Floats.
Close Scope Q_scope.
From stdpp Require Import gmap strings list fin_maps sorting.

Local Open Scope string_scope.
Local Open Scope list_scope.
Local Open Scope Z_scope.

#[local] Set Warnings "-clear-no-such-hyp,-inexact-float".

(** ** Outcomes of a Python call *)

Inductive exn : Set :=
| KeyError
| ImageProcessingError
| OSError
| OverflowError
| JSONDecodeError
| RecursionError
| TypeError.

Inductive outcome (A : Type) : Type :=
| Ok (a : A)
| Raise (e : exn)
| OutOfFuel.
Arguments Ok {A} a.
Arguments Raise {A} e.
Arguments OutOfFuel {A}.

Definition bytes : Type := list Byte.byte.

(** The files on disk: path to content. *)
Abbreviation Disk := (gmap string bytes).

Definition path_exists (d : Disk) (p : string) : bool := bool_decide (is_Some (d !! p)).

(** [os.remove] guarded by [os.path.exists], as every call site has it. *)
Definition remove_if_exists (d : Disk) (p : string) : Disk :=
  if path_exists d p then delete p d else d.

(** ** [collections.OrderedDict] with string keys, oldest key first *)

Module OD.

Definition t (V : Type) : Type := list (string * V).

Definition keys {V} (o : t V) : list string := o.*1.

Definition mem {V} (k : string) (o : t V) : bool := bool_decide (k ∈ keys o).

(** [del o[k]]: [None] stands for the [KeyError] of an absent key. *)
Fixpoint del {V} (k : string) (o : t V) : option (t V) :=
  match o with
  | [] => None
  | (k', v) :: o' =>
      if decide (k' = k) then Some o'
      else match del k o' with
           | Some r => Some ((k', v) :: r)
           | None => None
           end
  end.

Fixpoint find {V} (k : string) (o : t V) : option V :=
  match o with
  | [] => None
  | (k', v) :: o' => if decide (k' = k) then Some v else find k o'
  end.

(** [o[k] = v]: a present key keeps its position, a new key goes last. *)
Fixpoint set {V} (k : string) (v : V) (o : t V) : t V :=
  match o with
  | [] => [(k, v)]
  | (k', v') :: o' =>
      if decide (k' = k) then (k, v) :: o' else (k', v') :: set k v o'
  end.

(** [o.move_to_end(k)]: [None] stands for the [KeyError]. *)
Definition move_to_end {V} (k : string) (o : t V) : option (t V) :=
  match find k o, del k o with
  | Some v, Some o' => Some (o' ++ [(k, v)])
  | _, _ => None
  end.

(** [next(iter(o))] *)
Definition first_key {V} (o : t V) : option string :=
  match o with
  | [] => None
  | (k, _) :: _ => Some k
  end.

End OD.

(** ** [image_cache.py]: [CacheEntry] and [LRUCache] *)

Record CacheEntry : Type := mkCacheEntry {
  file_path : string;
  original_url : string;
  size_type : string;
  file_size : Z;
  created_at : Z;
  last_accessed : Z;
  access_count : Z;
  width : Z;
  height : Z;
  format : string
}.

Record LRUStats : Type := mkLRUStats {
  hits : Z;
  misses : Z;
  evictions : Z;
  total_requests : Z
}.

Record LRUCache : Type := mkLRUCache {
  max_size_bytes : Z;
  current_size_bytes : Z;
  cache_order : OD.t Z;
  cache_data : gmap string CacheEntry;
  stats : LRUStats
}.

(** What an [LRUCache] method acts on: the object and the disk. *)
Definition World : Type := LRUCache * Disk.

Module LRU.

Definition zero_stats : LRUStats := mkLRUStats 0 0 0 0.

(** [LRUCache.__init__] *)
Definition init (max_size : Z) : LRUCache :=
  mkLRUCache max_size 0 [] ∅ zero_stats.

Definition with_size (n : Z) (c : LRUCache) : LRUCache :=
  mkLRUCache (max_size_bytes c) n (cache_order c) (cache_data c) (stats c).
Definition with_order (o : OD.t Z) (c : LRUCache) : LRUCache :=
  mkLRUCache (max_size_bytes c) (current_size_bytes c) o (cache_data c) (stats c).
Definition with_data (m : gmap string CacheEntry) (c : LRUCache) : LRUCache :=
  mkLRUCache (max_size_bytes c) (current_size_bytes c) (cache_order c) m (stats c).
Definition with_stats (s : LRUStats) (c : LRUCache) : LRUCache :=
  mkLRUCache (max_size_bytes c) (current_size_bytes c) (cache_order c) (cache_data c) s.

Definition count_request (s : LRUStats) : LRUStats :=
  mkLRUStats (hits s) (misses s) (evictions s) (total_requests s + 1).
Definition count_hit (s : LRUStats) : LRUStats :=
  mkLRUStats (hits s + 1) (misses s) (evictions s) (total_requests s).
Definition count_miss (s : LRUStats) : LRUStats :=
  mkLRUStats (hits s) (misses s + 1) (evictions s) (total_requests s).
Definition count_eviction (s : LRUStats) : LRUStats :=
  mkLRUStats (hits s) (misses s) (evictions s + 1) (total_requests s).

(** The entry after [entry.last_accessed = now; entry.access_count += 1]. *)
Definition touch (now : Z) (e : CacheEntry) : CacheEntry :=
  mkCacheEntry (file_path e) (original_url e) (size_type e) (file_size e)
    (created_at e) now (access_count e + 1) (width e) (height e) (format e).

(** [LRUCache.get] *)
Definition get (now : Z) (key : string) (w : World) : outcome (option CacheEntry) * World :=
  let '(c, d) := w in
  let c := with_stats (count_request (stats c)) c in
  match cache_data c !! key with
  | Some entry =>
      let entry := touch now entry in
      let c := with_data (<[key := entry]> (cache_data c)) c in
      match OD.move_to_end key (cache_order c) with
      | Some o =>
          let c := with_order o c in
          let c := with_stats (count_hit (stats c)) c in
          (Ok (Some entry), (c, d))
      | None => (Raise KeyError, (c, d))
      end
  | None =>
      let c := with_stats (count_miss (stats c)) c in
      (Ok None, (c, d))
  end.

(** [LRUCache._evict_lru] *)
Definition _evict_lru (w : World) : outcome unit * World :=
  let '(c, d) := w in
  match OD.first_key (cache_order c) with
  | None => (Ok tt, (c, d))
  | Some lru_key =>
      match cache_data c !! lru_key with
      | None => (Raise KeyError, (c, d))
      | Some lru_entry =>
          let c := with_data (delete lru_key (cache_data c)) c in
          match OD.del lru_key (cache_order c) with
          | None => (Raise KeyError, (c, d))
          | Some o =>
              let c := with_order o c in
              let c := with_size (current_size_bytes c - file_size lru_entry) c in
              let c := with_stats (count_eviction (stats c)) c in
              (Ok tt, (c, remove_if_exists d (file_path lru_entry)))
          end
      end
  end.

(** The guard of the [while] of [put]. *)
Definition must_evict (entry : CacheEntry) (c : LRUCache) : bool :=
  bool_decide (current_size_bytes c + file_size entry > max_size_bytes c)
  && negb (bool_decide (cache_order c = [])).

(** The [while] loop of [put]; every turn that does not raise shortens
    [cache_order] by one, so the caller passes its length as [fuel]. *)
Fixpoint evict_while (fuel : nat) (entry : CacheEntry) (w : World) : outcome unit * World :=
  if must_evict entry w.1 then
    match fuel with
    | O => (OutOfFuel, w)
    | S fuel =>
        match _evict_lru w with
        | (Ok _, w) => evict_while fuel entry w
        | r => r
        end
    end
  else (Ok tt, w).

(** [LRUCache.put] *)
Definition put (key : string) (entry : CacheEntry) (w : World) : outcome bool * World :=
  let '(c, d) := w in
  let removed :=
    match cache_data c !! key with
    | Some old_entry =>
        let c := with_size (current_size_bytes c - file_size old_entry) c in
        let c := with_data (delete key (cache_data c)) c in
        match OD.del key (cache_order c) with
        | Some o => (Ok tt, with_order o c)
        | None => (Raise KeyError, c)
        end
    | None => (Ok tt, c)
    end in
  match removed with
  | (Ok _, c) =>
      match evict_while (length (cache_order c)) entry (c, d) with
      | (Ok _, (c, d)) =>
          if bool_decide (file_size entry > max_size_bytes c) then (Ok false, (c, d))
          else
            let c := with_data (<[key := entry]> (cache_data c)) c in
            let c := with_order (OD.set key (last_accessed entry) (cache_order c)) c in
            let c := with_size (current_size_bytes c + file_size entry) c in
            (Ok true, (c, d))
      | (Raise e, w) => (Raise e, w)
      | (OutOfFuel, w) => (OutOfFuel, w)
      end
  | (Raise e, c) => (Raise e, (c, d))
  | (OutOfFuel, c) => (OutOfFuel, (c, d))
  end.

(** [LRUCache.remove] *)
Definition remove (key : string) (w : World) : outcome bool * World :=
  let '(c, d) := w in
  match cache_data c !! key with
  | Some entry =>
      let c := with_size (current_size_bytes c - file_size entry) c in
      let c := with_data (delete key (cache_data c)) c in
      match OD.del key (cache_order c) with
      | Some o => (Ok true, (with_order o c, remove_if_exists d (file_path entry)))
      | None => (Raise KeyError, (c, d))
      end
  | None => (Ok false, (c, d))
  end.

(** [LRUCache.clear] *)
Definition clear (w : World) : outcome unit * World :=
  let '(c, d) := w in
  let d := map_fold (fun _ entry d => remove_if_exists d (file_path entry)) d (cache_data c) in
  (Ok tt, (mkLRUCache (max_size_bytes c) 0 [] ∅ zero_stats, d)).

(** The sum of [file_size] over the stored entries. *)
Definition stored_bytes (m : gmap string CacheEntry) : Z :=
  map_fold (fun _ entry acc => file_size entry + acc) 0 m.

End LRU.

(** The running total agrees with the stored entries. *)
Definition size_ok (c : LRUCache) : Prop :=
  current_size_bytes c = LRU.stored_bytes (cache_data c).

(** A call of one method of the cache, with its arguments. *)
Inductive lru_op : Type :=
| OpPut (key : string) (entry : CacheEntry)
| OpGet (now : Z) (key : string)
| OpRemove (key : string)
| OpEvict
| OpClear.

(** The cache and the disk a call leaves behind, whatever its outcome. *)
Definition lru_step (w : World) (o : lru_op) : World :=
  match o with
  | OpPut key entry => (LRU.put key entry w).2
  | OpGet now key => (LRU.get now key w).2
  | OpRemove key => (LRU.remove key w).2
  | OpEvict => (LRU._evict_lru w).2
  | OpClear => (LRU.clear w).2
  end.

Definition lru_run (w : World) (ops : list lru_op) : World := foldl lru_step w ops.

(** A 600x600 entry of the given size, for the worked examples. *)
Definition sample_entry (name : string) (size : Z) : CacheEntry :=
  mkCacheEntry ("/cache/detail/" +:+ name +:+ ".webp") ("http://img/" +:+ name)
    "detail" size 0 0 1 600 600 "WEBP".

(** [cache_order] lists every key of [cache_data] once. *)
Definition in_sync (c : LRUCache) : Prop :=
  NoDup (OD.keys (cache_order c))
  ∧ ∀ k, k ∈ OD.keys (cache_order c) ↔ is_Some (cache_data c !! k).

(** ** [image_cache.py]: [ImageCache] *)

(** [str.lower], on ASCII letters. *)
Definition ascii_lower (a : ascii) : ascii :=
  let n := nat_of_ascii a in
  if (65 <=? n)%nat && (n <=? 90)%nat then ascii_of_nat (n + 32) else a.

Fixpoint lower (s : string) : string :=
  match s with
  | EmptyString => EmptyString
  | String a s' => String (ascii_lower a) (lower s')
  end.

(** [s.startswith(p)] *)
Definition startswith (p s : string) : bool := String.prefix p s.

(** ** [pathlib.PurePosixPath], as far as [/] and [str] go *)

Module Pathlib.

(** [s.split('/')] *)
Fixpoint split (s : string) : list string :=
  match s with
  | EmptyString => [EmptyString]
  | String a s' =>
      if decide (a = "/"%char) then EmptyString :: split s'
      else match split s' with
           | x :: l => String a x :: l
           | [] => [String a EmptyString]
           end
  end.

(** The components [parse_parts] keeps of a segment: those that are neither
    empty nor ["."]. *)
Definition components (s : string) : list string :=
  filter (fun x => x ≠ "" ∧ x ≠ ".") (split s).

Fixpoint leading_slashes (s : string) : nat :=
  match s with
  | String a s' => if decide (a = "/"%char) then S (leading_slashes s') else O
  | EmptyString => O
  end.

(** [splitroot]: exactly two leading slashes are kept as they are, any other
    number of them is one. *)
Definition root_of (s : string) : string :=
  match leading_slashes s with
  | O => ""
  | S (S O) => "//"
  | _ => "/"
  end.

(** A path: its root and the components below it. *)
Record t : Type := mk { root : string; parts : list string }.

(** [PurePosixPath(s)] *)
Definition parse (s : string) : t := mk (root_of s) (components s).

(** [p / s]: an absolute segment replaces the path. *)
Definition truediv (p : t) (s : string) : t :=
  let q := parse s in
  if decide (root q = "") then mk (root p) (parts p ++ parts q) else q.

(** ["/".join(l)] *)
Fixpoint join (l : list string) : string :=
  match l with
  | [] => ""
  | x :: l' =>
      match l' with
      | [] => x
      | _ :: _ => x +:+ "/" +:+ join l'
      end
  end.

(** [str(p)] *)
Definition str (p : t) : string :=
  if decide (root p = "") then
    if decide (parts p = []) then "." else join (parts p)
  else root p +:+ join (parts p).

End Pathlib.

(** [str(Path(a) / b)] *)
Definition path_join (a b : string) : string :=
  Pathlib.str (Pathlib.truediv (Pathlib.parse a) b).

(** ** [datetime] and [timedelta] *)

(** [datetime.min] and [datetime.max], in whole seconds since 1970: the
    first second of the year 1 and the last of the year 9999. *)
Definition datetime_min : Z := -62135596800.
Definition datetime_max : Z := 253402300799.

(** [timedelta(seconds=s)] can be built: its days are within 999999999. *)
Definition timedelta_ok (seconds : Z) : bool :=
  bool_decide (-999999999 ≤ seconds / 86400 ≤ 999999999).

(** [t - timedelta(seconds=s)]; [None] is the [OverflowError] of a
    [timedelta] or a result outside the range of [datetime]. *)
Definition datetime_minus (t seconds : Z) : option Z :=
  if timedelta_ok seconds && bool_decide (datetime_min ≤ t - seconds ≤ datetime_max)
  then Some (t - seconds) else None.

(** What [session.get(url, stream=True)] hands back. *)
Inductive chunk : Type :=
| Data (b : bytes)
| Broken.  (* the stream raises a [RequestException] here *)

Inductive http_reply : Type :=
| RequestFailed  (* [session.get] raises a [RequestException]: timeout, no connection *)
| Response (status_code : Z) (content_type : option string) (body : list chunk).

(** The collaborators of [ImageCache]: the hash, the network, the image
    library and the operating system. [process_image] and [image_size] give
    [None] where Pillow raises. [stat_raises p] says that [Path.exists]
    raises [OSError] on [p], as it does for a name beyond the length the
    file system allows; [create_raises p] says that making the directories
    above [p], or [p] itself, or opening [p] for writing raises. A path on
    which [Path.exists] raises cannot be created either. *)
Record ImageEnv : Type := mkImageEnv {
  sha256_hexdigest : string → string;
  session_get : string → http_reply;
  process_image : bytes → Z * Z → option bytes;
  image_size : bytes → option (Z * Z);
  stat_raises : string → bool;
  create_raises : string → bool
}.

Record ImageCacheState : Type := mkImageCacheState {
  cache_dir : string;
  lru_cache : LRUCache;
  files : Disk;
  image_cache_table : gmap string CacheEntry  (* the rows, by [cache_key] *)
}.

Module ImageCache.

Definition THUMBNAIL_SIZE : Z * Z := (150, 150).
Definition DETAIL_SIZE : Z * Z := (600, 600).

Definition with_world (w : World) (st : ImageCacheState) : ImageCacheState :=
  mkImageCacheState (cache_dir st) w.1 w.2 (image_cache_table st).
Definition with_files (d : Disk) (st : ImageCacheState) : ImageCacheState :=
  mkImageCacheState (cache_dir st) (lru_cache st) d (image_cache_table st).

Definition world (st : ImageCacheState) : World := (lru_cache st, files st).

(** [ImageCache._generate_cache_key] *)
Definition _generate_cache_key (env : ImageEnv) (url size_type : string) : string :=
  sha256_hexdigest env (url +:+ ":" +:+ size_type).

(** [ImageCache._get_cache_file_path], as the string [str(file_path)]. *)
Definition _get_cache_file_path (st : ImageCacheState) (cache_key size_type : string) : string :=
  Pathlib.str
    (Pathlib.truediv (Pathlib.truediv (Pathlib.parse (cache_dir st)) size_type)
       (cache_key +:+ ".webp")).

(** [response.raise_for_status()] raises for the 4xx and 5xx codes. *)
Definition raises_for_status (status_code : Z) : bool :=
  bool_decide (400 ≤ status_code < 600).

Definition max_download_size : Z := 10 * 1024 * 1024.

(** The [for chunk in response.iter_content(...)] loop. *)
Fixpoint read_chunks (content : bytes) (body : list chunk) : outcome bytes :=
  match body with
  | [] => Ok content
  | Broken :: _ => Raise ImageProcessingError
  | Data b :: body =>
      let content := content ++ b in
      if bool_decide (Z.of_nat (length content) > max_download_size)
      then Raise ImageProcessingError
      else read_chunks content body
  end.

(** [ImageCache._download_image]; every failure leaves it as an
    [ImageProcessingError]. *)
Definition _download_image (env : ImageEnv) (url : string) : outcome bytes :=
  match session_get env url with
  | RequestFailed => Raise ImageProcessingError
  | Response status_code content_type body =>
      if raises_for_status status_code then Raise ImageProcessingError
      else
        let content_type := lower (default "" content_type) in
        if negb (startswith "image/" content_type) then Raise ImageProcessingError
        else read_chunks [] body
  end.

(** [ImageCache._save_cache_entry]: [INSERT OR REPLACE] of the row. *)
Definition _save_cache_entry (cache_key : string) (entry : CacheEntry)
    (st : ImageCacheState) : ImageCacheState :=
  mkImageCacheState (cache_dir st) (lru_cache st) (files st)
    (<[cache_key := entry]> (image_cache_table st)).

(** The target size chosen in [_process_and_cache_image]. *)
Definition target_size (size_type : string) : Z * Z :=
  if decide (size_type = "thumbnails") then THUMBNAIL_SIZE else DETAIL_SIZE.

(** [ImageCache._process_and_cache_image]. The body of its [try] gives
    [inl st] when an exception is raised in state [st]; the handler then
    asks [file_path.exists()] outside any [try], so an [OSError] of that
    call leaves the function. *)
Definition _process_and_cache_image (env : ImageEnv) (now : Z) (url size_type : string)
    (st : ImageCacheState) : outcome (option CacheEntry) * ImageCacheState :=
  let cache_key := _generate_cache_key env url size_type in
  let file_path := _get_cache_file_path st cache_key size_type in
  let body : ImageCacheState + option CacheEntry * ImageCacheState :=
    match _download_image env url with
    | Ok image_data =>
        match process_image env image_data (target_size size_type) with
        | Some processed_data =>
            match image_size env processed_data with
            | Some (width, height) =>
                if create_raises env file_path || stat_raises env file_path then inl st
                else
                  let st := with_files (<[file_path := processed_data]> (files st)) st in
                  let entry :=
                    mkCacheEntry file_path url size_type (Z.of_nat (length processed_data))
                      now now 1 width height "WEBP" in
                  match LRU.put cache_key entry (world st) with
                  | (Ok true, w) =>
                      inr (Some entry, _save_cache_entry cache_key entry (with_world w st))
                  | (Ok false, w) =>
                      let st := with_world w st in
                      inr (None, with_files (remove_if_exists (files st) file_path) st)
                  | (_, w) => inl (with_world w st)
                  end
            | None => inl st
            end
        | None => inl st
        end
    | _ => inl st
    end in
  match body with
  | inr r => (Ok r.1, r.2)
  | inl st =>
      if stat_raises env file_path then (Raise OSError, st)
      else (Ok None, with_files (remove_if_exists (files st) file_path) st)
  end.

(** [return entry.file_path if entry else None] *)
Definition path_of_entry (r : outcome (option CacheEntry)) : outcome (option string) :=
  match r with
  | Ok entry => Ok (file_path <$> entry)
  | Raise e => Raise e
  | OutOfFuel => OutOfFuel
  end.

(** [ImageCache.get_image] *)
Definition get_image (env : ImageEnv) (now : Z) (url size_type : string)
    (st : ImageCacheState) : outcome (option string) * ImageCacheState :=
  if decide (url = "") then (Ok None, st)
  else
    let cache_key := _generate_cache_key env url size_type in
    match LRU.get now cache_key (world st) with
    | (Ok entry, w) =>
        let st := with_world w st in
        let hit :=
          match entry with
          | Some entry => if path_exists (files st) (file_path entry) then Some entry else None
          | None => None
          end in
        match hit with
        | Some entry => (Ok (Some (file_path entry)), _save_cache_entry cache_key entry st)
        | None =>
            let r := _process_and_cache_image env now url size_type st in
            (path_of_entry r.1, r.2)
        end
    | (Raise e, w) => (Raise e, with_world w st)
    | (OutOfFuel, w) => (OutOfFuel, with_world w st)
    end.

(** The request is answered from the cache: the key is stored and its file
    is on disk. *)
Definition served_from_cache (env : ImageEnv) (url size_type : string)
    (st : ImageCacheState) : Prop :=
  ∃ entry, cache_data (lru_cache st) !! _generate_cache_key env url size_type = Some entry
           ∧ is_Some (files st !! file_path entry).

End ImageCache.

(** The bytes a response body carries. *)
Fixpoint payload_length (body : list chunk) : nat :=
  match body with
  | [] => 0
  | Data b :: body => length b + payload_length body
  | Broken :: body => payload_length body
  end.


(** A stand-in for [hashlib.sha256(...).hexdigest()] in the worked
    examples: two hexadecimal digits for every character, so that, like the
    digest, it is made of hexadecimal digits only. *)
Definition hex_digit (n : nat) : ascii :=
  nth n ["0"; "1"; "2"; "3"; "4"; "5"; "6"; "7"; "8"; "9"; "a"; "b"; "c"; "d"; "e"; "f"]%char
    "0"%char.

Fixpoint hex_digest (s : string) : string :=
  match s with
  | EmptyString => EmptyString
  | String a s' =>
      String (hex_digit (nat_of_ascii a / 16))
        (String (hex_digit (nat_of_ascii a mod 16)) (hex_digest s'))
  end.



(** [n] times the character [a]. *)
Fixpoint repeat_char (n : nat) (a : ascii) : string :=
  match n with
  | O => EmptyString
  | S n => String a (repeat_char n a)
  end.

(** A file system that refuses, as POSIX ones do, a path with a name of
    more than 255 characters: [stat], [mkdir] and [open] fail on it with
    [ENAMETOOLONG]. *)
Definition name_too_long (p : string) : bool :=
  existsb (fun c => (255 <? String.length c)%nat) (Pathlib.split p).

(** The server of [env_404] behind such a file system. *)
Definition env_404_posix : ImageEnv :=
  mkImageEnv hex_digest
    (fun _ => Response 404 (Some "text/html") [Data []])
    (fun b _ => Some b) (fun _ => Some (600, 600))
    name_too_long name_too_long.

(** An [ImageCache] right after its construction on an empty directory. *)
Definition fresh_image_cache : ImageCacheState :=
  mkImageCacheState "/cache" (LRU.init 1000) ∅ ∅.

(** A server that answers with status 200 and a small PNG. *)
Definition env_200 : ImageEnv :=
  mkImageEnv hex_digest
    (fun _ => Response 200 (Some "image/png") [Data [Byte.x89; Byte.x50]])
    (fun b size => if decide (size = (600, 600)) then Some (Byte.x06 :: b) else Some b)
    (fun _ => Some (600, 600))
    (fun _ => false) (fun _ => false).

(** ** [random_algorithm.py]: data *)

(** An element of a JSON array, and so of the genre history. Of an element
    that is not a string, its truth value and its class under [==] are kept:
    two such elements are equal in Python exactly when they are the same
    here. No string equals an element of another type. *)
Inductive genre : Type :=
| GStr (s : string)
| GOther (truthy : bool) (eq_class : Z).

#[export] Instance genre_eq_dec : EqDecision genre.
Proof. solve_decision. Defined.

(** What [json.loads] returns, as far as the algorithm looks into it. *)
Inductive json_value : Type :=
| VList (l : list genre)     (* an array *)
| VStr (s : string)          (* a string, which Python indexes by character *)
| VOther (truthy : bool).    (* [null], a boolean, a number or an object: it has no item 0 *)

(** A nullable TEXT column that is meant to hold a JSON array of strings. *)
Inductive json_col : Type :=
| JNull                      (* NULL or the empty string *)
| JInvalid                   (* text [json.loads] rejects with a [JSONDecodeError] *)
| JTooDeep                   (* brackets nested so deep that [json.loads] raises a [RecursionError] *)
| JValue (v : json_value).   (* JSON text *)

(** The column that holds the JSON array of the strings [l]. *)
Definition JList (l : list string) : json_col := JValue (VList (GStr <$> l)).

(** [bool(v)] *)
Definition py_bool (v : json_value) : bool :=
  match v with
  | VList l => bool_decide (l ≠ [])
  | VStr s => bool_decide (s ≠ "")
  | VOther truthy => truthy
  end.

(** [bool(g)] of an element *)
Definition genre_bool (g : genre) : bool :=
  match g with
  | GStr s => bool_decide (s ≠ "")
  | GOther truthy _ => truthy
  end.

(** [v[0]] where [v] is true; [None] is the [TypeError] of a number or a
    boolean and the [KeyError] of an object, whose keys are strings. *)
Definition item_0 (v : json_value) : option genre :=
  match v with
  | VList (g :: _) => Some g
  | VStr (String a _) => Some (GStr (String a EmptyString))
  | _ => None
  end.

(** The string an element is, if it is one. *)
Definition genre_text (g : genre) : option string :=
  match g with
  | GStr s => Some s
  | GOther _ _ => None
  end.

(** A nullable TEXT column that holds an ISO timestamp. *)
Inductive date_col : Type :=
| DNull                      (* NULL *)
| DInvalid                   (* text [datetime.fromisoformat] rejects *)
| DAware (t : Z)             (* a timestamp with a UTC offset *)
| DNaive (t : Z).            (* a timestamp without offset, as [datetime.now()] is *)

(** A row of [albums], with the columns the algorithm reads. *)
Record Album : Type := mkAlbum {
  a_id : Z;
  a_artist : option string;
  a_genres : json_col;
  a_styles : json_col;
  a_rating : option Z;
  a_play_count : option Z;
  a_date_added : date_col;
  a_last_played : date_col
}.

(** A row of [intelligent_cache]. *)
Record CacheRow : Type := mkCacheRow {
  ic_id : Z;
  ic_album_id : Z;
  ic_base_weight : Q;
  ic_rating_weight : Q;
  ic_play_count_weight : Q;
  ic_recency_weight : Q;
  ic_diversity_weight : Q;
  ic_final_weight : Q;
  ic_last_computed : Z;
  ic_times_served : Z;
  ic_last_served : option Z
}.

(** A row of [selection_history]. *)
Record HistoryRow : Type := mkHistoryRow {
  sh_id : Z;
  sh_album_id : Z;
  sh_selected_at : Z;
  sh_user_feedback : option Z;
  sh_session_id : string;
  sh_final_weight : Q          (* of the JSON in [weight_factors] *)
}.

Record Database : Type := mkDatabase {
  albums : list Album;
  intelligent_cache : list CacheRow;
  selection_history : list HistoryRow
}.

Record AlgorithmConfig : Type := mkAlgorithmConfig {
  rating_weight : Q;
  play_count_weight : Q;
  recency_weight : Q;
  genre_diversity_weight : Q;
  max_history_size : nat;
  min_time_between_repeats_hours : Z;
  genre_cooldown_selections : Z;
  max_same_artist_streak : Z;
  feedback_learning_rate : Q;
  seasonal_adjustment : bool;
  time_based_preferences : bool
}.

(** [AlgorithmConfig()] *)
Definition default_config : AlgorithmConfig :=
  mkAlgorithmConfig 2 (3 # 2) (8 # 10) (12 # 10) 50 24 3 2 (1 # 10) true true.

(** One reading of the clock. *)
Record Clock : Type := mkClock {
  now : Z;        (* seconds *)
  month : Z;      (* [datetime.now().month] *)
  hour : Z        (* [datetime.now().hour] *)
}.

(** [math.exp] and [math.log] on the positive reals. *)
Record MathLib : Type := mkMathLib {
  math_exp : Q → Q;
  math_ln : Q → Q
}.

(** ** [SelectionHistory] *)

Record Selection : Type := mkSelection {
  sel_album_id : Z;
  sel_timestamp : Z;
  sel_genres : json_value;
  sel_artist : option string;
  sel_rating : option Z;
  sel_play_count : option Z
}.

Record SelectionHistory : Type := mkSelectionHistory {
  max_size : nat;
  selections : list Selection;
  genre_history : list genre;
  artist_history : list (option string)
}.

Module History.

(** [deque.append] on a [deque(maxlen=n)]. *)
Definition deque_append {A} (maxlen : nat) (x : A) (l : list A) : list A :=
  let l := l ++ [x] in drop (length l - maxlen) l.

(** [l[-count:]] *)
Definition last_slice {A} (count : Z) (l : list A) : list A :=
  if decide (count = 0) then l
  else if decide (0 < count) then drop (length l - Z.to_nat count) l
  else drop (Z.to_nat (- count)) l.

(** [SelectionHistory.__init__] *)
Definition init (max_size : nat) : SelectionHistory :=
  mkSelectionHistory max_size [] [] [].

(** The element [add_selection] appends to [genre_history]: [genres[0]]
    where [genres] is true. *)
Definition appended_genre (selection : Selection) : option genre :=
  if py_bool (sel_genres selection) then item_0 (sel_genres selection) else None.

(** [genres] is true and has no item 0: [add_selection] raises. *)
Definition add_selection_raises (selection : Selection) : bool :=
  py_bool (sel_genres selection) && bool_decide (item_0 (sel_genres selection) = None).

(** [SelectionHistory.add_selection], on the fields it reads of the album.
    The selection is appended first; when [genres[0]] then raises, the genre
    and the artist history stay as they are. *)
Definition add_selection (selection : Selection) (h : SelectionHistory)
    : outcome unit * SelectionHistory :=
  let selections := deque_append (max_size h) selection (selections h) in
  if py_bool (sel_genres selection) then
    match item_0 (sel_genres selection) with
    | Some g =>
        (Ok tt,
         mkSelectionHistory (max_size h) selections (deque_append 10 g (genre_history h))
           (deque_append 5 (sel_artist selection) (artist_history h)))
    | None =>
        (Raise TypeError,
         mkSelectionHistory (max_size h) selections (genre_history h) (artist_history h))
    end
  else
    (Ok tt,
     mkSelectionHistory (max_size h) selections (genre_history h)
       (deque_append 5 (sel_artist selection) (artist_history h))).

(** [SelectionHistory.get_recent_albums]; [None] is the [OverflowError] of
    the cutoff. *)
Definition get_recent_albums (now hours : Z) (h : SelectionHistory) : option (list Z) :=
  match datetime_minus now (hours * 3600) with
  | Some cutoff =>
      Some (sel_album_id <$> filter (fun s => cutoff < sel_timestamp s) (selections h))
  | None => None
  end.

(** [SelectionHistory.get_recent_genres] *)
Definition get_recent_genres (count : Z) (h : SelectionHistory) : list genre :=
  last_slice count (genre_history h).

(** [SelectionHistory.get_recent_artists] *)
Definition get_recent_artists (count : Z) (h : SelectionHistory) : list (option string) :=
  last_slice count (artist_history h).

End History.

(** ** [WeightCalculator] *)

(** [needle in hay], on strings. *)
Fixpoint contains (needle hay : string) : bool :=
  String.prefix needle hay
  || match hay with
     | EmptyString => false
     | String _ hay' => contains needle hay'
     end.

Module WeightCalculator.

Local Open Scope Q_scope.

(** [x < y] *)
Definition Qlt_b (x y : Q) : bool := negb (Qle_bool y x).

(** Python's [max(a, b)] on two numbers: [b] when [b > a], else [a]. *)
Definition py_max (a b : Q) : Q := if Qle_bool b a then a else b.

(** [math.log]: [None] stands for the [ValueError] outside the domain. *)
Definition py_log (m : MathLib) (x : Q) : option Q :=
  if Qle_bool x 0 then None else Some (math_ln m x).

(** [math.exp]: [None] stands for the [OverflowError] beyond the largest
    binary64 number, whose logarithm is 709.782712893384. *)
Definition py_exp (m : MathLib) (x : Q) : option Q :=
  if Qlt_b (709782712893384 # 1000000000000) x then None else Some (math_exp m x).

(** [timedelta.days] of a difference of two clock readings. *)
Definition days_between (later earlier : Z) : Z := ((later - earlier) / 86400)%Z.

(** [calculate_rating_weight] *)
Definition calculate_rating_weight (config : AlgorithmConfig) (rating : option Z) : Q :=
  match rating with
  | None => 1 # 2
  | Some rating =>
      if decide (rating ≤ 0)%Z then 1 # 2
      else (inject_Z rating / 5) ^ 2 * rating_weight config + (1 # 10)
  end.

(** [float(z)] for an [int] below 2^63, as the INTEGER columns hold. *)
Definition float_of_int (z : Z) : float := PrimFloat.of_uint63 (Uint63.of_Z z).

(** [calculate_rating_weight] in binary64, as Python computes it, with
    [rating_weight] the value of the configuration. [math.pow(x, 2)] is
    taken as [x * x], which it equals for the ratings 1 to 5. *)
Definition calculate_rating_weight_binary64 (rating_weight : float) (rating : option Z)
    : float :=
  match rating with
  | None => 0.5%float
  | Some rating =>
      if decide (rating ≤ 0)%Z then 0.5%float
      else
        let x := (float_of_int rating / 5)%float in
        (x * x * rating_weight + 0.1)%float
  end.

(** [calculate_play_count_weight]; [None] is the [ValueError] of [math.log]. *)
Definition calculate_play_count_weight (m : MathLib) (config : AlgorithmConfig)
    (play_count : option Z) (avg_play_count : Q) : option Q :=
  let play_count := default 0%Z play_count in
  if Qle_bool avg_play_count 0 then Some 1
  else
    let normalized := inject_Z play_count / avg_play_count in
    match py_log m (normalized + 1) with
    | Some l => Some (l * play_count_weight config + (1 # 10))
    | None => None
    end.

(** [calculate_recency_weight]; [None] is an exception its [except] does
    not catch: the [AttributeError] of [date_added.replace] on a NULL and
    the [OverflowError] of [math.exp] for an album added more than 709 years
    after [now]. *)
Definition calculate_recency_weight (m : MathLib) (config : AlgorithmConfig) (now : Z)
    (date_added last_played : date_col) : option Q :=
  match date_added with
  | DNull => None
  | DInvalid => Some 1
  | DAware _ => Some 1
  | DNaive added_date =>
      let days_since_added := days_between now added_date in
      match py_exp m (- inject_Z days_since_added / 365) with
      | None => None
      | Some recency_factor =>
          let play_recency_factor :=
            match last_played with
            | DNull => Some 2
            | DInvalid => None
            | DAware _ => None
            | DNaive last_played_date =>
                let days_since_played := days_between now last_played_date in
                match py_log m (inject_Z (days_since_played + 1)) with
                | Some l => Some (l / 10)
                | None => None
                end
            end in
          match play_recency_factor with
          | Some play_recency_factor =>
              Some ((recency_factor + play_recency_factor) * recency_weight config)
          | None => Some 1   (* [except (ValueError, TypeError): return 1.0] *)
          end
      end
  end.

(** [l.count(x)] *)
Definition count_occ_Z {A} `{EqDecision A} (x : A) (l : list A) : Z :=
  Z.of_nat (length (filter (fun y => y = x) l)).

(** The end of [calculate_genre_diversity_weight], from [recent_count] on. *)
Definition genre_count_weight (config : AlgorithmConfig) (recent_count : Z) : Q :=
  if decide (recent_count = 0)%Z then 1 + genre_diversity_weight config
  else py_max (1 # 10) (1 / inject_Z (recent_count ^ 2)).

(** [calculate_genre_diversity_weight], on lists of strings as its
    annotation has it. *)
Definition calculate_genre_diversity_weight (config : AlgorithmConfig)
    (genres recent_genres : list string) : Q :=
  match genres with
  | [] => 1
  | primary_genre :: _ =>
      if decide (primary_genre = "") then 1
      else genre_count_weight config (count_occ_Z primary_genre recent_genres)
  end.

(** [calculate_artist_diversity_weight] *)
Definition calculate_artist_diversity_weight (artist : option string)
    (recent_artists : list (option string)) : Q :=
  match artist with
  | None => 1
  | Some a =>
      if decide (a = "") then 1
      else
        let recent_count := count_occ_Z (Some a) recent_artists in
        if decide (recent_count = 0)%Z then 1
        else py_max (5 # 100) (1 / inject_Z (recent_count ^ 3))
  end.

(** The [seasonal_boosts] table, in the order the [dict] is written. *)
Definition seasonal_boosts : list (string * list Z) :=
  [ ("christmas", [12; 1]%Z); ("holiday", [12; 1]%Z); ("jazz", [10; 11; 12]%Z);
    ("classical", [10; 11; 12; 1; 2]%Z); ("electronic", [6; 7; 8]%Z);
    ("reggae", [6; 7; 8]%Z); ("folk", [9; 10; 11]%Z); ("acoustic", [9; 10; 11]%Z) ].

(** [apply_seasonal_adjustment] *)
Definition apply_seasonal_adjustment (config : AlgorithmConfig) (clock : Clock)
    (genres : list string) (weight : Q) : Q :=
  match genres with
  | [] => weight
  | g :: _ =>
      if negb (seasonal_adjustment config) then weight
      else
        let primary_genre := lower g in
        if existsb (fun '(genre_key, months) =>
                      contains genre_key primary_genre
                      && bool_decide (month clock ∈ months)) seasonal_boosts
        then weight * (13 # 10)
        else weight
  end.

Definition any_in (keys : list string) (primary_genre : string) : bool :=
  existsb (fun g => contains g primary_genre) keys.

(** [apply_time_based_adjustment] *)
Definition apply_time_based_adjustment (config : AlgorithmConfig) (clock : Clock)
    (genres : list string) (weight : Q) : Q :=
  match genres with
  | [] => weight
  | g :: _ =>
      if negb (time_based_preferences config) then weight
      else
        let current_hour := hour clock in
        let primary_genre := lower g in
        if bool_decide (6 ≤ current_hour ≤ 10)%Z then
          if any_in ["classical"; "acoustic"; "folk"; "jazz"] primary_genre
          then weight * (12 # 10) else weight
        else if bool_decide (18 ≤ current_hour ≤ 22)%Z then
          if any_in ["electronic"; "rock"; "pop"] primary_genre
          then weight * (12 # 10) else weight
        else if bool_decide (22 ≤ current_hour ∨ current_hour ≤ 6)%Z then
          if any_in ["ambient"; "classical"; "jazz"] primary_genre
          then weight * (13 # 10) else weight
        else weight
  end.

End WeightCalculator.

(** The date an album was added is one that [calculate_recency_weight]
    accepts: not NULL, and not 259071 days or more after [now]. *)
Definition date_added_ok (now : Z) (date_added : date_col) : Prop :=
  match date_added with
  | DNull => False
  | DNaive t => -259071 < WeightCalculator.days_between now t
  | _ => True
  end.

(** ** [RandomAlgorithm] *)

Record SelectionMetrics : Type := mkSelectionMetrics {
  total_selections : Z;
  cache_hit_rate : Q;
  user_satisfaction_score : Q
}.

Record RandomAlgorithm : Type := mkRandomAlgorithm {
  config : AlgorithmConfig;
  history : SelectionHistory;
  metrics : SelectionMetrics;
  last_cache_refresh : Z;
  db : Database
}.

(** The [dict] that [select_random_album] builds from the row it drew: the
    joined row of [albums], and the columns of [intelligent_cache] when the
    row comes from the weighted query. *)
Record SelectedAlbum : Type := mkSelectedAlbum {
  drawn_album : Album;
  drawn_cache_row : option CacheRow;
  parsed_genres : json_value;
  parsed_styles : json_value
}.

Module Engine.

Import WeightCalculator.
Local Open Scope Q_scope.

Definition with_db (d : Database) (st : RandomAlgorithm) : RandomAlgorithm :=
  mkRandomAlgorithm (config st) (history st) (metrics st) (last_cache_refresh st) d.
Definition with_history (h : SelectionHistory) (st : RandomAlgorithm) : RandomAlgorithm :=
  mkRandomAlgorithm (config st) h (metrics st) (last_cache_refresh st) (db st).
Definition with_metrics (m : SelectionMetrics) (st : RandomAlgorithm) : RandomAlgorithm :=
  mkRandomAlgorithm (config st) (history st) m (last_cache_refresh st) (db st).

(** [json.loads(col or '[]')] *)
Definition json_loads (col : json_col) : outcome json_value :=
  match col with
  | JNull => Ok (VList [])
  | JInvalid => Raise JSONDecodeError
  | JTooDeep => Raise RecursionError
  | JValue v => Ok v
  end.

(** The characters of a string, one string each. *)
Fixpoint characters (s : string) : list string :=
  match s with
  | EmptyString => []
  | String a s' => String a EmptyString :: characters s'
  end.

(** How the functions of [WeightCalculator] that take [genres] see a parsed
    value. They test [genres] for truth and read [genres[0]], nothing else:
    on a value that is false they see the empty list, on one whose item 0
    is a string a list of strings. *)
Inductive genres_seen : Type :=
| Strings (l : list string)
| FirstOther (truthy : bool) (eq_class : Z)   (* item 0 is not a string *)
| NoItem0.                                    (* [genres[0]] raises *)

Definition see_genres (v : json_value) : genres_seen :=
  match v with
  | VList [] => Strings []
  | VList (GStr s :: l) => Strings (s :: omap genre_text l)
  | VList (GOther truthy eq_class :: _) => FirstOther truthy eq_class
  | VStr s => Strings (characters s)
  | VOther truthy => if truthy then NoItem0 else Strings []
  end.

(** What [genres] contributes to the weight of an album: the factor of
    [calculate_genre_diversity_weight], and the two adjustments as a function
    of the weight. [None] is an exception: the [TypeError] of [genres[0]],
    or the [AttributeError] of [genres[0].lower()] in an adjustment that is
    switched on when item 0 is not a string. *)
Definition genre_factors (cfg : AlgorithmConfig) (clock : Clock) (genres : json_value)
    (recent_genres : list genre) : option (Q * (Q → Q)) :=
  match see_genres genres with
  | Strings l =>
      Some (calculate_genre_diversity_weight cfg l (omap genre_text recent_genres),
            fun w => apply_time_based_adjustment cfg clock l
                       (apply_seasonal_adjustment cfg clock l w))
  | FirstOther truthy eq_class =>
      let diversity_weight :=
        if truthy
        then genre_count_weight cfg (count_occ_Z (GOther truthy eq_class) recent_genres)
        else 1 in
      if seasonal_adjustment cfg || time_based_preferences cfg then None
      else Some (diversity_weight, fun w => w)
  | NoItem0 => None
  end.

Fixpoint sum_Z (l : list Z) : Z :=
  match l with
  | [] => 0%Z
  | x :: l => (x + sum_Z l)%Z
  end.

(** The body of the [for album in albums] loop of
    [_refresh_selection_cache]: [None] when the album is skipped, be it by
    [continue] or by the [except] of the loop. The row id is given later. *)
Definition weigh_album (m : MathLib) (cfg : AlgorithmConfig) (clock : Clock)
    (avg_play_count : Q) (recent_genres : list genre)
    (recent_artists : list (option string)) (recent_albums : list Z)
    (album : Album) : option CacheRow :=
  match json_loads (a_genres album) with
  | Ok genres =>
      if bool_decide (a_id album ∈ recent_albums) then None
      else
        let rating_weight := calculate_rating_weight cfg (a_rating album) in
        match calculate_play_count_weight m cfg (a_play_count album) avg_play_count with
        | None => None
        | Some play_count_weight =>
            match calculate_recency_weight m cfg (now clock)
                    (a_date_added album) (a_last_played album) with
            | None => None
            | Some recency_weight =>
                match genre_factors cfg clock genres recent_genres with
                | None => None
                | Some (diversity_weight, adjust) =>
                    let artist_weight :=
                      calculate_artist_diversity_weight (a_artist album) recent_artists in
                    let base_weight := rating_weight * play_count_weight * recency_weight in
                    let final_weight := base_weight * diversity_weight * artist_weight in
                    let final_weight := adjust final_weight in
                    let final_weight := py_max (1 # 100) final_weight in
                    Some (mkCacheRow 0 (a_id album) 1 rating_weight play_count_weight
                            recency_weight diversity_weight final_weight (now clock) 0 None)
                end
            end
        end
  | _ => None
  end.

(** [INSERT] of the computed rows into the emptied table: rowids from 1. *)
Fixpoint insert_rows (next_id : Z) (rows : list CacheRow) : list CacheRow :=
  match rows with
  | [] => []
  | r :: rows =>
      mkCacheRow next_id (ic_album_id r) (ic_base_weight r) (ic_rating_weight r)
        (ic_play_count_weight r) (ic_recency_weight r) (ic_diversity_weight r)
        (ic_final_weight r) (ic_last_computed r) (ic_times_served r) (ic_last_served r)
      :: insert_rows (next_id + 1) rows
  end.

(** [RandomAlgorithm._refresh_selection_cache]. The [OverflowError] of
    [get_recent_albums] is raised outside the loop: the [except] around the
    whole body logs it, and the cache and [last_cache_refresh] stay as they
    are. *)
Definition _refresh_selection_cache (m : MathLib) (clock : Clock)
    (st : RandomAlgorithm) : RandomAlgorithm :=
  let albums := albums (db st) in
  match albums with
  | [] => st
  | _ =>
      let play_counts := (fun a => default 0%Z (a_play_count a)) <$> albums in
      let avg_play_count := inject_Z (sum_Z play_counts) / inject_Z (Z.of_nat (length play_counts)) in
      let cfg := config st in
      let recent_genres := History.get_recent_genres (genre_cooldown_selections cfg) (history st) in
      let recent_artists := History.get_recent_artists (max_same_artist_streak cfg) (history st) in
      match History.get_recent_albums (now clock) (min_time_between_repeats_hours cfg)
              (history st) with
      | None => st
      | Some recent_albums =>
          let cache_entries :=
            omap (weigh_album m cfg clock avg_play_count recent_genres recent_artists
                    recent_albums)
              albums in
          mkRandomAlgorithm cfg (history st) (metrics st) (now clock)
            (mkDatabase albums (insert_rows 1 cache_entries) (selection_history (db st)))
      end
  end.

(** The rows a refresh computes, given the albums of the exclusion window. *)
Definition computed_rows (m : MathLib) (clock : Clock) (st : RandomAlgorithm)
    (recent_albums : list Z) : list CacheRow :=
  let play_counts := (fun a => default 0%Z (a_play_count a)) <$> albums (db st) in
  let avg_play_count := inject_Z (sum_Z play_counts) / inject_Z (Z.of_nat (length play_counts)) in
  let cfg := config st in
  omap (weigh_album m cfg clock avg_play_count
          (History.get_recent_genres (genre_cooldown_selections cfg) (history st))
          (History.get_recent_artists (max_same_artist_streak cfg) (history st))
          recent_albums)
    (albums (db st)).

(** [RandomAlgorithm.trigger_cache_refresh] *)
Definition trigger_cache_refresh (m : MathLib) (clock : Clock)
    (st : RandomAlgorithm) : RandomAlgorithm :=
  _refresh_selection_cache m clock st.

(** The rows of
    [intelligent_cache ic JOIN albums a ON ic.album_id = a.id WHERE ic.final_weight > 0]. *)
Definition weighted_rows (d : Database) : list (CacheRow * Album) :=
  row ← filter (fun row => Qlt_b 0 (ic_final_weight row) = true) (intelligent_cache d);
  (fun a => (row, a)) <$> filter (fun a => ic_album_id row = a_id a) (albums d).

(** [ORDER BY score DESC LIMIT 1]: the row of greatest score, the earliest
    of them on a tie; [score i x] is the score of the [i]-th row [x]. *)
Fixpoint best_from {A} (score : nat → A → Q) (i : nat) (best : A) (best_score : Q)
    (l : list A) : A :=
  match l with
  | [] => best
  | x :: l =>
      let s := score i x in
      if Qle_bool s best_score then best_from score (S i) best best_score l
      else best_from score (S i) x s l
  end.

Definition order_by_desc_limit_1 {A} (score : nat → A → Q) (l : list A) : option A :=
  match l with
  | [] => None
  | x :: l => Some (best_from score 1 x (score O x) l)
  end.

(** [album['id']]: the weighted query selects [ic.*], so the key [id] of its
    rows is the rowid of [intelligent_cache]; the fallback query selects the
    columns of [albums]. *)
Definition dict_id (album : SelectedAlbum) : Z :=
  match drawn_cache_row album with
  | Some row => ic_id row
  | None => a_id (drawn_album album)
  end.

(** [session_id or 'anonymous'] *)
Definition session_or_anonymous (session_id : option string) : string :=
  match session_id with
  | None => "anonymous"
  | Some s => if decide (s = "") then "anonymous" else s
  end.

Definition next_rowid (rows : list HistoryRow) : Z :=
  (foldr Z.max 0 (sh_id <$> rows) + 1)%Z.

(** [RandomAlgorithm._record_selection] *)
Definition _record_selection (album : SelectedAlbum) (session_id : option string)
    (clock : Clock) (d : Database) : Database :=
  let final_weight :=
    match drawn_cache_row album with
    | Some row => ic_final_weight row
    | None => 1
    end in
  mkDatabase (albums d) (intelligent_cache d)
    (selection_history d ++
       [mkHistoryRow (next_rowid (selection_history d)) (dict_id album) (now clock) None
          (session_or_anonymous session_id) final_weight]).

(** [UPDATE intelligent_cache SET times_served = times_served + 1,
    last_served = ? WHERE album_id = ?] *)
Definition mark_served (clock : Clock) (album_id : Z) (d : Database) : Database :=
  mkDatabase (albums d)
    ((fun row =>
        if decide (ic_album_id row = album_id) then
          mkCacheRow (ic_id row) (ic_album_id row) (ic_base_weight row) (ic_rating_weight row)
            (ic_play_count_weight row) (ic_recency_weight row) (ic_diversity_weight row)
            (ic_final_weight row) (ic_last_computed row) (ic_times_served row + 1)
            (Some (now clock))
        else row) <$> intelligent_cache d)
    (selection_history d).

(** [RandomAlgorithm._update_metrics], without the response time. *)
Definition _update_metrics (success : bool) (mt : SelectionMetrics) : SelectionMetrics :=
  let alpha := 1 # 10 in
  mkSelectionMetrics (total_selections mt + 1)
    (alpha * (if success then 1 else 0) + (1 - alpha) * cache_hit_rate mt)
    (user_satisfaction_score mt).

(** The argument [add_selection] reads off the [dict]: a row of the weighted
    query has no key [rating] or [play_count]. *)
Definition selection_of (album : SelectedAlbum) (clock : Clock) : Selection :=
  mkSelection (dict_id album) (now clock) (parsed_genres album)
    (a_artist (drawn_album album))
    (match drawn_cache_row album with
     | Some _ => Some 0%Z
     | None => a_rating (drawn_album album)
     end)
    (match drawn_cache_row album with
     | Some _ => Some 0%Z
     | None => a_play_count (drawn_album album)
     end).

(** The check of the cache age that opens [select_random_album]. *)
Definition refresh_if_stale (m : MathLib) (clock : Clock) (st : RandomAlgorithm)
    : RandomAlgorithm :=
  if bool_decide (now clock - last_cache_refresh st > 3600)%Z
  then _refresh_selection_cache m clock st else st.

(** The parsing of the JSON fields in [select_random_album]: [genres], then
    [styles]. A [JSONDecodeError] of either leaves both as empty lists;
    [None] is another exception of [json.loads], which the [except] of the
    parsing does not catch. *)
Definition parse_json_fields (a : Album) : option (json_value * json_value) :=
  match json_loads (a_genres a) with
  | Ok genres =>
      match json_loads (a_styles a) with
      | Ok styles => Some (genres, styles)
      | Raise JSONDecodeError => Some (VList [], VList [])
      | _ => None
      end
  | Raise JSONDecodeError => Some (VList [], VList [])
  | _ => None
  end.

(** The row the two queries of [select_random_album] give: of the weighted
    cache, else of the whole collection. [rnd i] is the value [RANDOM()]
    takes on the [i]-th row of the query that is run. *)
Definition draw_row (rnd : nat → Z) (d : Database) : option (Album * option CacheRow) :=
  match order_by_desc_limit_1
          (fun i '(row, _) => inject_Z (rnd i) * ic_final_weight row)
          (weighted_rows d) with
  | Some (row, a) => Some (a, Some row)
  | None =>
      match order_by_desc_limit_1 (fun i _ => inject_Z (rnd i)) (albums d) with
      | Some a => Some (a, None)
      | None => None
      end
  end.

(** [RandomAlgorithm.select_random_album]. The [try] around the body answers
    [None] to any exception, after [_update_metrics] with [success=False].
    Two steps can raise: the parsing of the JSON fields, and
    [add_selection] when the genres are a true value without item 0. By then
    the row of [selection_history] is inserted; on the weighted path it is
    committed together with the update of [times_served], on the fallback
    path the connection rolls it back as the exception passes. *)
Definition select_random_album (m : MathLib) (clock : Clock) (rnd : nat → Z)
    (session_id : option string) (st : RandomAlgorithm)
    : option SelectedAlbum * RandomAlgorithm :=
  let st := refresh_if_stale m clock st in
  match draw_row rnd (db st) with
  | None => (None, st)
  | Some (a, row) =>
      match parse_json_fields a with
      | None => (None, with_metrics (_update_metrics false (metrics st)) st)
      | Some (genres, styles) =>
          let album := mkSelectedAlbum a row genres styles in
          let recorded := with_db (_record_selection album session_id clock (db st)) st in
          let committed :=
            match row with
            | Some _ => with_db (mark_served clock (dict_id album) (db recorded)) recorded
            | None => st
            end in
          match History.add_selection (selection_of album clock) (history st) with
          | (Ok _, h) =>
              let st :=
                match row with
                | Some _ => committed
                | None => recorded
                end in
              let st := with_history h st in
              (Some album, with_metrics (_update_metrics true (metrics st)) st)
          | (_, h) =>
              let st := with_history h committed in
              (None, with_metrics (_update_metrics false (metrics st)) st)
          end
      end
  end.

(** The albums on which [select_random_album] fails once it has drawn them:
    one of the two JSON columns is nested too deep for [json.loads], or
    [genres] holds a true value without item 0 (a number, [true], an
    object) and [styles] parses. *)
Definition breaks_selection (a : Album) : bool :=
  match a_genres a, a_styles a with
  | JTooDeep, _ => true
  | JInvalid, _ => false
  | _, JTooDeep => true
  | _, JInvalid => false
  | JValue (VOther true), _ => true
  | _, _ => false
  end.

(** The rows [record_user_feedback] may update. *)
Definition awaits_feedback (album_id : Z) (session : string) (r : HistoryRow) : bool :=
  bool_decide (sh_album_id r = album_id)
  && bool_decide (sh_session_id r = session)
  && bool_decide (sh_user_feedback r = None).

(** The position of the row [ORDER BY selected_at DESC LIMIT 1] keeps among
    the candidates; on equal [selected_at] the later row of the table. *)
Fixpoint latest_candidate (album_id : Z) (session : string) (i : nat)
    (best : option (nat * Z)) (rows : list HistoryRow) : option (nat * Z) :=
  match rows with
  | [] => best
  | r :: rows =>
      let best :=
        if awaits_feedback album_id session r then
          match best with
          | Some (_, t) => if decide (t ≤ sh_selected_at r)%Z then Some (i, sh_selected_at r) else best
          | None => Some (i, sh_selected_at r)
          end
        else best in
      latest_candidate album_id session (S i) best rows
  end.

Definition set_feedback (feedback : Z) (r : HistoryRow) : HistoryRow :=
  mkHistoryRow (sh_id r) (sh_album_id r) (sh_selected_at r) (Some feedback)
    (sh_session_id r) (sh_final_weight r).

(** [RandomAlgorithm.record_user_feedback] *)
Definition record_user_feedback (album_id feedback : Z) (session_id : option string)
    (st : RandomAlgorithm) : RandomAlgorithm :=
  let rows := selection_history (db st) in
  let rows :=
    match latest_candidate album_id (session_or_anonymous session_id) 0 None rows with
    | Some (i, _) => alter (set_feedback feedback) i rows
    | None => rows
    end in
  let st := with_db (mkDatabase (albums (db st)) (intelligent_cache (db st)) rows) st in
  if decide (feedback = 0)%Z then st
  else
    let alpha := feedback_learning_rate (config st) in
    let satisfaction_update := if decide (0 < feedback)%Z then 1 else 0 in
    with_metrics
      (mkSelectionMetrics (total_selections (metrics st)) (cache_hit_rate (metrics st))
         (alpha * satisfaction_update + (1 - alpha) * user_satisfaction_score (metrics st)))
      st.

(** The rows of [selection_history sh JOIN albums a ON sh.album_id = a.id]. *)
Definition history_join (d : Database) : list (HistoryRow * Album) :=
  sh ← selection_history d;
  (fun a => (sh, a)) <$> filter (fun a => sh_album_id sh = a_id a) (albums d).

(** The [for row in cursor.fetchall()] loop of [_load_selection_history];
    an exception of [json.loads] or of [add_selection] ends it, through the
    [except] around it. *)
Fixpoint load_rows (clock : Clock) (rows : list (HistoryRow * Album))
    (h : SelectionHistory) : SelectionHistory :=
  match rows with
  | [] => h
  | (sh, a) :: rows =>
      match json_loads (a_genres a) with
      | Ok genres =>
          match History.add_selection
                  (mkSelection (sh_album_id sh) (now clock) genres (a_artist a)
                     (a_rating a) (a_play_count a)) h with
          | (Ok _, h) => load_rows clock rows h
          | (_, h) => h
          end
      | _ => h
      end
  end.

(** [ORDER BY sh.selected_at DESC] *)
Definition newer_first (x y : HistoryRow * Album) : Prop :=
  (sh_selected_at y.1 ≤ sh_selected_at x.1)%Z.

#[export] Instance newer_first_dec x y : Decision (newer_first x y).
Proof. unfold newer_first. apply _. Defined.

(** [RandomAlgorithm._load_selection_history] *)
Definition _load_selection_history (clock : Clock) (st : RandomAlgorithm) : RandomAlgorithm :=
  let recent :=
    filter (fun '(sh, _) => (now clock - 7 * 86400 < sh_selected_at sh)%Z)
      (history_join (db st)) in
  let newest_first :=
    merge_sort newer_first recent in
  with_history
    (load_rows clock (take (max_history_size (config st)) newest_first) (history st)) st.

(** [RandomAlgorithm.__init__], on the database as it is found. *)
Definition init (m : MathLib) (clock : Clock) (cfg : AlgorithmConfig)
    (d : Database) : RandomAlgorithm :=
  let st :=
    mkRandomAlgorithm cfg (History.init (max_history_size cfg))
      (mkSelectionMetrics 0 0 0) (now clock) d in
  _refresh_selection_cache m clock (_load_selection_history clock st).

(** [RandomAlgorithm.clear_history] *)
Definition clear_history (st : RandomAlgorithm) : RandomAlgorithm :=
  let h := history st in
  let st := with_history (mkSelectionHistory (max_size h) [] [] []) st in
  with_db (mkDatabase (albums (db st)) (intelligent_cache (db st)) []) st.

End Engine.

(** What happens to an engine: the calls of its methods, a change of the
    collection by the application, and a restart of the process on the
    database it left. *)
Inductive engine_op : Type :=
| CallSelect (clock : Clock) (rnd : nat → Z) (session_id : option string)
| CallRefresh (clock : Clock)
| CallFeedback (album_id feedback : Z) (session_id : option string)
| CallClearHistory
| CollectionChanges (new_albums : list Album)
| ProcessRestarts (clock : Clock) (cfg : AlgorithmConfig).

Definition engine_step (m : MathLib) (st : RandomAlgorithm) (o : engine_op) : RandomAlgorithm :=
  match o with
  | CallSelect clock rnd session_id => (Engine.select_random_album m clock rnd session_id st).2
  | CallRefresh clock => Engine.trigger_cache_refresh m clock st
  | CallFeedback album_id feedback session_id =>
      Engine.record_user_feedback album_id feedback session_id st
  | CallClearHistory => Engine.clear_history st
  | CollectionChanges new_albums =>
      Engine.with_db
        (mkDatabase new_albums (intelligent_cache (db st)) (selection_history (db st))) st
  | ProcessRestarts clock cfg => Engine.init m clock cfg (db st)
  end.

Definition engine_run (m : MathLib) (st : RandomAlgorithm) (ops : list engine_op)
    : RandomAlgorithm :=
  foldl (engine_step m) st ops.

(** The database of a first start: the collection, and the tables of the
    algorithm just created. *)
Definition first_database (collection : list Album) : Database :=
  mkDatabase collection [] [].

(** Every row of [intelligent_cache] has a final weight of 0.01 or more. *)
Definition floor_ok (st : RandomAlgorithm) : Prop :=
  Forall (fun row => (1 # 100 <= ic_final_weight row)%Q) (intelligent_cache (db st)).

(** ** A small collection, for the worked examples *)

(** Rational stand-ins for [math.exp] on the negative reals and for
    [math.log]. *)
Definition coarse_math : MathLib :=
  mkMathLib (fun x => 1 / (1 - x))%Q (fun x => x - 1)%Q.

Definition kind_of_blue : Album :=
  mkAlbum 1 (Some "Miles Davis") (JList ["Jazz"]) JNull (Some 5) (Some 3) (DNaive 0) DNull.

Definition the_wall : Album :=
  mkAlbum 2 (Some "Pink Floyd") (JList ["Rock"]) JNull (Some 1) (Some 0) (DNaive 0) DNull.

Definition noon (seconds : Z) : Clock := mkClock seconds 5 12.

(** The engine started at second 1000000 on the two albums. *)
Definition two_album_engine : RandomAlgorithm :=
  Engine.init coarse_math (noon 1000000) default_config
    (first_database [kind_of_blue; the_wall]).

(** Two albums whose ids are not the row numbers of the weighted cache. *)
Definition blue_train : Album :=
  mkAlbum 10 (Some "John Coltrane") (JList ["Jazz"]) JNull (Some 5) (Some 3) (DNaive 0) DNull.

Definition low : Album :=
  mkAlbum 20 (Some "David Bowie") (JList ["Rock"]) JNull (Some 1) (Some 0) (DNaive 0) DNull.

(** The engine started at second 1000000 on them. *)
Definition shelf_engine : RandomAlgorithm :=
  Engine.init coarse_math (noon 1000000) default_config
    (first_database [blue_train; low]).



(** An engine whose [selection_history] holds selections of album 7 from
    three sessions, and one of album 8. *)
Definition three_session_engine : RandomAlgorithm :=
  mkRandomAlgorithm default_config (History.init 50) (mkSelectionMetrics 0 0 0) 0
    (mkDatabase [] []
       [mkHistoryRow 1 7 100 None "kitchen" 1; mkHistoryRow 2 7 200 None "kitchen" 1;
        mkHistoryRow 3 7 300 None "office" 1; mkHistoryRow 4 7 400 None "anonymous" 1;
        mkHistoryRow 5 8 500 None "kitchen" 1]).

(** [RANDOM()] favouring the first row of the query. *)
Definition first_row_high (i : nat) : Z :=
  match i with
  | O => 9
  | _ => 1
  end.

(** What [latest_candidate] has found in the rows [pre] it has seen. *)
Definition latest_of (album_id : Z) (session : string) (pre : list HistoryRow)
    (best : option (nat * Z)) : Prop :=
  match best with
  | None => ∀ r, r ∈ pre → Engine.awaits_feedback album_id session r = false
  | Some (i, t) =>
      ∃ r, pre !! i = Some r
           ∧ Engine.awaits_feedback album_id session r = true
           ∧ t = sh_selected_at r
           ∧ ∀ r', r' ∈ pre → Engine.awaits_feedback album_id session r' = true →
                   (sh_selected_at r' ≤ t)%Z
  end.

(** ** Further methods of [LRUCache] *)

(** The [dict] that [LRUCache.get_stats] returns. *)
Record LRUStatsReport : Type := mkLRUStatsReport {
  rep_entries : Z;
  rep_size_bytes : Z;
  rep_max_size_bytes : Z;
  rep_hit_rate : Q;
  rep_hits : Z;
  rep_misses : Z;
  rep_evictions : Z;
  rep_total_requests : Z
}.

(** [LRUCache.get_stats] *)
Definition get_stats (c : LRUCache) : LRUStatsReport :=
  let hit_rate :=
    (inject_Z (hits (stats c)) / inject_Z (Z.max (total_requests (stats c)) 1) * 100)%Q in
  mkLRUStatsReport (Z.of_nat (size (cache_data c))) (current_size_bytes c) (max_size_bytes c)
    hit_rate (hits (stats c)) (misses (stats c)) (evictions (stats c))
    (total_requests (stats c)).

(** The call comes back with a value: it raises nothing and its loop ends. *)
Definition lru_returns (w : World) (o : lru_op) : Prop :=
  match o with
  | OpPut key entry => ∃ b, (LRU.put key entry w).1 = Ok b
  | OpGet now key => ∃ r, (LRU.get now key w).1 = Ok r
  | OpRemove key => ∃ b, (LRU.remove key w).1 = Ok b
  | OpEvict => (LRU._evict_lru w).1 = Ok tt
  | OpClear => (LRU.clear w).1 = Ok tt
  end.

(** The entries a sequence of calls puts into the cache. *)
Definition put_entries (ops : list lru_op) : list CacheEntry :=
  omap (fun o => match o with OpPut _ entry => Some entry | _ => None end) ops.

(** The stored entries have sizes that are not negative, and the running
    total is within the budget. *)
Definition within_budget (max_size : Z) (c : LRUCache) : Prop :=
  in_sync c ∧ size_ok c
  ∧ (∀ k e, cache_data c !! k = Some e → 0 ≤ file_size e)
  ∧ current_size_bytes c ≤ max_size_bytes c
  ∧ max_size_bytes c = max_size.

(** Every request was counted as a hit or as a miss. *)
Definition counters_ok (c : LRUCache) : Prop :=
  hits (stats c) + misses (stats c) = total_requests (stats c)
  ∧ 0 ≤ hits (stats c) ∧ 0 ≤ misses (stats c) ∧ 0 ≤ evictions (stats c).

(** ** Further vocabulary for [ImageCache] *)

(** The bytes of a response body, chunk after chunk. *)
Fixpoint body_content (body : list chunk) : bytes :=
  match body with
  | [] => []
  | Data b :: body => b ++ body_content body
  | Broken :: body => body_content body
  end.

(** The entry [_process_and_cache_image] builds for the processed bytes. *)
Definition new_entry (env : ImageEnv) (now : Z) (url size_type : string)
    (st : ImageCacheState) (processed_data : bytes) (dims : Z * Z) : CacheEntry :=
  mkCacheEntry
    (ImageCache._get_cache_file_path st
       (ImageCache._generate_cache_key env url size_type) size_type)
    url size_type (Z.of_nat (length processed_data)) now now 1 dims.1 dims.2 "WEBP".

(** An image cache with a budget of one byte. *)
Definition tiny_image_cache : ImageCacheState :=
  mkImageCacheState "/cache" (LRU.init 1) ∅ ∅.

(** The entry of the image [env_200] serves, as the detail size stores it. *)
Definition stored_detail_entry : CacheEntry :=
  new_entry env_200 0 "http://img/a" "detail" fresh_image_cache
    [Byte.x06; Byte.x89; Byte.x50] (600, 600).

(** An image cache that holds that entry, with its file on disk. *)
Definition warm_image_cache : ImageCacheState :=
  mkImageCacheState "/cache"
    (LRU.put (ImageCache._generate_cache_key env_200 "http://img/a" "detail")
       stored_detail_entry (LRU.init 1000, ∅)).2.1
    {[ file_path stored_detail_entry := [Byte.x06; Byte.x89; Byte.x50] ]} ∅.

(** [ImageCache.get_placeholder_path]. [draw size] is the placeholder image
    Pillow renders at that size, [None] when it raises. The [mkdir] of the
    directory and [placeholder_path.exists()] stand before the [try]: an
    [OSError] of theirs leaves the method. Drawing and saving are inside it:
    when they raise, the [except] logs it and no file is written. *)
Definition get_placeholder_path (env : ImageEnv) (draw : Z * Z → option bytes)
    (size_type : string) (st : ImageCacheState) : outcome string * ImageCacheState :=
  let placeholder_dir := Pathlib.truediv (Pathlib.parse (cache_dir st)) "placeholders" in
  if create_raises env (Pathlib.str placeholder_dir) then (Raise OSError, st)
  else
    let size := if decide (size_type = "thumbnails") then (150, 150) else (600, 600) in
    let placeholder_path :=
      Pathlib.str (Pathlib.truediv placeholder_dir ("placeholder_" +:+ size_type +:+ ".webp")) in
    if stat_raises env placeholder_path then (Raise OSError, st)
    else
      let st :=
        if path_exists (files st) placeholder_path then st
        else
          match draw size with
          | Some img =>
              if create_raises env placeholder_path then st
              else ImageCache.with_files (<[placeholder_path := img]> (files st)) st
          | None => st
          end in
      (Ok placeholder_path, st).

(** The [for row in old_entries] loop of [cleanup_cache]: the rows still to
    do, the count so far, the cache and the table. A [KeyError] of [remove]
    ends it. *)
Fixpoint cleanup_rows (rows : list (string * CacheEntry)) (cleaned_count : Z)
    (w : World) (table : gmap string CacheEntry)
    : outcome Z * World * gmap string CacheEntry :=
  match rows with
  | [] => (Ok cleaned_count, w, table)
  | (cache_key, _) :: rows =>
      match LRU.remove cache_key w with
      | (Ok removed, w) =>
          cleanup_rows rows (if removed then cleaned_count + 1 else cleaned_count) w
            (delete cache_key table)
      | (Raise e, w) => (Raise e, w, table)
      | (OutOfFuel, w) => (OutOfFuel, w, table)
      end
  end.

(** The rows [cleanup_cache] selects:
    [SELECT cache_key, file_path FROM image_cache WHERE last_accessed < ?]. *)
Definition old_entries (cutoff : Z) (table : gmap string CacheEntry)
    : list (string * CacheEntry) :=
  map_to_list (filter (fun kv => last_accessed kv.2 < cutoff) table).

(** [ImageCache.cleanup_cache]. The cutoff is computed before the [try]:
    its [OverflowError] leaves the method. When the loop raises, the
    [except] returns 0 and the deletions of rows are not committed. *)
Definition cleanup_cache (now max_age_days : Z) (st : ImageCacheState)
    : outcome Z * ImageCacheState :=
  match datetime_minus now (max_age_days * 86400) with
  | None => (Raise OverflowError, st)
  | Some cutoff_date =>
      match cleanup_rows (old_entries cutoff_date (image_cache_table st)) 0
              (ImageCache.world st) (image_cache_table st) with
      | (Ok cleaned_count, w, table) =>
          (Ok cleaned_count, mkImageCacheState (cache_dir st) w.1 w.2 table)
      | (_, w, _) =>
          (Ok 0, mkImageCacheState (cache_dir st) w.1 w.2 (image_cache_table st))
      end
  end.

(** [warm_image_cache] with the row of its entry in the table; the row was
    last accessed at time 0. *)
Definition aged_image_cache : ImageCacheState :=
  mkImageCacheState "/cache" (lru_cache warm_image_cache) (files warm_image_cache)
    {[ ImageCache._generate_cache_key env_200 "http://img/a" "detail" := stored_detail_entry ]}.

(** [ORDER BY last_accessed DESC] on the rows of [image_cache]. *)
Definition newer_row_first (x y : string * CacheEntry) : Prop :=
  last_accessed y.2 ≤ last_accessed x.2.

#[export] Instance newer_row_first_dec x y : Decision (newer_row_first x y).
Proof. unfold newer_row_first. apply _. Defined.

(** [SELECT * FROM image_cache ORDER BY last_accessed DESC] *)
Definition rows_by_last_accessed_desc (table : gmap string CacheEntry)
    : list (string * CacheEntry) :=
  merge_sort newer_row_first (map_to_list table).

(** The [for row in cursor.fetchall()] loop of [_load_cache_from_database]:
    a row whose file is on disk is [put] into the LRU cache, the row of a
    missing file is deleted. *)
Fixpoint load_cache_rows (rows : list (string * CacheEntry)) (loaded_count : Z)
    (w : World) (table : gmap string CacheEntry)
    : outcome Z * World * gmap string CacheEntry :=
  match rows with
  | [] => (Ok loaded_count, w, table)
  | (cache_key, row) :: rows =>
      if path_exists w.2 (file_path row) then
        match LRU.put cache_key row w with
        | (Ok stored, w) =>
            load_cache_rows rows (if stored then loaded_count + 1 else loaded_count) w table
        | (Raise e, w) => (Raise e, w, table)
        | (OutOfFuel, w) => (OutOfFuel, w, table)
        end
      else load_cache_rows rows loaded_count w (delete cache_key table)
  end.

(** [ImageCache._load_cache_from_database]. An exception in the loop is
    logged and the deletions of rows are not committed. *)
Definition _load_cache_from_database (st : ImageCacheState) : ImageCacheState :=
  match load_cache_rows (rows_by_last_accessed_desc (image_cache_table st)) 0
          (ImageCache.world st) (image_cache_table st) with
  | (Ok _, w, table) => mkImageCacheState (cache_dir st) w.1 w.2 table
  | (_, w, _) => mkImageCacheState (cache_dir st) w.1 w.2 (image_cache_table st)
  end.

(** [ImageCache.__init__], given the files on disk and the rows the
    database holds: a new [LRUCache], then [_load_cache_from_database].
    Directories are not part of [Disk], so the [mkdir] calls leave no trace. *)
Definition ImageCache_init (cache_dir : string) (max_cache_size : Z)
    (disk : Disk) (table : gmap string CacheEntry) : ImageCacheState :=
  _load_cache_from_database
    (mkImageCacheState cache_dir (LRU.init max_cache_size) disk table).

(** Two rows of [image_cache] with their files: B was accessed after A. *)
Definition two_row_table : gmap string CacheEntry :=
  <["A" := sample_entry "A" 600]> {[ "B" := LRU.touch 5 (sample_entry "B" 300) ]}.

Definition two_file_disk : Disk :=
  <["/cache/detail/A.webp" := [Byte.x01]]> {[ "/cache/detail/B.webp" := [Byte.x02] ]}.

(** [s.endswith(suffix)] *)
Fixpoint endswith (suffix s : string) : bool :=
  if decide (s = suffix) then true
  else match s with
       | EmptyString => false
       | String _ s' => endswith suffix s'
       end.

(** [s[len(p):]] when [s.startswith(p)]. *)
Fixpoint strip_prefix (p s : string) : option string :=
  match p, s with
  | EmptyString, _ => Some s
  | String a p', String b s' => if decide (a = b) then strip_prefix p' s' else None
  | String _ _, EmptyString => None
  end.

(** ["/" in s] *)
Fixpoint has_slash (s : string) : bool :=
  match s with
  | EmptyString => false
  | String a s' => bool_decide (a = "/"%char) || has_slash s'
  end.

(** A single name below a directory: [pathlib] appends it as it is. *)
Definition plain_component (c : string) : Prop :=
  has_slash c = false ∧ c ≠ "" ∧ c ≠ "." ∧ c ≠ "..".

(** [p] is a path that [dir.glob('*.webp')] yields: a direct child of [dir]
    whose name ends in [.webp]. *)
Definition is_webp_child (dir p : string) : bool :=
  match strip_prefix (dir +:+ "/") p with
  | Some name => negb (has_slash name) && endswith ".webp" name
  | None => false
  end.

(** [list(dir.glob('*.webp'))] *)
Definition glob_webp (dir : string) (d : Disk) : list string :=
  filter (fun p => is_webp_child dir p = true) (map_to_list d).*1.

(** [for file_path in cache_subdir.glob('*.webp'): file_path.unlink()] *)
Definition unlink_webp (d : Disk) (dir : string) : Disk :=
  foldl (fun d p => delete p d) d (glob_webp dir d).

(** [ImageCache.clear_cache] *)
Definition clear_cache (st : ImageCacheState) : bool * ImageCacheState :=
  match LRU.clear (ImageCache.world st) with
  | (Ok _, w) =>
      let d := foldl (fun d subdir => unlink_webp d (path_join (cache_dir st) subdir)) w.2
                 ["thumbnails"; "detail"] in
      (true, mkImageCacheState (cache_dir st) w.1 d ∅)
  | (_, w) => (false, ImageCache.with_world w st)
  end.




(** The LRU cache is consistent and every key it holds has a row in the
    table. *)
Definition image_cache_ok (st : ImageCacheState) : Prop :=
  in_sync (lru_cache st)
  ∧ size_ok (lru_cache st)
  ∧ ∀ k, is_Some (cache_data (lru_cache st) !! k) → is_Some (image_cache_table st !! k).

(** The album the first selection on [two_album_engine] draws. *)
Definition first_pick : SelectedAlbum :=
  Eval vm_compute in
    default (mkSelectedAlbum kind_of_blue None (VList []) (VList []))
      (Engine.select_random_album coarse_math (noon 1000010) first_row_high None
         two_album_engine).1.

(** A selection, a like, and a restart of the process. *)
Definition select_like_restart : list engine_op :=
  [CallSelect (noon 1000010) first_row_high None; CallFeedback 1 1 None;
   ProcessRestarts (noon 1000020) default_config].

(** The [CacheStats] that [get_cache_stats] returns, without [last_cleanup],
    which is always [None]. *)
Record CacheStats : Type := mkCacheStats {
  total_entries : Z;
  total_size_bytes : Z;
  thumbnail_count : Z;
  detail_count : Z;
  hit_rate : Q;
  cache_limit_bytes : Z;
  available_space_bytes : Z
}.

(** The number of rows of [image_cache] of one [size_type]: the entry of
    [type_counts] for that type, 0 when there is none. *)
Definition count_of_type (type : string) (table : gmap string CacheEntry) : Z :=
  Z.of_nat (length (filter (fun kv => size_type kv.2 = type) (map_to_list table))).

(** [ImageCache.get_cache_stats]. [self.max_cache_size] is the budget the
    LRU cache was created with. *)
Definition get_cache_stats (st : ImageCacheState) : CacheStats :=
  let total_size := LRU.stored_bytes (image_cache_table st) in
  let total_entries := Z.of_nat (length (map_to_list (image_cache_table st))) in
  let lru_stats := get_stats (lru_cache st) in
  let max_cache_size := max_size_bytes (lru_cache st) in
  mkCacheStats total_entries total_size
    (count_of_type "thumbnails" (image_cache_table st))
    (count_of_type "detail" (image_cache_table st))
    (rep_hit_rate lru_stats) max_cache_size (max_cache_size - total_size).

(** * Lemmas and theorems *)

(** ** Properties of [LRUCache] *)

Section LRUFacts.

Implicit Types (c : LRUCache) (d : Disk) (w : World) (m : gmap string CacheEntry).

Lemma stored_bytes_empty : LRU.stored_bytes ∅ = 0.
Proof. reflexivity. Qed.

Lemma stored_bytes_insert m k e :
  m !! k = None → LRU.stored_bytes (<[k := e]> m) = file_size e + LRU.stored_bytes m.
Proof.
  intros Hk. unfold LRU.stored_bytes.
  apply (map_fold_insert_L (fun _ entry acc => file_size entry + acc)); [|done].
  intros; lia.
Qed.

Lemma stored_bytes_delete m k e :
  m !! k = Some e → LRU.stored_bytes (delete k m) = LRU.stored_bytes m - file_size e.
Proof.
  intros Hk. unfold LRU.stored_bytes.
  rewrite (map_fold_delete_L (fun _ entry acc => file_size entry + acc) 0 k e m); [lia| |done].
  intros; lia.
Qed.

Lemma stored_bytes_replace m k e e' :
  m !! k = Some e → file_size e' = file_size e →
  LRU.stored_bytes (<[k := e']> m) = LRU.stored_bytes m.
Proof.
  intros Hk Hsz. rewrite <- insert_delete_eq.
  rewrite stored_bytes_insert by apply lookup_delete_eq.
  rewrite (stored_bytes_delete m k e) by done. lia.
Qed.

Lemma init_size_ok max : size_ok (LRU.init max).
Proof. reflexivity. Qed.

Lemma get_size_ok now k c d : size_ok c → size_ok (LRU.get now k (c, d)).2.1.
Proof.
  unfold size_ok, LRU.get. intros H. cbn.
  destruct (cache_data c !! k) as [e|] eqn:Hk; cbn; [|done].
  destruct (OD.move_to_end k (cache_order c)); cbn;
    by rewrite (stored_bytes_replace _ k e).
Qed.

Lemma del_first_key {V} (o : OD.t V) k :
  OD.first_key o = Some k → ∃ v o', o = (k, v) :: o' ∧ OD.del k o = Some o'.
Proof.
  destruct o as [|[k' v] o']; [done|]. cbn. intros [= ->].
  exists v, o'. by rewrite decide_True.
Qed.

Lemma evict_size_ok w : size_ok w.1 → size_ok (LRU._evict_lru w).2.1.
Proof.
  destruct w as [c d]. unfold size_ok, LRU._evict_lru. cbn. intros H.
  destruct (OD.first_key (cache_order c)) as [k|] eqn:Hf; [|done].
  destruct (cache_data c !! k) as [e|] eqn:Hk; [|done]. cbn.
  destruct (del_first_key _ _ Hf) as (v & o' & _ & ->). cbn.
  rewrite (stored_bytes_delete _ k e) by done. lia.
Qed.

Lemma evict_absent k w :
  cache_data w.1 !! k = None → cache_data (LRU._evict_lru w).2.1 !! k = None.
Proof.
  destruct w as [c d]. unfold LRU._evict_lru. cbn. intros H.
  destruct (OD.first_key (cache_order c)) as [k'|] eqn:Hf; [|done].
  destruct (cache_data c !! k') as [e|] eqn:Hk; [|done]. cbn.
  destruct (del_first_key _ _ Hf) as (v & o' & _ & ->). cbn.
  rewrite lookup_delete. by case_decide.
Qed.

(** Whatever every eviction preserves, the loop of [put] preserves. *)
Lemma evict_while_preserves (P : LRUCache → Prop) fuel entry w :
  (∀ w', P w'.1 → P (LRU._evict_lru w').2.1) →
  P w.1 → P (LRU.evict_while fuel entry w).2.1.
Proof.
  intros Hstep. revert w. induction fuel as [|fuel IH]; intros w H; cbn.
  - by destruct (LRU.must_evict entry w.1).
  - destruct (LRU.must_evict entry w.1); [|done].
    pose proof (Hstep w H) as H'.
    destruct (LRU._evict_lru w) as [[[]|e|] w']; cbn in *; auto.
Qed.

Lemma put_size_ok k entry c d : size_ok c → size_ok (LRU.put k entry (c, d)).2.1.
Proof.
  intros H. unfold LRU.put.
  set (removed := match cache_data c !! k with Some _ => _ | None => _ end).
  assert (size_ok removed.2 ∧ cache_data removed.2 !! k = None) as Hrem.
  { subst removed. destruct (cache_data c !! k) as [old|] eqn:Hk; [|done].
    unfold size_ok in *. cbn.
    destruct (OD.del k (cache_order c)); cbn;
      rewrite (stored_bytes_delete _ k old), lookup_delete_eq by done;
      (split; [lia|done]). }
  destruct removed as [[[]|e|] c1]; cbn in *; try tauto.
  pose proof (evict_while_preserves
    (fun c => size_ok c ∧ cache_data c !! k = None)
    (length (cache_order c1)) entry (c1, d)) as Hloop.
  cbn in Hloop.
  destruct Hloop as [Hsz Habs]; [|done|].
  { intros w' [? ?]. split; [by apply evict_size_ok|by apply evict_absent]. }
  destruct (LRU.evict_while _ entry (c1, d)) as [[[]|e|] [c2 d2]]; cbn in *; try done.
  case_bool_decide; cbn; [done|].
  unfold size_ok in *. cbn.
  rewrite stored_bytes_insert by done. lia.
Qed.

Lemma remove_size_ok k c d : size_ok c → size_ok (LRU.remove k (c, d)).2.1.
Proof.
  unfold size_ok, LRU.remove. intros H.
  destruct (cache_data c !! k) as [e|] eqn:Hk; [|done]. cbn.
  destruct (OD.del k (cache_order c)); cbn;
    rewrite (stored_bytes_delete _ k e) by done; lia.
Qed.

Lemma clear_size_ok w : size_ok (LRU.clear w).2.1.
Proof. by destruct w. Qed.

End LRUFacts.

Lemma lru_step_size_ok w o : size_ok w.1 → size_ok (lru_step w o).1.
Proof.
  destruct w as [c d], o; cbn; intros H.
  - by apply put_size_ok.
  - by apply get_size_ok.
  - by apply remove_size_ok.
  - by apply (evict_size_ok (c, d)).
  - apply (clear_size_ok (c, d)).
Qed.

Lemma lru_run_size_ok ops : ∀ w, size_ok w.1 → size_ok (lru_run w ops).1.
Proof.
  induction ops as [|o ops IH]; intros w H; cbn; [done|].
  apply IH. by apply lru_step_size_ok.
Qed.

(** C4. Starting from a fresh [LRUCache(max_size)], after any finite sequence
    of [put], [get], [remove], [_evict_lru] and [clear] calls the counter
    [current_size_bytes] equals the sum of [file_size] over the entries
    stored in [cache_data]. *)
Theorem C4_current_size_is_sum_of_stored (max_size : Z) (d : Disk) (ops : list lru_op) :
  current_size_bytes (lru_run (LRU.init max_size, d) ops).1
  = LRU.stored_bytes (cache_data (lru_run (LRU.init max_size, d) ops).1).
Proof. apply (lru_run_size_ok ops (LRU.init max_size, d)). reflexivity. Qed.

(** Evaluation of a cache operation on keys known to differ. *)
Ltac lru_crunch :=
  repeat (cbn;
    first [ rewrite decide_True by done
          | rewrite decide_False by done
          | rewrite bool_decide_true by lia
          | rewrite bool_decide_false by lia
          | rewrite lookup_insert_eq
          | rewrite lookup_insert_ne by done
          | rewrite lookup_delete_eq
          | rewrite lookup_delete_ne by done
          | rewrite lookup_empty
          | progress unfold LRU.must_evict ]).

Ltac lru_fresh :=
  repeat (apply not_elem_of_cons; split; [done|]); apply not_elem_of_nil.

Section LRUOrder.

Implicit Types (c : LRUCache) (d : Disk) (w : World).

(** [put] of a new key that fits without eviction appends it. *)
Lemma put_fits k e c d :
  cache_data c !! k = None →
  k ∉ OD.keys (cache_order c) →
  current_size_bytes c + file_size e ≤ max_size_bytes c →
  file_size e ≤ max_size_bytes c →
  LRU.put k e (c, d)
  = (Ok true,
     (mkLRUCache (max_size_bytes c) (current_size_bytes c + file_size e)
        (cache_order c ++ [(k, last_accessed e)]) (<[k := e]> (cache_data c)) (stats c), d)).
Proof.
  intros Hk Hord Hfit Hone. unfold LRU.put. rewrite Hk.
  assert (LRU.evict_while (length (cache_order c)) e (c, d) = (Ok tt, (c, d))) as ->.
  { destruct (length (cache_order c)); cbn; unfold LRU.must_evict;
      rewrite bool_decide_false by lia; done. }
  rewrite bool_decide_false by lia. cbn. do 3 f_equal.
  unfold LRU.with_size, LRU.with_order, LRU.with_data. cbn. f_equal.
  clear -Hord. induction (cache_order c) as [|[k' v'] o IH]; [done|].
  cbn in *. rewrite not_elem_of_cons in Hord. destruct Hord as [? ?].
  rewrite decide_False by done. f_equal. by apply IH.
Qed.

(** [get] of a stored key moves it to the most recently used end. *)
Lemma get_moves_to_end now k e c d :
  cache_data c !! k = Some e →
  k ∈ OD.keys (cache_order c) →
  ∃ v o',
    OD.del k (cache_order c) = Some o'
    ∧ (LRU.get now k (c, d)).1 = Ok (Some (LRU.touch now e))
    ∧ cache_order (LRU.get now k (c, d)).2.1 = o' ++ [(k, v)].
Proof.
  intros Hk Hin. unfold LRU.get. cbn. rewrite Hk. cbn.
  assert (∃ v o', OD.find k (cache_order c) = Some v ∧ OD.del k (cache_order c) = Some o')
    as (v & o' & Hfind & Hdel).
  { clear -Hin. induction (cache_order c) as [|[k' v'] o IH]; cbn in *.
    - by apply elem_of_nil in Hin.
    - destruct (decide (k' = k)) as [->|Hne]; [by eauto|].
      apply elem_of_cons in Hin as [?|Hin]; [congruence|].
      destruct (IH Hin) as (v & o' & -> & ->). eauto. }
  exists v, o'. unfold OD.move_to_end. rewrite Hfind, Hdel. done.
Qed.

(** [_evict_lru] removes the key at the least recently used end. *)
Lemma evict_removes_first k v o e c d :
  cache_order c = (k, v) :: o →
  cache_data c !! k = Some e →
  (LRU._evict_lru (c, d)).1 = Ok tt
  ∧ cache_order (LRU._evict_lru (c, d)).2.1 = o
  ∧ cache_data (LRU._evict_lru (c, d)).2.1 = delete k (cache_data c)
  ∧ (LRU._evict_lru (c, d)).2.2 = remove_if_exists d (file_path e).
Proof.
  intros Ho Hk. unfold LRU._evict_lru. rewrite Ho. cbn. rewrite Hk. cbn.
  rewrite Ho. cbn. rewrite decide_True by done. done.
Qed.

End LRUOrder.

(** C5. Entries A, B, C are put in this order into a fresh cache and all
    fit; A is then read with [get]; a [put] of D that needs the room of
    exactly one entry evicts B, the least recently used, and keeps A and C.
    In general [get] moves the key it reads to the most recently used end of
    [cache_order] and [_evict_lru] removes the key at the other end. *)
Theorem C5_get_refreshes_and_eviction_takes_lru
    (max_size now : Z) (d : Disk) (kA kB kC kD : string) (eA eB eC eD : CacheEntry) :
  NoDup [kA; kB; kC; kD] →
  0 ≤ file_size eA → 0 ≤ file_size eB → 0 ≤ file_size eC → 0 ≤ file_size eD →
  file_size eA + file_size eB + file_size eC ≤ max_size →
  file_size eA + file_size eB + file_size eC + file_size eD > max_size →
  file_size eA + file_size eC + file_size eD ≤ max_size →
  let w := lru_run (LRU.init max_size, d)
             [OpPut kA eA; OpPut kB eB; OpPut kC eC; OpGet now kA] in
  let r := LRU.put kD eD w in
  (r.1 = Ok true
   ∧ cache_data r.2.1 !! kB = None
   ∧ cache_data r.2.1 !! kA = Some (LRU.touch now eA)
   ∧ cache_data r.2.1 !! kC = Some eC
   ∧ cache_data r.2.1 !! kD = Some eD
   ∧ OD.keys (cache_order r.2.1) = [kC; kA; kD]
   ∧ evictions (stats r.2.1) = 1)
  ∧ (∀ c d' t k e, cache_data c !! k = Some e → k ∈ OD.keys (cache_order c) →
       ∃ v o', OD.del k (cache_order c) = Some o'
               ∧ cache_order (LRU.get t k (c, d')).2.1 = o' ++ [(k, v)])
  ∧ (∀ c d' k v o e, cache_order c = (k, v) :: o → cache_data c !! k = Some e →
       cache_order (LRU._evict_lru (c, d')).2.1 = o
       ∧ cache_data (LRU._evict_lru (c, d')).2.1 = delete k (cache_data c)).
Proof.
  intros Hnd HA HB HC HD Hfit Hover Hone w r.
  split; [|split].
  - apply NoDup_cons in Hnd as [HnA Hnd]. apply NoDup_cons in Hnd as [HnB Hnd].
    apply NoDup_cons in Hnd as [HnC _].
    repeat match goal with
           | H : _ ∉ _ :: _ |- _ => apply not_elem_of_cons in H as [? ?]
           end.
    assert (kB ≠ kA ∧ kC ≠ kA ∧ kD ≠ kA ∧ kC ≠ kB ∧ kD ≠ kB ∧ kD ≠ kC)
      as (? & ? & ? & ? & ? & ?) by (repeat split; congruence).
    subst r w. unfold lru_run. cbn [foldl lru_step].
    rewrite put_fits; cbn [snd fst LRU.init max_size_bytes current_size_bytes
                           cache_order cache_data stats app OD.keys fmap list_fmap];
      [|done|apply not_elem_of_nil|lia|lia].
    rewrite put_fits; cbn [snd fst LRU.init max_size_bytes current_size_bytes
                           cache_order cache_data stats app OD.keys fmap list_fmap];
      [|by rewrite lookup_insert_ne|lru_fresh|lia|lia].
    rewrite put_fits; cbn [snd fst LRU.init max_size_bytes current_size_bytes
                           cache_order cache_data stats app OD.keys fmap list_fmap];
      [|by rewrite !lookup_insert_ne|lru_fresh|lia|lia].
    unfold LRU.get, LRU.put, OD.move_to_end, LRU.must_evict. lru_crunch.
    repeat split; lru_crunch; done.
  - intros c d' t k e Hk Hin.
    destruct (get_moves_to_end t k e c d' Hk Hin) as (v & o' & ? & _ & ?). eauto.
  - intros c d' k v o e Ho Hk.
    destruct (evict_removes_first k v o e c d' Ho Hk) as (_ & ? & ? & _). done.
Qed.

Lemma C5_witness :
  let w := lru_run (LRU.init 1000, ∅)
             [OpPut "A" (sample_entry "A" 300); OpPut "B" (sample_entry "B" 400);
              OpPut "C" (sample_entry "C" 300); OpGet 7 "A"] in
  let r := LRU.put "D" (sample_entry "D" 400) w in
  r.1 = Ok true
  ∧ cache_data r.2.1 !! "B" = None
  ∧ cache_data r.2.1 !! "A" = Some (LRU.touch 7 (sample_entry "A" 300))
  ∧ cache_data r.2.1 !! "C" = Some (sample_entry "C" 300)
  ∧ cache_data r.2.1 !! "D" = Some (sample_entry "D" 400)
  ∧ OD.keys (cache_order r.2.1) = ["C"; "A"; "D"]
  ∧ evictions (stats r.2.1) = 1.
Proof.
  refine (proj1 (C5_get_refreshes_and_eviction_takes_lru 1000 7 ∅ "A" "B" "C" "D"
    (sample_entry "A" 300) (sample_entry "B" 400) (sample_entry "C" 300)
    (sample_entry "D" 400) _ _ _ _ _ _ _ _)); cbn; try lia.
  apply (bool_decide_unpack _). vm_compute. exact I.
Defined.

(** C1. A cache with a budget of 100 bytes holds entry A of 10 bytes, whose
    file is on disk. A [put] of an entry B of 200 bytes returns [False] and
    does not store B, but on the way it has evicted A: A is gone from
    [cache_data], its file is gone from the disk and [current_size_bytes]
    went from 10 to 0. The rejected [put] does not leave the cache as it
    found it. *)
Theorem C1_put_oversized_evicts_before_rejecting :
  let a := sample_entry "A" 10 in
  let b := sample_entry "B" 200 in
  let w := lru_run (LRU.init 100, {[ file_path a := [] ]}) [OpPut "A" a] in
  let r := LRU.put "B" b w in
  (cache_data w.1 !! "A" = Some a
   ∧ current_size_bytes w.1 = 10
   ∧ w.2 !! file_path a = Some [])
  ∧ file_size b > max_size_bytes w.1
  ∧ r.1 = Ok false
  ∧ cache_data r.2.1 !! "B" = None
  ∧ cache_data r.2.1 !! "A" = None
  ∧ current_size_bytes r.2.1 = 0
  ∧ evictions (stats r.2.1) = 1
  ∧ r.2.2 !! file_path a = None.
Proof. vm_compute. repeat split; congruence. Qed.

(** ** The methods of [LRUCache] return

    [cache_order] and [cache_data] hold the same keys in every cache built by
    the methods, so no [KeyError] is raised, and the loop of [put] ends within
    the fuel it is given. *)

Section LRUTotal.

Implicit Types (c : LRUCache) (d : Disk) (w : World).

Lemma od_del_Some {V} k (o : OD.t V) : k ∈ OD.keys o → is_Some (OD.del k o).
Proof.
  induction o as [|[k' v] o IH]; cbn; intros Hin.
  - by apply elem_of_nil in Hin.
  - destruct (decide (k' = k)); [by eauto|].
    apply elem_of_cons in Hin as [?|Hin]; [congruence|].
    destruct (IH Hin) as [o' ->]. by eauto.
Qed.

Lemma od_del_keys {V} k (o o' : OD.t V) :
  NoDup (OD.keys o) → OD.del k o = Some o' →
  NoDup (OD.keys o') ∧ ∀ j, j ∈ OD.keys o' ↔ j ∈ OD.keys o ∧ j ≠ k.
Proof.
  revert o'. induction o as [|[k' v] o IH]; cbn; intros o' Hnd Hdel; [done|].
  apply NoDup_cons in Hnd as [Hk' Hnd].
  destruct (decide (k' = k)) as [->|Hne].
  - simplify_eq. split; [done|]. intros j. rewrite elem_of_cons.
    split; [|naive_solver]. intros Hj. split; [by right|]. by intros ->.
  - destruct (OD.del k o) as [r|] eqn:Hr; [|done]. simplify_eq.
    destruct (IH r Hnd eq_refl) as [Hnd' Hiff]. cbn. split.
    + apply NoDup_cons. split; [|done]. rewrite Hiff. tauto.
    + intros j. rewrite !elem_of_cons, Hiff. naive_solver.
Qed.

Lemma od_set_fresh {V} k (v : V) (o : OD.t V) :
  k ∉ OD.keys o → OD.set k v o = o ++ [(k, v)].
Proof.
  induction o as [|[k' v'] o IH]; [done|]. cbn. intros Hk.
  apply not_elem_of_cons in Hk as [? ?].
  rewrite decide_False by done. f_equal. by apply IH.
Qed.

Lemma od_keys_app {V} (o1 o2 : OD.t V) : OD.keys (o1 ++ o2) = OD.keys o1 ++ OD.keys o2.
Proof. unfold OD.keys. apply fmap_app. Qed.

Lemma init_in_sync max : in_sync (LRU.init max).
Proof.
  split; [apply NoDup_nil_2|]. intros k. cbn. rewrite lookup_empty.
  split; [by intros ?%elem_of_nil|by intros [? ?]].
Qed.

(** Dropping a stored key from both structures. *)
Lemma drop_in_sync k c o :
  in_sync c → OD.del k (cache_order c) = Some o →
  in_sync (LRU.with_order o (LRU.with_data (delete k (cache_data c)) c)).
Proof.
  intros [Hnd Hiff] Hdel. destruct (od_del_keys _ _ _ Hnd Hdel) as [Hnd' Hiff'].
  split; cbn; [done|]. intros j. rewrite Hiff', Hiff, lookup_delete.
  case_decide; subst; [|naive_solver].
  split; [naive_solver|]. by intros [? ?].
Qed.

Lemma get_in_sync now k c d :
  in_sync c →
  in_sync (LRU.get now k (c, d)).2.1 ∧ ∀ e, (LRU.get now k (c, d)).1 ≠ Raise e.
Proof.
  intros [Hnd Hiff]. unfold LRU.get. cbn.
  destruct (cache_data c !! k) as [e|] eqn:Hk; cbn; [|by split].
  assert (k ∈ OD.keys (cache_order c)) as Hin by (apply Hiff; eauto).
  destruct (get_moves_to_end now k e c d Hk Hin) as (v & o' & Hdel & _ & Hord).
  unfold LRU.get in Hord. cbn in Hord. rewrite Hk in Hord. cbn in Hord.
  destruct (OD.move_to_end k (cache_order c)) as [o|] eqn:Hmv; cbn in *.
  - subst o. split; [|done].
    destruct (od_del_keys _ _ _ Hnd Hdel) as [Hnd' Hiff'].
    split; cbn -[OD.keys].
    + rewrite od_keys_app. apply NoDup_app. split; [done|]. split.
      * intros j Hj ?%list_elem_of_singleton. subst. apply Hiff' in Hj. tauto.
      * apply NoDup_singleton.
    + intros j. rewrite od_keys_app, elem_of_app, Hiff', Hiff, lookup_insert.
      cbn. rewrite list_elem_of_singleton. case_decide; subst; [naive_solver|].
      naive_solver.
  - unfold OD.move_to_end in Hmv. rewrite Hdel in Hmv.
    destruct (OD.find k (cache_order c)) eqn:Hf; [done|].
    exfalso. clear -Hin Hf. induction (cache_order c) as [|[k' v'] o IH]; cbn in *.
    + by apply elem_of_nil in Hin.
    + destruct (decide (k' = k)); [done|].
      apply elem_of_cons in Hin as [?|?]; [congruence|auto].
Qed.

Lemma evict_in_sync w :
  in_sync w.1 → in_sync (LRU._evict_lru w).2.1 ∧ (LRU._evict_lru w).1 = Ok tt.
Proof.
  destruct w as [c d]. cbn. intros Hs. unfold LRU._evict_lru.
  destruct (OD.first_key (cache_order c)) as [k|] eqn:Hf; [|done].
  destruct (del_first_key _ _ Hf) as (v & o' & Ho & Hdel).
  assert (is_Some (cache_data c !! k)) as [e He].
  { apply Hs. rewrite Ho. cbn. apply elem_of_cons. by left. }
  rewrite He. cbn. rewrite Hdel. cbn. split; [|done].
  apply (drop_in_sync k c o' Hs Hdel).
Qed.

Lemma evict_length w :
  length (cache_order (LRU._evict_lru w).2.1) = Nat.pred (length (cache_order w.1))
  ∨ (LRU._evict_lru w).1 = Raise KeyError.
Proof.
  destruct w as [c d]. cbn. unfold LRU._evict_lru.
  destruct (OD.first_key (cache_order c)) as [k|] eqn:Hf.
  - destruct (del_first_key _ _ Hf) as (v & o' & Ho & Hdel).
    destruct (cache_data c !! k); [|by right]. cbn. rewrite Hdel. cbn.
    left. by rewrite Ho.
  - left. revert Hf. cbn. by destruct (cache_order c) as [|[? ?] ?].
Qed.

(** The fuel [put] hands to its loop is enough, in every state. *)
Lemma evict_while_fuel fuel entry w :
  (length (cache_order w.1) ≤ fuel)%nat →
  (LRU.evict_while fuel entry w).1 ≠ OutOfFuel.
Proof.
  revert w. induction fuel as [|fuel IH]; intros w Hlen; cbn.
  - unfold LRU.must_evict. destruct (cache_order w.1); [|cbn in Hlen; lia].
    cbn. by rewrite andb_false_r.
  - destruct (LRU.must_evict entry w.1); [|done].
    destruct (evict_length w) as [Hl|Hr].
    + destruct (LRU._evict_lru w) as [[[]|e|] w'] eqn:Hev; cbn in *; [|done|].
      * apply IH. lia.
      * exfalso. destruct w as [c d]. unfold LRU._evict_lru in Hev.
        repeat case_match; simplify_eq.
    + destruct (LRU._evict_lru w) as [[[]|e|] w']; cbn in *; done.
Qed.

(** [put] comes back from its loop, in every state. *)
Lemma put_ends k entry w : (LRU.put k entry w).1 ≠ OutOfFuel.
Proof.
  destruct w as [c d]. unfold LRU.put.
  destruct (match cache_data c !! k with Some _ => _ | None => _ end)
    as [[[]|e|] c1] eqn:Hrem; cbn; try done.
  - pose proof (evict_while_fuel (length (cache_order c1)) entry (c1, d) (le_n _)) as Hf.
    destruct (LRU.evict_while _ entry (c1, d)) as [[[]|e|] [c2 d2]]; cbn in *; try done.
    by case_bool_decide.
  - exfalso. repeat case_match; simplify_eq.
Qed.

Lemma evict_while_in_sync fuel entry w :
  (length (cache_order w.1) ≤ fuel)%nat → in_sync w.1 →
  in_sync (LRU.evict_while fuel entry w).2.1
  ∧ (LRU.evict_while fuel entry w).1 = Ok tt.
Proof.
  revert w. induction fuel as [|fuel IH]; intros w Hlen Hs.
  - pose proof (evict_while_fuel 0 entry w Hlen) as Hf. cbn in *.
    by destruct (LRU.must_evict entry w.1).
  - cbn. destruct (LRU.must_evict entry w.1); [|done].
    destruct (evict_in_sync w Hs) as [Hs' Hok].
    destruct (evict_length w) as [Hl|Hr]; [|congruence].
    destruct (LRU._evict_lru w) as [[[]|e|] w']; cbn in *; try done.
    apply IH; [lia|done].
Qed.

Lemma put_in_sync k entry c d :
  in_sync c →
  in_sync (LRU.put k entry (c, d)).2.1
  ∧ ((LRU.put k entry (c, d)).1 = Ok true ∨ (LRU.put k entry (c, d)).1 = Ok false).
Proof.
  intros Hs. unfold LRU.put.
  set (removed := match cache_data c !! k with Some _ => _ | None => _ end).
  assert (removed.1 = Ok tt ∧ in_sync removed.2 ∧ cache_data removed.2 !! k = None)
    as (Hok & Hs1 & Hk1).
  { subst removed. destruct (cache_data c !! k) as [old|] eqn:Hk; [|done]. cbn.
    destruct (od_del_Some k (cache_order c)) as [o Ho]; [apply Hs; eauto|].
    rewrite Ho. cbn. split; [done|]. split; [|apply lookup_delete_eq].
    apply (drop_in_sync k (LRU.with_size _ c) o Hs Ho). }
  destruct removed as [r c1]. cbn in *. subst r.
  destruct (evict_while_in_sync (length (cache_order c1)) entry (c1, d)) as [Hs2 Hok2];
    [done..|].
  pose proof (evict_while_preserves (fun c => cache_data c !! k = None)
    (length (cache_order c1)) entry (c1, d) (evict_absent k) Hk1) as Hk2.
  destruct (LRU.evict_while _ entry (c1, d)) as [r [c2 d2]]. cbn in *. subst r.
  case_bool_decide; cbn; [by auto|]. split; [|by auto].
  destruct Hs2 as [Hnd Hiff].
  assert (k ∉ OD.keys (cache_order c2)) as Hfresh.
  { rewrite Hiff, Hk2. by intros [? ?]. }
  split; cbn -[OD.keys].
  - rewrite od_set_fresh, od_keys_app by done. apply NoDup_app.
    split; [done|]. split; [|apply NoDup_singleton].
    intros j Hj ?%list_elem_of_singleton. by subst.
  - intros j. rewrite od_set_fresh, od_keys_app, elem_of_app, Hiff, lookup_insert by done.
    cbn. rewrite list_elem_of_singleton. case_decide; subst; naive_solver.
Qed.

Lemma remove_in_sync k c d :
  in_sync c →
  in_sync (LRU.remove k (c, d)).2.1 ∧ ∀ e, (LRU.remove k (c, d)).1 ≠ Raise e.
Proof.
  intros Hs. unfold LRU.remove.
  destruct (cache_data c !! k) as [e|] eqn:Hk; [|done]. cbn.
  destruct (od_del_Some k (cache_order c)) as [o Ho]; [apply Hs; eauto|].
  rewrite Ho. cbn. split; [|done].
  apply (drop_in_sync k (LRU.with_size _ c) o Hs Ho).
Qed.

Lemma lru_step_in_sync w o : in_sync w.1 → in_sync (lru_step w o).1.
Proof.
  destruct w as [c d], o; cbn; intros H.
  - by apply put_in_sync.
  - by apply get_in_sync.
  - by apply remove_in_sync.
  - by apply (evict_in_sync (c, d)).
  - apply (init_in_sync (max_size_bytes c)).
Qed.

(** From a fresh cache, no sequence of calls brings the two structures apart. *)
Lemma lru_run_in_sync max d ops : in_sync (lru_run (LRU.init max, d) ops).1.
Proof.
  assert (∀ w, in_sync w.1 → in_sync (lru_run w ops).1) as Hrun.
  { induction ops as [|o ops IH]; intros w H; cbn; [done|].
    apply IH. by apply lru_step_in_sync. }
  apply Hrun. apply init_in_sync.
Qed.

End LRUTotal.

(** ** Properties of [ImageCache] *)

Section ImageCacheFacts.

Import ImageCache.

Implicit Types (env : ImageEnv) (st : ImageCacheState) (body : list chunk).

(** A body that is read to its end is whole and within the download limit. *)
Lemma read_chunks_Ok body : ∀ content result,
  Z.of_nat (length content) ≤ max_download_size →
  read_chunks content body = Ok result →
  (Broken ∉ body)
  ∧ length result = (length content + payload_length body)%nat
  ∧ Z.of_nat (length result) ≤ max_download_size.
Proof.
  induction body as [|[b|] body IH]; intros content result Hlen Hrd; cbn in Hrd.
  - simplify_eq. split; [apply not_elem_of_nil|]. cbn. split; [lia|done].
  - case_bool_decide as Hsz; [done|].
    destruct (IH (content ++ b) result ltac:(lia) Hrd) as (Hnb & Hl & Hmax).
    split; [|split; [|done]].
    + apply not_elem_of_cons. by split.
    + rewrite Hl, length_app. cbn. lia.
  - done.
Qed.


(** A cache lookup that is not a hit leaves the request to the download. *)
Lemma get_image_miss env now url size_type st :
  url ≠ "" →
  in_sync (lru_cache st) →
  ¬ served_from_cache env url size_type st →
  ∃ c, in_sync c
       ∧ max_size_bytes c = max_size_bytes (lru_cache st)
       ∧ (∀ k, is_Some (cache_data c !! k) ↔ is_Some (cache_data (lru_cache st) !! k))
       ∧ (∀ k e, cache_data c !! k = Some e →
            ∃ e', cache_data (lru_cache st) !! k = Some e' ∧ file_path e = file_path e'
                  ∧ file_size e = file_size e')
       ∧ (size_ok (lru_cache st) → size_ok c)
       ∧ get_image env now url size_type st
         = (let r :=
              _process_and_cache_image env now url size_type (with_world (c, files st) st) in
            (path_of_entry r.1, r.2)).
Proof.
  intros Hurl Hs Hns. unfold get_image. rewrite decide_False by done.
  set (key := _generate_cache_key env url size_type) in *.
  destruct (get_in_sync now key (lru_cache st) (files st) Hs) as [Hs' Hnr].
  pose proof (get_size_ok now key (lru_cache st) (files st)) as Hsz.
  unfold world. unfold LRU.get in *. cbn in *.
  destruct (cache_data (lru_cache st) !! key) as [e|] eqn:Hk; cbn in *.
  - destruct (OD.move_to_end key (cache_order (lru_cache st))) as [o|] eqn:Hmv;
      cbn in *; [|by destruct (Hnr KeyError)].
    assert (path_exists (files st) (file_path e) = false) as ->.
    { unfold path_exists. apply bool_decide_eq_false. intros Hex.
      apply Hns. exists e. split; [exact Hk|exact Hex]. }
    eexists. split; [exact Hs'|]. split; [done|]. split; [|split; [|split; [done|done]]].
    + intros k. cbn. rewrite lookup_insert. case_decide; subst; [|done].
      rewrite Hk. split; eauto.
    + intros k e0. cbn. rewrite lookup_insert. case_decide; subst.
      * intros [= <-]. exists e. done.
      * intros ->. eauto.
  - eexists. split; [exact Hs'|]. split; [done|]. split; [done|]. split; [|done].
    intros k e0 Hk0. cbn in Hk0. eauto.
Qed.

End ImageCacheFacts.

Lemma remove_if_exists_lookup (d : Disk) p : remove_if_exists d p !! p = None.
Proof.
  unfold remove_if_exists, path_exists. case_bool_decide as Hex.
  - apply lookup_delete_eq.
  - destruct (d !! p) eqn:Hp; [|done]. exfalso. apply Hex. eauto.
Qed.

Lemma remove_if_exists_subseteq (d : Disk) p : remove_if_exists d p ⊆ d.
Proof.
  unfold remove_if_exists. destruct (path_exists d p); [apply delete_subseteq|done].
Qed.

Lemma remove_if_exists_other (d : Disk) p q : p ≠ q → remove_if_exists d p !! q = d !! q.
Proof.
  intros Hne. unfold remove_if_exists. destruct (path_exists d p); [|done].
  by apply lookup_delete_ne.
Qed.

Section ImageCacheClaims.

Import ImageCache.

Implicit Types (env : ImageEnv) (st : ImageCacheState).


End ImageCacheClaims.


(** With a [size_type] of 300 characters the failure handler of a 404
    raises: the [OSError] of [file_path.exists()] leaves [get_image]. With
    ['detail'] the same request returns [None]. *)
Lemma failed_download_with_long_size_type :
  (ImageCache.get_image env_404_posix 0 "http://img/a" (repeat_char 300 "x")
     fresh_image_cache).1 = Raise OSError
  ∧ (ImageCache.get_image env_404_posix 0 "http://img/a" "detail" fresh_image_cache).1
    = Ok None.
Proof. by vm_compute. Qed.


Section PutOutcome.

Implicit Types (c : LRUCache) (d : Disk) (w : World).

Lemma evict_max_size w : max_size_bytes (LRU._evict_lru w).2.1 = max_size_bytes w.1.
Proof.
  destruct w as [c d]. unfold LRU._evict_lru. cbn.
  repeat case_match; done.
Qed.

(** An eviction leaves a file alone that no stored entry points to. *)
Lemma evict_keeps_file p x w :
  (w.2 !! p = Some x ∧ ∀ k e, cache_data w.1 !! k = Some e → file_path e ≠ p) →
  (LRU._evict_lru w).2.2 !! p = Some x
  ∧ ∀ k e, cache_data (LRU._evict_lru w).2.1 !! k = Some e → file_path e ≠ p.
Proof.
  destruct w as [c d]. cbn. intros [Hp Hno]. unfold LRU._evict_lru.
  destruct (OD.first_key (cache_order c)) as [k|] eqn:Hf; [|done].
  destruct (cache_data c !! k) as [e|] eqn:Hk; [|done]. cbn.
  destruct (del_first_key _ _ Hf) as (v & o' & _ & ->). cbn. split.
  - rewrite remove_if_exists_other; [done|]. by eapply Hno.
  - intros k' e'. rewrite lookup_delete. case_decide; [done|]. apply Hno.
Qed.

(** [put] into a cache whose structures agree answers whether the entry is
    within the budget; a file no other entry points to survives it. *)
Lemma put_outcome k entry c d :
  in_sync c →
  (LRU.put k entry (c, d)).1 = Ok (negb (bool_decide (file_size entry > max_size_bytes c))).
Proof.
  intros Hs. pose proof (put_in_sync k entry c d Hs) as [_ Hres].
  unfold LRU.put in *.
  set (removed := match cache_data c !! k with Some _ => _ | None => _ end) in *.
  assert (max_size_bytes removed.2 = max_size_bytes c) as Hmax.
  { subst removed. destruct (cache_data c !! k); [cbn; destruct (OD.del _ _)|]; reflexivity. }
  destruct removed as [[[]|e|] c1]; cbn in *; [|by destruct Hres..].
  pose proof (evict_while_preserves (fun c' => max_size_bytes c' = max_size_bytes c)
    (length (cache_order c1)) entry (c1, d)) as Hloop. cbn in Hloop.
  destruct (LRU.evict_while _ entry (c1, d)) as [[[]|e|] [c2 d2]]; cbn in *;
    [|by destruct Hres..].
  rewrite Hloop; [|intros w' Hw'; by rewrite evict_max_size|done].
  clear Hres. by destruct (bool_decide (file_size entry > max_size_bytes c)).
Qed.

Lemma put_keeps_file p x k entry c d :
  d !! p = Some x →
  (∀ k' e, k' ≠ k → cache_data c !! k' = Some e → file_path e ≠ p) →
  (LRU.put k entry (c, d)).2.2 !! p = Some x.
Proof.
  intros Hp Hno. unfold LRU.put.
  set (removed := match cache_data c !! k with Some _ => _ | None => _ end).
  assert (∀ k' e, cache_data removed.2 !! k' = Some e → file_path e ≠ p) as Hno1.
  { subst removed. intros k' e.
    destruct (cache_data c !! k) as [old|] eqn:Hk; cbn.
    - destruct (OD.del k (cache_order c)); cbn; rewrite lookup_delete;
        (case_decide; [done|by apply Hno]).
    - intros Hk'. apply (Hno k'); [|done]. intros ->. congruence. }
  destruct removed as [[[]|e|] c1]; cbn in *; try done.
  assert (∀ fuel w,
    (w.2 !! p = Some x ∧ ∀ k e, cache_data w.1 !! k = Some e → file_path e ≠ p) →
    (LRU.evict_while fuel entry w).2.2 !! p = Some x) as Hloop.
  { induction fuel as [|fuel IH]; intros w Hw; cbn.
    - destruct (LRU.must_evict entry w.1); by destruct Hw.
    - destruct (LRU.must_evict entry w.1); [|by destruct Hw].
      pose proof (evict_keeps_file p x w Hw) as Hw'.
      destruct (LRU._evict_lru w) as [[[]|e|] w']; cbn in *; [by apply IH|by destruct Hw'..]. }
  specialize (Hloop (length (cache_order c1)) (c1, d) (conj Hp Hno1)).
  destruct (LRU.evict_while _ entry (c1, d)) as [[[]|e|] [c2 d2]]; cbn in *; try done.
  by case_bool_decide.
Qed.

End PutOutcome.

(** ** [pathlib] on plain names *)

Section PathlibFacts.

Import Pathlib.

Lemma append_cons a (s t : string) : String a s +:+ t = String a (s +:+ t).
Proof. reflexivity. Qed.

Lemma append_nil (t : string) : "" +:+ t = t.
Proof. reflexivity. Qed.

Lemma string_append_assoc (a b c : string) : (a +:+ b) +:+ c = a +:+ (b +:+ c).
Proof. induction a as [|x a IH]; [done|]. rewrite !append_cons. by rewrite IH. Qed.

Lemma split_no_slash c : has_slash c = false → split c = [c].
Proof.
  induction c as [|a c IH]; [done|]. cbn [has_slash split]. intros H.
  apply orb_false_iff in H as [Ha Hc]. apply bool_decide_eq_false in Ha.
  rewrite decide_False by done. by rewrite (IH Hc).
Qed.

Lemma leading_slashes_no_slash c : has_slash c = false → leading_slashes c = O.
Proof.
  destruct c as [|a c]; [done|]. cbn [has_slash leading_slashes]. intros H.
  apply orb_false_iff in H as [Ha _]. apply bool_decide_eq_false in Ha.
  by rewrite decide_False.
Qed.

Lemma parse_plain c : plain_component c → parse c = mk "" [c].
Proof.
  intros (Hs & Hne & Hdot & _). unfold parse, root_of, components.
  rewrite (leading_slashes_no_slash c Hs), (split_no_slash c Hs).
  rewrite filter_cons_True by done. done.
Qed.

(** A plain name is appended as the last component. *)
Lemma truediv_plain p c : plain_component c → truediv p c = mk (root p) (parts p ++ [c]).
Proof. intros H. unfold truediv. rewrite (parse_plain c H). done. Qed.

Lemma join_snoc ps c : ps ≠ [] → join (ps ++ [c]) = join ps +:+ "/" +:+ c.
Proof.
  induction ps as [|x ps IH]; [done|]. intros _.
  destruct ps as [|y ps].
  - done.
  - change (join ((x :: y :: ps) ++ [c])) with (x +:+ "/" +:+ join ((y :: ps) ++ [c])).
    rewrite IH by done.
    change (join (x :: y :: ps)) with (x +:+ "/" +:+ join (y :: ps)).
    by rewrite !string_append_assoc.
Qed.

(** Below a directory that has a name, the path of a component is the path
    of the directory, a slash and the component. *)
Lemma str_snoc r ps c : ps ≠ [] → str (mk r (ps ++ [c])) = str (mk r ps) +:+ "/" +:+ c.
Proof.
  intros Hps. unfold str. cbn [root parts].
  rewrite (join_snoc ps c Hps).
  destruct (decide (r = "")) as [->|Hr].
  - rewrite !decide_False; [done|done|]. by destruct ps.
  - by rewrite string_append_assoc.
Qed.

Lemma webp_name_plain key : has_slash key = false → plain_component (key +:+ ".webp").
Proof.
  intros Hk. split; [|split; [|split]].
  - induction key as [|a key IH]; [done|]. rewrite append_cons. cbn [has_slash] in *.
    apply orb_false_iff in Hk as [-> Hk]. by apply IH.
  - by destruct key.
  - destruct key as [|a [|b key]]; done.
  - destruct key as [|a [|b [|c key]]]; done.
Qed.

End PathlibFacts.

Section ImageCacheSizes.

Import ImageCache.

Implicit Types (env : ImageEnv) (st : ImageCacheState).

Lemma target_size_thumbnails size_type :
  target_size size_type = (150, 150) ↔ size_type = "thumbnails".
Proof.
  unfold target_size. case_decide as Hs; [done|].
  split; [discriminate|done].
Qed.

(** With a [size_type] that is a plain name and a key without slash, the
    cache file lies in the directory [cache_dir / size_type]. *)
Lemma cache_file_path_plain st key size_type :
  plain_component size_type →
  has_slash key = false →
  _get_cache_file_path st key size_type
  = path_join (cache_dir st) size_type +:+ "/" +:+ key +:+ ".webp".
Proof.
  intros Hty Hkey. unfold _get_cache_file_path, path_join.
  rewrite (truediv_plain _ size_type Hty).
  rewrite (truediv_plain _ _ (webp_name_plain key Hkey)).
  cbn [Pathlib.root Pathlib.parts].
  apply str_snoc. by destruct (Pathlib.parts _).
Qed.

(** A download that is processed, fits the budget and can be written is
    stored at the cache path, which [get_image] returns. *)
Lemma get_image_stores env now url size_type st image_data processed_data dims :
  url ≠ "" →
  in_sync (lru_cache st) →
  ¬ served_from_cache env url size_type st →
  _download_image env url = Ok image_data →
  process_image env image_data (target_size size_type) = Some processed_data →
  image_size env processed_data = Some dims →
  Z.of_nat (length processed_data) ≤ max_size_bytes (lru_cache st) →
  let p := _get_cache_file_path st (_generate_cache_key env url size_type) size_type in
  (∀ k e, k ≠ _generate_cache_key env url size_type →
     cache_data (lru_cache st) !! k = Some e → file_path e ≠ p) →
  create_raises env p = false →
  stat_raises env p = false →
  (get_image env now url size_type st).1 = Ok (Some p)
  ∧ files (get_image env now url size_type st).2 !! p = Some processed_data.
Proof.
  intros Hurl Hs Hns Hdl Hproc Hdim Hfit p Hno Hcr Hstat.
  destruct (get_image_miss env now url size_type st Hurl Hs Hns)
    as (c & Hsc & Hmax & _ & Hpaths & _ & ->).
  unfold _process_and_cache_image. rewrite Hdl, Hproc, Hdim.
  destruct dims as [width height].
  set (key := _generate_cache_key env url size_type) in *.
  change (_get_cache_file_path (with_world (c, files st) st) key size_type) with p.
  rewrite Hcr, Hstat. cbn -[LRU.put].
  set (entry := mkCacheEntry p url size_type _ now now 1 width height "WEBP").
  set (d := <[p := processed_data]> (files st)).
  pose proof (put_outcome key entry c d Hsc) as Hout.
  rewrite bool_decide_false in Hout by (cbn; lia). cbn [negb] in Hout.
  pose proof (put_keeps_file p processed_data key entry c d) as Hfile.
  change (world (with_files d (with_world (c, files st) st))) with (c, d).
  destruct (LRU.put key entry (c, d)) as [r [c' d']]. cbn in Hout. subst r.
  cbn. split; [done|]. apply Hfile.
  - apply lookup_insert_eq.
  - intros k' e Hne Hk'. destruct (Hpaths k' e Hk') as (e' & He' & -> & _).
    by apply (Hno k' e').
Qed.

(** C10, as the code has it. Only the exact string ['thumbnails'] selects
    the 150x150 target; with any other [size_type], the singular
    ['thumbnail'] included, a request that goes to the download has its
    image processed at 600x600. When [size_type] is a plain name (no slash,
    not empty, not a dot or two) and the file system accepts the path, the
    processed bytes are written to the file [cache_key + ".webp"] in the
    directory [cache_dir / size_type], whose last component is [size_type],
    and [get_image] returns that path. *)
Theorem C10_only_thumbnails_selects_150
    env now url size_type st image_data processed_data dims :
  size_type ≠ "thumbnails" →
  url ≠ "" →
  in_sync (lru_cache st) →
  ¬ served_from_cache env url size_type st →
  _download_image env url = Ok image_data →
  process_image env image_data (600, 600) = Some processed_data →
  image_size env processed_data = Some dims →
  Z.of_nat (length processed_data) ≤ max_size_bytes (lru_cache st) →
  plain_component size_type →
  has_slash (_generate_cache_key env url size_type) = false →
  let dir := Pathlib.truediv (Pathlib.parse (cache_dir st)) size_type in
  let p := Pathlib.str dir +:+ "/" +:+ _generate_cache_key env url size_type +:+ ".webp" in
  (∀ k e, k ≠ _generate_cache_key env url size_type →
     cache_data (lru_cache st) !! k = Some e → file_path e ≠ p) →
  create_raises env p = false →
  stat_raises env p = false →
  (∀ s, target_size s = (150, 150) ↔ s = "thumbnails")
  ∧ target_size size_type = (600, 600)
  ∧ Pathlib.parts dir = Pathlib.parts (Pathlib.parse (cache_dir st)) ++ [size_type]
  ∧ Pathlib.root dir = Pathlib.root (Pathlib.parse (cache_dir st))
  ∧ (get_image env now url size_type st).1 = Ok (Some p)
  ∧ files (get_image env now url size_type st).2 !! p = Some processed_data.
Proof.
  intros Hty Hurl Hs Hns Hdl Hproc Hdim Hfit Hplain Hkey dir p Hno Hcr Hstat.
  split; [apply target_size_thumbnails|].
  assert (target_size size_type = (600, 600)) as Hts.
  { unfold target_size. by rewrite decide_False. }
  split; [done|].
  assert (dir = Pathlib.mk (Pathlib.root (Pathlib.parse (cache_dir st)))
                  (Pathlib.parts (Pathlib.parse (cache_dir st)) ++ [size_type])) as Hdir.
  { apply truediv_plain, Hplain. }
  split; [by rewrite Hdir|]. split; [by rewrite Hdir|].
  assert (_get_cache_file_path st (_generate_cache_key env url size_type) size_type = p) as Hp.
  { by rewrite (cache_file_path_plain st _ size_type Hplain Hkey). }
  rewrite <- Hp in *.
  apply (get_image_stores env now url size_type st image_data processed_data dims);
    try done.
  by rewrite Hts.
Qed.

End ImageCacheSizes.

Lemma C10_witness :
  let r := ImageCache.get_image env_200 0 "http://img/a" "thumbnail" fresh_image_cache in
  let p := "/cache/thumbnail/687474703a2f2f696d672f613a7468756d626e61696c.webp" in
  (∀ s, ImageCache.target_size s = (150, 150) ↔ s = "thumbnails")
  ∧ ImageCache.target_size "thumbnail" = (600, 600)
  ∧ Pathlib.parts (Pathlib.truediv (Pathlib.parse "/cache") "thumbnail") = ["cache"; "thumbnail"]
  ∧ Pathlib.root (Pathlib.truediv (Pathlib.parse "/cache") "thumbnail") = "/"
  ∧ r.1 = Ok (Some p)
  ∧ files r.2 !! p = Some [Byte.x06; Byte.x89; Byte.x50].
Proof.
  apply (C10_only_thumbnails_selects_150 env_200 0 "http://img/a" "thumbnail"
           fresh_image_cache [Byte.x89; Byte.x50] [Byte.x06; Byte.x89; Byte.x50] (600, 600)).
  - discriminate.
  - discriminate.
  - apply init_in_sync.
  - intros (entry & Hk & _). cbn in Hk. by rewrite lookup_empty in Hk.
  - reflexivity.
  - reflexivity.
  - reflexivity.
  - cbn. lia.
  - by split; [|split; [|split]].
  - reflexivity.
  - intros k e _ Hk. cbn in Hk. by rewrite lookup_empty in Hk.
  - reflexivity.
  - reflexivity.
Defined.

(** C10, as stated, fails for a [size_type] that is not a plain name: with
    the empty string the file is written into the cache directory itself,
    and with an absolute path such as ['/etc'] outside the cache directory. *)
Lemma C10_counterexample :
  let r := ImageCache.get_image env_200 0 "http://img/a" "" fresh_image_cache in
  let r' := ImageCache.get_image env_200 0 "http://img/a" "/etc" fresh_image_cache in
  cache_dir fresh_image_cache = "/cache"
  ∧ r.1 = Ok (Some "/cache/687474703a2f2f696d672f613a.webp")
  ∧ files r.2 !! "/cache/687474703a2f2f696d672f613a.webp" = Some [Byte.x06; Byte.x89; Byte.x50]
  ∧ r'.1 = Ok (Some "/etc/687474703a2f2f696d672f613a2f657463.webp")
  ∧ files r'.2 !! "/etc/687474703a2f2f696d672f613a2f657463.webp"
    = Some [Byte.x06; Byte.x89; Byte.x50].
Proof. by vm_compute. Qed.

(** ** Properties of [WeightCalculator] *)

Section WeightFacts.

Import WeightCalculator.
Local Open Scope Q_scope.

Lemma py_max_floor (a b : Q) : a <= py_max a b.
Proof.
  unfold py_max. destruct (Qle_bool b a) eqn:Hle.
  - apply Qle_refl.
  - apply Qlt_le_weak, Qnot_le_lt. intros H. apply Qle_bool_iff in H. congruence.
Qed.

(** C8, as the code has it. An unrated album (no rating, or a rating of 0
    or less) has the rating factor 0.5 and a rating [r] from 1 to 5 gives
    [(r/5)^2 * rating_weight + 0.1], whatever the configuration. In exact
    arithmetic a positive [rating_weight] puts the factor of a rating of 5
    strictly above the factor of a rating of 1; in binary64, in which Python
    computes, it does so for the [rating_weight] 2.0 of the default
    configuration. *)
Theorem C8_rating_weight (cfg : AlgorithmConfig) :
  calculate_rating_weight cfg None = 1 # 2
  ∧ (∀ z, (z ≤ 0)%Z → calculate_rating_weight cfg (Some z) = 1 # 2)
  ∧ (∀ r, (1 ≤ r ≤ 5)%Z →
       calculate_rating_weight cfg (Some r)
       = (inject_Z r / 5) ^ 2 * rating_weight cfg + (1 # 10))
  ∧ (0 < rating_weight cfg →
       calculate_rating_weight cfg (Some 1%Z) < calculate_rating_weight cfg (Some 5%Z))
  ∧ calculate_rating_weight_binary64 2 None = 0.5%float
  ∧ calculate_rating_weight_binary64 2 (Some 1%Z) = 0.18000000000000002%float
  ∧ calculate_rating_weight_binary64 2 (Some 5%Z) = 2.1%float
  ∧ PrimFloat.ltb (calculate_rating_weight_binary64 2 (Some 1%Z))
      (calculate_rating_weight_binary64 2 (Some 5%Z)) = true.
Proof.
  split; [done|]. split; [|split; [|split]].
  - intros z Hz. unfold calculate_rating_weight. by rewrite decide_True.
  - intros r Hr. unfold calculate_rating_weight. rewrite decide_False by lia. done.
  - intros Hw. unfold calculate_rating_weight. cbn -[Qpower Qdiv Qmult Qplus].
    apply Qplus_lt_l. apply Qmult_lt_compat_r; [exact Hw|reflexivity].
  - by vm_compute.
Qed.

End WeightFacts.

Lemma C8_witness :
  WeightCalculator.calculate_rating_weight default_config None = (1 # 2)%Q
  ∧ (∀ z, (z ≤ 0)%Z →
       WeightCalculator.calculate_rating_weight default_config (Some z) = (1 # 2)%Q)
  ∧ (∀ r, (1 ≤ r ≤ 5)%Z →
       WeightCalculator.calculate_rating_weight default_config (Some r)
       = ((inject_Z r / 5) ^ 2 * rating_weight default_config + (1 # 10))%Q)
  ∧ ((0 < rating_weight default_config)%Q →
       (WeightCalculator.calculate_rating_weight default_config (Some 1%Z)
        < WeightCalculator.calculate_rating_weight default_config (Some 5%Z))%Q)
  ∧ WeightCalculator.calculate_rating_weight_binary64 2 None = 0.5%float
  ∧ WeightCalculator.calculate_rating_weight_binary64 2 (Some 1%Z)
    = 0.18000000000000002%float
  ∧ WeightCalculator.calculate_rating_weight_binary64 2 (Some 5%Z) = 2.1%float
  ∧ PrimFloat.ltb (WeightCalculator.calculate_rating_weight_binary64 2 (Some 1%Z))
      (WeightCalculator.calculate_rating_weight_binary64 2 (Some 5%Z)) = true.
Proof. apply (C8_rating_weight default_config). Defined.

(** C8, as stated, fails in binary64: 1e-18 is a positive [rating_weight],
    and with it the factor of a rating of 5 and the factor of a rating of 1
    are both 0.1. *)
Lemma C8_counterexample :
  PrimFloat.ltb 0 1e-18 = true
  ∧ WeightCalculator.calculate_rating_weight_binary64 1e-18 (Some 1%Z) = 0.1%float
  ∧ WeightCalculator.calculate_rating_weight_binary64 1e-18 (Some 5%Z) = 0.1%float
  ∧ PrimFloat.ltb (WeightCalculator.calculate_rating_weight_binary64 1e-18 (Some 1%Z))
      (WeightCalculator.calculate_rating_weight_binary64 1e-18 (Some 5%Z)) = false.
Proof. by vm_compute. Qed.

(** ** Properties of the weighted cache *)

Section CacheFloor.

Import WeightCalculator Engine.
Local Open Scope Q_scope.

Implicit Types (m : MathLib) (st : RandomAlgorithm) (row : CacheRow).

Lemma weigh_album_floor m cfg clock avg rg ra rs album row :
  weigh_album m cfg clock avg rg ra rs album = Some row →
  1 # 100 <= ic_final_weight row.
Proof.
  unfold weigh_album. intros H.
  repeat case_match; simplify_eq. cbn. apply py_max_floor.
Qed.

Lemma insert_rows_Forall (P : Q → Prop) rows : ∀ n,
  Forall (fun row => P (ic_final_weight row)) rows →
  Forall (fun row => P (ic_final_weight row)) (insert_rows n rows).
Proof.
  induction rows as [|r rows IH]; intros n H; cbn; [done|].
  apply Forall_cons in H as [? ?]. apply Forall_cons. split; [done|by apply IH].
Qed.

(** A refresh either leaves the engine as it is, on an empty collection or
    when the cutoff of the exclusion window overflows, or replaces the cache
    by the rows it computes. *)
Lemma refresh_cases m clock st :
  (_refresh_selection_cache m clock st = st
   ∧ (albums (db st) = []
      ∨ History.get_recent_albums (now clock) (min_time_between_repeats_hours (config st))
          (history st) = None))
  ∨ (∃ recent_albums,
       albums (db st) ≠ []
       ∧ History.get_recent_albums (now clock) (min_time_between_repeats_hours (config st))
           (history st) = Some recent_albums
       ∧ _refresh_selection_cache m clock st
         = mkRandomAlgorithm (config st) (history st) (metrics st) (now clock)
             (mkDatabase (albums (db st)) (insert_rows 1 (computed_rows m clock st recent_albums))
                (selection_history (db st)))).
Proof.
  unfold _refresh_selection_cache, computed_rows.
  destruct (albums (db st)) as [|a l] eqn:Hal; [left; by auto|].
  destruct (History.get_recent_albums _ _ _) as [recent|]; [|left; by auto].
  right. exists recent. done.
Qed.

Lemma computed_rows_floor m clock st recent :
  Forall (fun row => 1 # 100 <= ic_final_weight row) (computed_rows m clock st recent).
Proof.
  apply Forall_forall. intros row Hrow.
  apply list_elem_of_omap in Hrow as (album & _ & Hw).
  by eapply weigh_album_floor.
Qed.

Lemma refresh_floor_ok m clock st :
  floor_ok st → floor_ok (_refresh_selection_cache m clock st).
Proof.
  intros H. destruct (refresh_cases m clock st) as [[-> _]|(recent & _ & _ & ->)]; [done|].
  unfold floor_ok. cbn [db intelligent_cache].
  apply (insert_rows_Forall (fun w => 1 # 100 <= w)), computed_rows_floor.
Qed.

Lemma mark_served_floor clock aid d :
  Forall (fun row => 1 # 100 <= ic_final_weight row) (intelligent_cache d) →
  Forall (fun row => 1 # 100 <= ic_final_weight row) (intelligent_cache (mark_served clock aid d)).
Proof.
  intros H. cbn. apply Forall_fmap. eapply Forall_impl; [exact H|].
  intros row Hrow. cbn. by case_decide.
Qed.

End CacheFloor.

(** ** Properties of [select_random_album] *)

Section SelectionFacts.

Import WeightCalculator Engine.

Implicit Types (m : MathLib) (st : RandomAlgorithm) (d : Database).







Lemma refresh_albums m clock st :
  albums (db (_refresh_selection_cache m clock st)) = albums (db st).
Proof.
  by destruct (refresh_cases m clock st) as [[-> _]|(recent & _ & _ & ->)].
Qed.


(** The refresh touches neither the selection history, nor the in-memory
    history, nor the metrics, nor the configuration. *)
Lemma refresh_keeps m clock st :
  selection_history (db (_refresh_selection_cache m clock st)) = selection_history (db st)
  ∧ history (_refresh_selection_cache m clock st) = history st
  ∧ metrics (_refresh_selection_cache m clock st) = metrics st
  ∧ config (_refresh_selection_cache m clock st) = config st.
Proof.
  by destruct (refresh_cases m clock st) as [[-> _]|(recent & _ & _ & ->)].
Qed.

Lemma refresh_if_stale_history_rows m clock st :
  selection_history (db (refresh_if_stale m clock st)) = selection_history (db st)
  ∧ history (refresh_if_stale m clock st) = history st
  ∧ metrics (refresh_if_stale m clock st) = metrics st.
Proof.
  unfold refresh_if_stale. case_bool_decide; [|done].
  by destruct (refresh_keeps m clock st) as (? & ? & ? & ?).
Qed.




Lemma add_selection_outcome s h :
  (History.add_selection s h).1
  = if History.add_selection_raises s then Raise TypeError else Ok tt.
Proof.
  unfold History.add_selection, History.add_selection_raises.
  destruct (py_bool (sel_genres s)); [|done].
  by destruct (item_0 (sel_genres s)).
Qed.

(** Parsing fails, or [add_selection] raises, exactly on the albums that
    [breaks_selection] describes. *)
Lemma breaks_selection_spec a :
  match parse_json_fields a with
  | None => breaks_selection a = true
  | Some (genres, styles) =>
      breaks_selection a = py_bool genres && bool_decide (item_0 genres = None)
  end.
Proof.
  unfold parse_json_fields, breaks_selection, json_loads.
  destruct (a_genres a) as [| | |[[|g l]|[|x s]|[|]]], (a_styles a) as [| | |v]; done.
Qed.

(** The outcome of [select_random_album], case by case. *)
Lemma select_cases m clock rnd session st :
  let st1 := refresh_if_stale m clock st in
  let r := select_random_album m clock rnd session st in
  match draw_row rnd (db st1) with
  | None => r = (None, st1)
  | Some (a, row) =>
      match parse_json_fields a with
      | None =>
          breaks_selection a = true
          ∧ r = (None, with_metrics (_update_metrics false (metrics st1)) st1)
      | Some (genres, styles) =>
          let album := mkSelectedAlbum a row genres styles in
          let h := (History.add_selection (selection_of album clock) (history st1)).2 in
          let recorded := _record_selection album session clock (db st1) in
          if breaks_selection a then
            r = (None,
                 mkRandomAlgorithm (config st1) h (_update_metrics false (metrics st1))
                   (last_cache_refresh st1)
                   (match row with
                    | Some _ => mark_served clock (dict_id album) recorded
                    | None => db st1
                    end))
          else
            r = (Some album,
                 mkRandomAlgorithm (config st1) h (_update_metrics true (metrics st1))
                   (last_cache_refresh st1)
                   (match row with
                    | Some _ => mark_served clock (dict_id album) recorded
                    | None => recorded
                    end))
      end
  end.
Proof.
  intros st1 r. subst r. unfold select_random_album. fold st1.
  destruct (draw_row rnd (db st1)) as [[a row]|]; [|done].
  pose proof (breaks_selection_spec a) as Hb.
  destruct (parse_json_fields a) as [[genres styles]|]; [|done].
  cbn zeta. rewrite Hb.
  pose proof (add_selection_outcome
                (selection_of (mkSelectedAlbum a row genres styles) clock) (history st1)) as Ho.
  unfold History.add_selection_raises in Ho. cbn [selection_of sel_genres parsed_genres] in Ho.
  destruct (History.add_selection _ (history st1)) as [o h]. cbn [fst snd] in *. subst o.
  destruct (py_bool genres && bool_decide (item_0 genres = None)); by destruct row.
Qed.

End SelectionFacts.

Section CacheFloorRuns.

Import WeightCalculator Engine.
Local Open Scope Q_scope.

Implicit Types (m : MathLib) (st : RandomAlgorithm) (row : CacheRow).

Lemma select_floor_ok m clock rnd session st :
  floor_ok st → floor_ok (select_random_album m clock rnd session st).2.
Proof.
  intros H.
  pose proof (select_cases m clock rnd session st) as Hc. cbn zeta in Hc.
  set (st1 := refresh_if_stale m clock st) in *.
  assert (floor_ok st1) as H1.
  { subst st1. unfold refresh_if_stale. case_bool_decide; [by apply refresh_floor_ok|done]. }
  clearbody st1.
  destruct (draw_row rnd (db st1)) as [[a row]|]; [|by rewrite Hc].
  destruct (parse_json_fields a) as [[genres styles]|]; [|destruct Hc as [_ ->]; exact H1].
  destruct (breaks_selection a); rewrite Hc; unfold floor_ok; cbn [snd db];
    destruct row; try exact H1; by apply mark_served_floor.
Qed.

Lemma feedback_floor_ok aid fb session st :
  floor_ok st → floor_ok (record_user_feedback aid fb session st).
Proof.
  intros H. unfold record_user_feedback, floor_ok. by case_decide.
Qed.

Lemma init_floor_ok m clock cfg d :
  Forall (fun row => 1 # 100 <= ic_final_weight row) (intelligent_cache d) →
  floor_ok (init m clock cfg d).
Proof. intros H. unfold init. by apply refresh_floor_ok. Qed.

Lemma engine_step_floor_ok m st o : floor_ok st → floor_ok (engine_step m st o).
Proof.
  intros H. destruct o; cbn.
  - by apply select_floor_ok.
  - by apply refresh_floor_ok.
  - by apply feedback_floor_ok.
  - exact H.
  - exact H.
  - by apply init_floor_ok.
Qed.

Lemma engine_run_floor_ok m ops : ∀ st, floor_ok st → floor_ok (engine_run m st ops).
Proof.
  induction ops as [|o ops IH]; intros st H; cbn; [done|].
  apply IH. by apply engine_step_floor_ok.
Qed.

(** C7. A refresh that writes the table writes rows whose [final_weight] is
    0.01 or more, whatever the albums, the history, the clock and the
    configuration; the refresh that writes nothing, on an empty collection
    or when the cutoff of the exclusion window overflows, leaves the engine
    as it is. Hence, from the first start of the engine on, after every
    sequence of selections, refreshes, feedback calls, collection changes
    and restarts, every row of [intelligent_cache] has
    [final_weight >= 0.01]. *)
Theorem C7_final_weight_floor (m : MathLib) :
  (∀ clock st,
     ((albums (db st) = []
       ∨ History.get_recent_albums (now clock) (min_time_between_repeats_hours (config st))
           (history st) = None)
      ∧ _refresh_selection_cache m clock st = st)
     ∨ Forall (fun row => 1 # 100 <= ic_final_weight row)
         (intelligent_cache (db (_refresh_selection_cache m clock st))))
  ∧ (∀ clock cfg collection ops,
       Forall (fun row => 1 # 100 <= ic_final_weight row)
         (intelligent_cache
            (db (engine_run m (init m clock cfg (first_database collection)) ops)))).
Proof.
  split.
  - intros clock st.
    destruct (refresh_cases m clock st) as [[Heq Hwhy]|(recent & _ & _ & ->)]; [left; by auto|].
    right. cbn [db intelligent_cache].
    apply (insert_rows_Forall (fun w => 1 # 100 <= w)), computed_rows_floor.
  - intros clock cfg collection ops. apply engine_run_floor_ok.
    apply init_floor_ok. cbn. apply Forall_nil_2.
Qed.

End CacheFloorRuns.

Section SelectionClaims.

Import WeightCalculator Engine.

Implicit Types (m : MathLib) (st : RandomAlgorithm) (d : Database).


End SelectionClaims.



(** C2: the refresh compares album ids with row numbers of the cache. The
    collection holds the albums 10 and 20. The first selection draws album
    10 from the weighted cache, where its row has the number 1, and the
    history records the id 1. The second selection comes 3990 seconds
    later, within the 24 hours of [min_time_between_repeats_hours]; it
    refreshes the cache, the refresh looks for the ids 10 and 20 among the
    recent ids, which are [1], skips no album, and album 10 is returned
    again. *)
Theorem C2_refresh_misses_the_recent_album :
  let first := Engine.select_random_album coarse_math (noon 1000010) first_row_high None
                 shelf_engine in
  let second := Engine.select_random_album coarse_math (noon 1004000) first_row_high None
                  first.2 in
  a_id <$> albums (db shelf_engine) = [10; 20]
  ∧ (∃ x y, first.1 = Some x ∧ second.1 = Some y
            ∧ drawn_album x = blue_train ∧ drawn_album y = blue_train
            ∧ (ic_id <$> drawn_cache_row x) = Some 1
            ∧ drawn_cache_row y ≠ None)
  ∧ (1004000 - 1000010 < min_time_between_repeats_hours (config first.2) * 3600)%Z
  ∧ last_cache_refresh first.2 = 1000000
  ∧ last_cache_refresh second.2 = 1004000
  ∧ History.get_recent_albums 1004000 (min_time_between_repeats_hours (config first.2))
      (history first.2) = Some [1]
  ∧ ic_album_id <$> intelligent_cache (db second.2) = [10; 20].
Proof.
  split; [reflexivity|]. split.
  - eexists _, _. split; [vm_compute; reflexivity|].
    split; [vm_compute; reflexivity|]. by vm_compute.
  - by vm_compute.
Qed.

(** ** Properties of [record_user_feedback] *)

Section Feedback.

Import Engine.

Implicit Types (st : RandomAlgorithm) (rows pre : list HistoryRow) (r : HistoryRow).

Lemma latest_candidate_spec album_id session rows : ∀ pre best,
  latest_of album_id session pre best →
  latest_of album_id session (pre ++ rows)
    (latest_candidate album_id session (length pre) best rows).
Proof.
  induction rows as [|r rows IH]; intros pre best Hbest; cbn.
  - by rewrite app_nil_r.
  - replace (pre ++ r :: rows) with ((pre ++ [r]) ++ rows) by by rewrite <- app_assoc.
    replace (S (length pre)) with (length (pre ++ [r])) by (rewrite length_app; cbn; lia).
    apply IH.
    destruct (awaits_feedback album_id session r) eqn:Hr.
    + destruct best as [[i t]|]; cbn in *.
      * destruct Hbest as (r0 & Hi & Hr0 & -> & Hmax).
        case_decide as Hle; cbn.
        -- exists r. split; [by rewrite lookup_app_r, Nat.sub_diag by lia|].
           split; [done|]. split; [done|].
           intros r' [Hin| ->%list_elem_of_singleton]%elem_of_app Hr'; [|lia].
           specialize (Hmax r' Hin Hr'). lia.
        -- exists r0. split; [by apply lookup_app_l_Some|].
           split; [done|]. split; [done|].
           intros r' [Hin| ->%list_elem_of_singleton]%elem_of_app Hr'; [by apply Hmax|lia].
      * exists r. split; [by rewrite lookup_app_r, Nat.sub_diag by lia|].
        split; [done|]. split; [done|].
        intros r' [Hin| ->%list_elem_of_singleton]%elem_of_app Hr'; [|lia].
        rewrite (Hbest r' Hin) in Hr'. done.
    + destruct best as [[i t]|]; cbn in *.
      * destruct Hbest as (r0 & Hi & Hr0 & -> & Hmax).
        exists r0. split; [by apply lookup_app_l_Some|].
        split; [done|]. split; [done|].
        intros r' [Hin| ->%list_elem_of_singleton]%elem_of_app Hr'; [by apply Hmax|congruence].
      * intros r' [Hin| ->%list_elem_of_singleton]%elem_of_app; [by apply Hbest|done].
Qed.

(** C6. [record_user_feedback] writes the feedback into one row of
    [selection_history]: a row of that album and of that session (the
    session given, or ['anonymous'] when none or the empty string is given)
    whose [user_feedback] is still NULL, and of these one with the latest
    [selected_at]. Every other row, and every other column of that row, is
    left as it was; when there is no such row, the table is left as it
    was. *)
Theorem C6_feedback_marks_latest_open_selection
    (album_id feedback : Z) (session_id : option string) (session : string) st :
  (session_id = Some session ∧ session ≠ "")
  ∨ ((session_id = None ∨ session_id = Some "") ∧ session = "anonymous") →
  let open r :=
    sh_album_id r = album_id ∧ sh_session_id r = session ∧ sh_user_feedback r = None in
  let rows := selection_history (db st) in
  let rows' := selection_history (db (record_user_feedback album_id feedback session_id st)) in
  ((∀ r, r ∈ rows → ¬ open r) ∧ rows' = rows)
  ∨ (∃ i r,
        rows !! i = Some r
        ∧ open r
        ∧ (∀ r', r' ∈ rows → open r' → (sh_selected_at r' ≤ sh_selected_at r)%Z)
        ∧ rows' !! i
          = Some (mkHistoryRow (sh_id r) (sh_album_id r) (sh_selected_at r) (Some feedback)
                    (sh_session_id r) (sh_final_weight r))
        ∧ (∀ j, j ≠ i → rows' !! j = rows !! j)
        ∧ length rows' = length rows).
Proof.
  intros Hsession open rows rows'.
  assert (session_or_anonymous session_id = session) as Hs.
  { destruct Hsession as [[-> Hne]|[[->| ->] ->]]; cbn; [by rewrite decide_False|done..]. }
  assert (∀ r, awaits_feedback album_id session r = true ↔ open r) as Hopen.
  { intros r. unfold awaits_feedback, open.
    rewrite !andb_true_iff, !bool_decide_eq_true. naive_solver. }
  pose proof (latest_candidate_spec album_id session rows [] None) as Hspec.
  cbn in Hspec. specialize (Hspec ltac:(by intros r ?%elem_of_nil)).
  assert (rows' = match latest_candidate album_id session 0 None rows with
                  | Some (i, _) => alter (set_feedback feedback) i rows
                  | None => rows
                  end) as Hrows'.
  { subst rows' rows. unfold record_user_feedback. rewrite Hs. by case_decide. }
  destruct (latest_candidate album_id session 0 None rows) as [[i t]|]; cbn in Hspec.
  - right. destruct Hspec as (r & Hi & Hr & -> & Hmax). exists i, r.
    split; [done|]. split; [by apply Hopen|].
    split; [intros r' Hin Hr'; apply Hmax; [done|by apply Hopen]|].
    rewrite Hrows'. split; [|split].
    + rewrite list_lookup_alter_eq, Hi. done.
    + intros j Hne. by rewrite list_lookup_alter_ne.
    + apply length_alter.
  - left. split; [|done]. intros r Hin Hr. apply Hopen in Hr.
    rewrite (Hspec r Hin) in Hr. done.
Qed.

End Feedback.

Lemma C6_witness :
  let open r := sh_album_id r = 7 ∧ sh_session_id r = "kitchen" ∧ sh_user_feedback r = None in
  let rows := selection_history (db three_session_engine) in
  let rows' :=
    selection_history
      (db (Engine.record_user_feedback 7 1 (Some "kitchen") three_session_engine)) in
  (((∀ r, r ∈ rows → ¬ open r) ∧ rows' = rows)
   ∨ (∃ i r,
         rows !! i = Some r
         ∧ open r
         ∧ (∀ r', r' ∈ rows → open r' → (sh_selected_at r' ≤ sh_selected_at r)%Z)
         ∧ rows' !! i
           = Some (mkHistoryRow (sh_id r) (sh_album_id r) (sh_selected_at r) (Some 1)
                     (sh_session_id r) (sh_final_weight r))
         ∧ (∀ j, j ≠ i → rows' !! j = rows !! j)
         ∧ length rows' = length rows))
  ∧ rows'
    = [mkHistoryRow 1 7 100 None "kitchen" 1; mkHistoryRow 2 7 200 (Some 1) "kitchen" 1;
       mkHistoryRow 3 7 300 None "office" 1; mkHistoryRow 4 7 400 None "anonymous" 1;
       mkHistoryRow 5 8 500 None "kitchen" 1].
Proof.
  split.
  - apply (C6_feedback_marks_latest_open_selection 7 1 (Some "kitchen") "kitchen"
             three_session_engine).
    left. split; [reflexivity|discriminate].
  - reflexivity.
Defined.

(** ** Further properties of [LRUCache] *)

Section LRUMore.

Implicit Types (c : LRUCache) (d : Disk) (w : World).

Lemma lru_returns_in_sync w o : in_sync w.1 → lru_returns w o.
Proof.
  destruct w as [c d]. cbn. intros Hs. destruct o as [k e|now k|k| |]; cbn.
  - destruct (put_in_sync k e c d Hs) as [_ [H|H]]; eauto.
  - destruct (get_in_sync now k c d Hs) as [_ Hnr].
    unfold LRU.get in *. cbn in *.
    destruct (cache_data c !! k); cbn in *; [|by eauto].
    destruct (OD.move_to_end k (cache_order c)); cbn in *; [by eauto|].
    by destruct (Hnr KeyError).
  - destruct (remove_in_sync k c d Hs) as [_ Hnr].
    unfold LRU.remove in *.
    destruct (cache_data c !! k); cbn in *; [|by eauto].
    destruct (OD.del k (cache_order c)); cbn in *; [by eauto|].
    by destruct (Hnr KeyError).
  - by destruct (evict_in_sync (c, d) Hs).
  - done.
Qed.

(** X1. In a cache built from [LRUCache(max_size)] by any sequence of
    [put], [get], [remove], [_evict_lru] and [clear] calls, [cache_order]
    lists the keys of [cache_data], each once, and the next call, whichever
    it is, returns: no [KeyError] is raised and the loop of [put] ends. *)
Theorem X1_methods_return_and_keys_agree
    (max_size : Z) (d : Disk) (ops : list lru_op) (o : lru_op) :
  NoDup (OD.keys (cache_order (lru_run (LRU.init max_size, d) ops).1))
  ∧ (∀ k, k ∈ OD.keys (cache_order (lru_run (LRU.init max_size, d) ops).1)
          ↔ is_Some (cache_data (lru_run (LRU.init max_size, d) ops).1 !! k))
  ∧ lru_returns (lru_run (LRU.init max_size, d) ops) o.
Proof.
  pose proof (lru_run_in_sync max_size d ops) as Hs.
  split; [apply Hs|]. split; [apply Hs|]. by apply lru_returns_in_sync.
Qed.

End LRUMore.

Section LRUPutSpec.

Implicit Types (c : LRUCache) (d : Disk) (w : World) (m : gmap string CacheEntry).

Lemma stored_bytes_nonneg m :
  (∀ k e, m !! k = Some e → 0 ≤ file_size e) → 0 ≤ LRU.stored_bytes m.
Proof.
  unfold LRU.stored_bytes.
  apply (map_fold_weak_ind
    (fun r m => (∀ k e, m !! k = Some e → 0 ≤ file_size e) → 0 ≤ r)); [done|].
  intros k e m' r Hk IH Hall.
  assert (0 ≤ file_size e) by (apply (Hall k); apply lookup_insert_eq).
  assert (0 ≤ r); [|lia].
  apply IH. intros k' e' Hk'. apply (Hall k').
  rewrite lookup_insert_ne; [done|]. intros ->. congruence.
Qed.

Lemma in_sync_empty_order c : in_sync c → cache_order c = [] → cache_data c = ∅.
Proof.
  intros [_ Hiff] Ho. apply map_eq. intros k. rewrite lookup_empty.
  destruct (cache_data c !! k) eqn:Hk; [|done].
  assert (k ∈ OD.keys (cache_order c)) as Hin by (apply Hiff; eauto).
  rewrite Ho in Hin. by apply elem_of_nil in Hin.
Qed.

(** The state in which the loop of [put] stops. *)
Lemma evict_while_spec fuel entry w :
  (length (cache_order w.1) ≤ fuel)%nat → in_sync w.1 →
  ∃ n c2 d2,
    LRU.evict_while fuel entry w = (Ok tt, (c2, d2))
    ∧ in_sync c2
    ∧ LRU.must_evict entry c2 = false
    ∧ cache_order c2 = drop n (cache_order w.1)
    ∧ (LRU.must_evict entry w.1 = false → n = O ∧ c2 = w.1 ∧ d2 = w.2)
    ∧ max_size_bytes c2 = max_size_bytes w.1
    ∧ cache_data c2 ⊆ cache_data w.1
    ∧ d2 ⊆ w.2
    ∧ (size_ok w.1 → size_ok c2)
    ∧ (hits (stats c2) = hits (stats w.1)
       ∧ misses (stats c2) = misses (stats w.1)
       ∧ total_requests (stats c2) = total_requests (stats w.1))
    ∧ evictions (stats c2) = evictions (stats w.1) + Z.of_nat n.
Proof.
  revert w. induction fuel as [|fuel IH]; intros [c d] Hlen Hs;
    cbn -[LRU._evict_lru] in *.
  - destruct (cache_order c) eqn:Ho; [|cbn in Hlen; lia].
    exists O, c, d. unfold LRU.must_evict. rewrite Ho. cbn.
    rewrite andb_false_r. split_and!; try done. lia.
  - destruct (LRU.must_evict entry c) eqn:Hme.
    + destruct (cache_order c) as [|[k v] o] eqn:Ho.
      { unfold LRU.must_evict in Hme. rewrite Ho in Hme. cbn in Hme.
        by rewrite andb_false_r in Hme. }
      assert (is_Some (cache_data c !! k)) as [e He].
      { apply Hs. rewrite Ho. cbn. apply elem_of_cons. by left. }
      destruct (evict_removes_first k v o e c d Ho He) as (Hok & Hord & Hdat & Hdisk).
      destruct (evict_in_sync (c, d) Hs) as [Hs' _].
      pose proof (evict_size_ok (c, d)) as Hsz.
      pose proof (evict_max_size (c, d)) as Hmax.
      assert (hits (stats (LRU._evict_lru (c, d)).2.1) = hits (stats c)
              ∧ misses (stats (LRU._evict_lru (c, d)).2.1) = misses (stats c)
              ∧ total_requests (stats (LRU._evict_lru (c, d)).2.1) = total_requests (stats c)
              ∧ evictions (stats (LRU._evict_lru (c, d)).2.1) = evictions (stats c) + 1)
        as (Hh & Hm & Ht & Hev).
      { unfold LRU._evict_lru. rewrite Ho. cbn. rewrite He. cbn. rewrite Ho. cbn.
        by rewrite decide_True. }
      destruct (LRU._evict_lru (c, d)) as [r [c1 d1]]. cbn -[LRU._evict_lru] in *. subst r.
      destruct (IH (c1, d1)) as (n & c2 & d2 & Hev2 & Hs2 & Hme2 & Hord2 & _ & Hmax2
                                 & Hdat2 & Hd2 & Hsz2 & (Hh2 & Hm2 & Ht2) & Hev3).
      { cbn. rewrite Hord. lia. }
      { done. }
      cbn in *. exists (S n), c2, d2. split; [done|]. split; [done|]. split; [done|].
      split; [by rewrite Hord2, Hord|]. split; [congruence|]. split; [congruence|].
      split; [etrans; [exact Hdat2|]; rewrite Hdat; apply delete_subseteq|].
      split; [etrans; [exact Hd2|]; rewrite Hdisk; apply remove_if_exists_subseteq|].
      split; [auto|]. split; [repeat split; congruence|]. lia.
    + exists O, c, d. split_and!; try done. lia.
Qed.

(** What [put] does on a cache whose two structures agree: it drops the
    entry stored under the key, evicts [n] keys from the least recently used
    end until the new entry fits or the cache is empty, and then stores the
    entry unless it is larger than the whole budget. *)
Lemma put_spec k entry c d :
  in_sync c →
  ∃ n c2 d2,
    let o1 := default (cache_order c) (OD.del k (cache_order c)) in
    in_sync c2
    ∧ cache_order c2 = drop n o1
    ∧ cache_data c2 ⊆ delete k (cache_data c)
    ∧ max_size_bytes c2 = max_size_bytes c
    ∧ LRU.must_evict entry c2 = false
    ∧ d2 ⊆ d
    ∧ (size_ok c → size_ok c2)
    ∧ (current_size_bytes c + file_size entry ≤ max_size_bytes c →
       cache_data c !! k = None → n = O ∧ c2 = c)
    ∧ (hits (stats c2) = hits (stats c)
       ∧ misses (stats c2) = misses (stats c)
       ∧ total_requests (stats c2) = total_requests (stats c))
    ∧ LRU.put k entry (c, d)
      = if bool_decide (file_size entry > max_size_bytes c) then (Ok false, (c2, d2))
        else (Ok true,
              (mkLRUCache (max_size_bytes c2) (current_size_bytes c2 + file_size entry)
                 (cache_order c2 ++ [(k, last_accessed entry)])
                 (<[k := entry]> (cache_data c2)) (stats c2), d2)).
Proof.
  intros Hs. unfold LRU.put.
  set (removed := match cache_data c !! k with Some _ => _ | None => _ end).
  assert (∃ c1, removed = (Ok tt, c1) ∧ in_sync c1
                ∧ cache_order c1 = default (cache_order c) (OD.del k (cache_order c))
                ∧ cache_data c1 = delete k (cache_data c)
                ∧ max_size_bytes c1 = max_size_bytes c
                ∧ stats c1 = stats c
                ∧ (size_ok c → size_ok c1)
                ∧ (cache_data c !! k = None → c1 = c))
    as (c1 & -> & Hs1 & Ho1 & Hd1 & Hm1 & Hst1 & Hsz1 & Hsame).
  { subst removed. destruct (cache_data c !! k) as [old|] eqn:Hk.
    - destruct (od_del_Some k (cache_order c)) as [o Ho]; [apply Hs; eauto|].
      cbn. rewrite Ho. eexists. split; [reflexivity|].
      split; [apply (drop_in_sync k (LRU.with_size _ c) o Hs Ho)|].
      split; [done|]. split; [done|]. split; [done|]. split; [done|].
      split; [|done]. unfold size_ok. cbn. intros Hsz.
      rewrite (stored_bytes_delete _ k old) by done. lia.
    - exists c. split; [done|]. split; [done|]. split.
      + destruct (OD.del k (cache_order c)) as [o|] eqn:Ho; [|done].
        exfalso. destruct Hs as [Hnd Hiff].
        assert (k ∈ OD.keys (cache_order c)) as Hin.
        { clear -Ho. revert o Ho. induction (cache_order c) as [|[k' v] l IH];
            intros o Ho; cbn in *; [done|].
          destruct (decide (k' = k)) as [->|]; [apply elem_of_cons; by left|].
          destruct (OD.del k l) eqn:Hl; [|done].
          apply elem_of_cons. right. by eapply IH. }
        apply Hiff in Hin as [? ?]. congruence.
      + split; [by rewrite delete_id|]. done. }
  destruct (evict_while_spec (length (cache_order c1)) entry (c1, d) (le_n _) Hs1)
    as (n & c2 & d2 & -> & Hs2 & Hme & Hord & Hn0 & Hmax & Hdat & Hd2 & Hsz2 & Hstats & _).
  cbn in *. exists n, c2, d2.
  split; [done|]. split; [by rewrite Hord, Ho1|]. split; [by rewrite <- Hd1|].
  split; [congruence|]. split; [done|]. split; [done|]. split; [auto|].
  split; [|split].
  - intros Hfit Hk. specialize (Hsame Hk). subst c1.
    destruct Hn0 as (-> & -> & _); [|done].
    unfold LRU.must_evict. by rewrite bool_decide_false by lia.
  - rewrite Hst1 in Hstats. exact Hstats.
  - rewrite Hmax, Hm1. case_bool_decide; [done|].
    unfold LRU.with_size, LRU.with_order, LRU.with_data. cbn.
    rewrite od_set_fresh; [by rewrite Hmax, Hm1|].
    destruct Hs2 as [_ Hiff]. rewrite Hiff.
    assert (cache_data c2 !! k = None) as ->; [|by intros [? ?]].
    eapply lookup_weaken_None; [|exact Hdat]. rewrite Hd1. apply lookup_delete_eq.
Qed.

End LRUPutSpec.

Section LRUBudget.

Implicit Types (c : LRUCache) (d : Disk) (w : World).

Lemma lru_step_within_budget max_size w o :
  0 ≤ max_size →
  (∀ k e, o = OpPut k e → 0 ≤ file_size e) →
  within_budget max_size w.1 → within_budget max_size (lru_step w o).1.
Proof.
  destruct w as [c d]. cbn. intros Hmax0 Hput (Hs & Hsz & Hnn & Hle & Hmax).
  destruct o as [k e|now k|k| |]; cbn -[LRU.put].
  - specialize (Hput k e eq_refl).
    pose proof (put_in_sync k e c d Hs) as [Hs3 _].
    pose proof (put_size_ok k e c d Hsz) as Hsz3.
    destruct (put_spec k e c d Hs)
      as (n & c2 & d2 & Hs2 & _ & Hdat & Hmax2 & Hme & _ & Hsz2 & _ & _ & Heq).
    rewrite Heq in *. clear Heq.
    assert (∀ k' e', cache_data c2 !! k' = Some e' → 0 ≤ file_size e') as Hnn2.
    { intros k' e' Hk'. apply (Hnn k').
      eapply lookup_weaken in Hk'; [|exact Hdat].
      apply lookup_delete_Some in Hk'. tauto. }
    assert (current_size_bytes c2 + file_size e ≤ max_size_bytes c2
            ∨ current_size_bytes c2 = 0) as Hroom.
    { unfold LRU.must_evict in Hme. apply andb_false_iff in Hme as [Hme|Hme].
      - left. apply bool_decide_eq_false in Hme. lia.
      - right. apply negb_false_iff, bool_decide_eq_true in Hme.
        rewrite (Hsz2 Hsz), (in_sync_empty_order c2 Hs2 Hme). done. }
    pose proof (stored_bytes_nonneg (cache_data c2) Hnn2) as Hpos.
    rewrite <- (Hsz2 Hsz) in Hpos.
    case_bool_decide as Hbig; cbn in *.
    + split; [done|]. split; [auto|]. split; [done|]. split; [lia|congruence].
    + split; [done|]. split; [done|]. split; [|split; cbn; [lia|congruence]].
      intros k' e'. cbn. rewrite lookup_insert. case_decide.
      * by intros [= <-].
      * apply Hnn2.
  - destruct (get_in_sync now k c d Hs) as [Hs' _].
    pose proof (get_size_ok now k c d Hsz) as Hsz'.
    split; [done|]. split; [done|].
    unfold LRU.get in *. cbn in *.
    destruct (cache_data c !! k) as [e|] eqn:Hk; cbn in *; [|done].
    assert (∀ k' e', <[k := LRU.touch now e]> (cache_data c) !! k' = Some e' →
                     0 ≤ file_size e') as Hnn'.
    { intros k' e'. rewrite lookup_insert. case_decide; subst.
      - intros [= <-]. cbn. by apply (Hnn k').
      - apply Hnn. }
    destruct (OD.move_to_end k (cache_order c)); cbn; done.
  - destruct (remove_in_sync k c d Hs) as [Hs' _].
    pose proof (remove_size_ok k c d Hsz) as Hsz'.
    split; [done|]. split; [done|].
    unfold LRU.remove in *.
    destruct (cache_data c !! k) as [e|] eqn:Hk; cbn in *; [|done].
    pose proof (Hnn k e Hk).
    assert (∀ k' e', delete k (cache_data c) !! k' = Some e' → 0 ≤ file_size e') as Hnn'.
    { intros k' e' [_ ?]%lookup_delete_Some. by apply (Hnn k'). }
    destruct (OD.del k (cache_order c)); cbn; (split; [done|]); (split; [lia|done]).
  - destruct (evict_in_sync (c, d) Hs) as [Hs' _].
    pose proof (evict_size_ok (c, d) Hsz) as Hsz'.
    split; [done|]. split; [done|].
    unfold LRU._evict_lru in *. cbn in *.
    destruct (OD.first_key (cache_order c)) as [k|] eqn:Hf; [|done].
    destruct (cache_data c !! k) as [e|] eqn:Hk; cbn in *; [|done].
    destruct (del_first_key _ _ Hf) as (v & o' & _ & Hdel).
    rewrite Hdel in *. cbn in *.
    pose proof (Hnn k e Hk).
    split; [|split; [lia|done]].
    intros k' e' [_ ?]%lookup_delete_Some. by apply (Hnn k').
  - split; [apply (init_in_sync (max_size_bytes c))|]. split; [done|].
    split; [intros k e; cbn; by rewrite lookup_empty|]. split; [cbn; lia|done].
Qed.

(** X2. In a cache built from [LRUCache(max_size)], with a budget that is
    not negative, by calls that put only entries whose [file_size] is not
    negative, the running total stays between 0 and the budget:
    [0 <= current_size_bytes <= max_size_bytes]. *)
Theorem X2_total_stays_within_budget (max_size : Z) (d : Disk) (ops : list lru_op) :
  0 ≤ max_size →
  Forall (fun entry => 0 ≤ file_size entry) (put_entries ops) →
  0 ≤ current_size_bytes (lru_run (LRU.init max_size, d) ops).1 ≤ max_size
  ∧ max_size_bytes (lru_run (LRU.init max_size, d) ops).1 = max_size.
Proof.
  intros Hmax Hput.
  assert (within_budget max_size (lru_run (LRU.init max_size, d) ops).1)
    as (Hs & Hsz & Hnn & Hle & Hm).
  { assert (∀ w, within_budget max_size w.1 → within_budget max_size (lru_run w ops).1)
      as Hrun.
    { induction ops as [|o ops IH]; intros w Hw; cbn; [done|].
      apply IH.
      - destruct o; cbn in Hput; try done. by apply Forall_cons in Hput as [_ ?].
      - apply lru_step_within_budget; [done| |done].
        intros k e ->. cbn in Hput. by apply Forall_cons in Hput as [? _]. }
    apply Hrun. split; [apply init_in_sync|]. split; [done|].
    split; [intros k e; cbn; by rewrite lookup_empty|]. split; [cbn; lia|done]. }
  split; [|done]. split; [|lia].
  rewrite Hsz. by apply stored_bytes_nonneg.
Qed.

End LRUBudget.

Lemma X2_witness :
  0 ≤ current_size_bytes
        (lru_run (LRU.init 1000, ∅)
           [OpPut "A" (sample_entry "A" 600); OpPut "B" (sample_entry "B" 700);
            OpGet 3 "A"; OpRemove "B"]).1 ≤ 1000
  ∧ max_size_bytes
      (lru_run (LRU.init 1000, ∅)
         [OpPut "A" (sample_entry "A" 600); OpPut "B" (sample_entry "B" 700);
          OpGet 3 "A"; OpRemove "B"]).1 = 1000.
Proof.
  apply (X2_total_stays_within_budget 1000 ∅
           [OpPut "A" (sample_entry "A" 600); OpPut "B" (sample_entry "B" 700);
            OpGet 3 "A"; OpRemove "B"]); [lia|].
  cbn. repeat (apply Forall_cons; split; [cbn; lia|]). apply Forall_nil_2.
Defined.

Section LRURoundTrips.

Implicit Types (c : LRUCache) (d : Disk) (w : World).


(** X4. On a cache whose two structures agree, [remove] answers whether the
    key was stored. Afterwards the key is in neither structure, a [get] of it
    misses, the file of the removed entry is not on disk, the running total
    is lower by its size, and every other key keeps its entry. *)
Theorem X4_remove_forgets_the_key (now : Z) (k : string) c d :
  in_sync c →
  let r := LRU.remove k (c, d) in
  r.1 = Ok (bool_decide (is_Some (cache_data c !! k)))
  ∧ cache_data r.2.1 !! k = None
  ∧ (k ∉ OD.keys (cache_order r.2.1))
  ∧ (LRU.get now k r.2).1 = Ok None
  ∧ (∀ k', k' ≠ k → cache_data r.2.1 !! k' = cache_data c !! k')
  ∧ (∀ e, cache_data c !! k = Some e →
       r.2.2 !! file_path e = None
       ∧ current_size_bytes r.2.1 = current_size_bytes c - file_size e)
  ∧ (cache_data c !! k = None → r.2 = (c, d)).
Proof.
  intros Hs r. subst r. pose proof (remove_in_sync k c d Hs) as [Hs' _].
  unfold LRU.remove in *.
  destruct (cache_data c !! k) as [e|] eqn:Hk.
  - destruct (od_del_Some k (cache_order c)) as [o Ho]; [apply Hs; eauto|].
    cbn in *. rewrite Ho in *. cbn in *.
    assert (delete k (cache_data c) !! k = None) as Hgone by apply lookup_delete_eq.
    split; [done|]. split; [done|].
    split; [|split; [|split; [|split]]].
    + destruct Hs' as [_ Hiff]. cbn in Hiff. rewrite Hiff, Hgone. by intros [? ?].
    + unfold LRU.get. cbn. by rewrite Hgone.
    + intros k' Hne. by apply lookup_delete_ne.
    + intros e' [= <-]. split; [apply remove_if_exists_lookup|done].
    + done.
  - cbn. split; [done|].
    split; [done|]. split; [|split; [|split; [done|split; [done|done]]]].
    + destruct Hs as [_ Hiff]. rewrite Hiff, Hk. by intros [? ?].
    + unfold LRU.get. cbn. by rewrite Hk.
Qed.

(** X5. A [put] of a new key that is within the budget, on a cache whose
    two structures agree, evicts a prefix of [cache_order], that is the [n]
    least recently used keys and no other, and appends the new key; the keys
    it keeps keep their entries. When the entry fits beside what is stored,
    nothing is evicted. *)
Theorem X5_put_evicts_a_prefix (k : string) (entry : CacheEntry) c d :
  in_sync c →
  cache_data c !! k = None →
  file_size entry ≤ max_size_bytes c →
  ∃ n,
    let c' := (LRU.put k entry (c, d)).2.1 in
    cache_order c' = drop n (cache_order c) ++ [(k, last_accessed entry)]
    ∧ (∀ j, j ∈ OD.keys (take n (cache_order c)) → cache_data c' !! j = None)
    ∧ (∀ j, j ∈ OD.keys (drop n (cache_order c)) → cache_data c' !! j = cache_data c !! j)
    ∧ cache_data c' !! k = Some entry
    ∧ (current_size_bytes c + file_size entry ≤ max_size_bytes c → n = O).
Proof.
  intros Hs Hk Hsize.
  destruct (put_spec k entry c d Hs)
    as (n & c2 & d2 & Hs2 & Hord & Hdat & _ & _ & _ & _ & Hfit & _ & Heq).
  assert (k ∉ OD.keys (cache_order c)) as Hfresh.
  { destruct Hs as [_ Hiff]. rewrite Hiff, Hk. by intros [? ?]. }
  assert (OD.del k (cache_order c) = None) as Hdel.
  { destruct (OD.del k (cache_order c)) as [o|] eqn:Ho; [|done].
    exfalso. apply Hfresh. clear -Ho. revert o Ho.
    induction (cache_order c) as [|[k' v] l IH]; intros o Ho; cbn in *; [done|].
    destruct (decide (k' = k)) as [->|]; [apply elem_of_cons; by left|].
    destruct (OD.del k l) eqn:Hl; [|done]. apply elem_of_cons. right. by eapply IH. }
  rewrite Hdel in Hord. cbn in Hord.
  exists n. rewrite Heq, bool_decide_false by lia. cbn [fst snd].
  cbn -[OD.keys]. rewrite Hord. split; [done|].
  destruct Hs as [Hnd Hiff], Hs2 as [Hnd2 Hiff2]. rewrite Hord in Hiff2.
  assert (∀ j, j ∈ OD.keys (take n (cache_order c)) →
               j ∉ OD.keys (drop n (cache_order c))) as Hsplit.
  { rewrite <- (take_drop n (cache_order c)), od_keys_app in Hnd.
    apply NoDup_app in Hnd as (_ & Hdisj & _).
    intros j Hj. by apply Hdisj. }
  split; [|split; [|split]].
  - intros j Hj.
    assert (j ≠ k).
    { intros ->. apply Hfresh. rewrite <- (take_drop n (cache_order c)), od_keys_app.
      apply elem_of_app. by left. }
    rewrite lookup_insert_ne by done.
    destruct (cache_data c2 !! j) eqn:Hj2; [|done].
    exfalso. apply (Hsplit j Hj). apply Hiff2. eauto.
  - intros j Hj.
    assert (j ≠ k).
    { intros ->. apply Hfresh. rewrite <- (take_drop n (cache_order c)), od_keys_app.
      apply elem_of_app. by right. }
    rewrite lookup_insert_ne by done.
    apply Hiff2 in Hj as [e He]. rewrite He.
    eapply lookup_weaken in He; [|exact Hdat].
    apply lookup_delete_Some in He as [_ He]. done.
  - apply lookup_insert_eq.
  - intros Hroom. by destruct (Hfit Hroom Hk).
Qed.

End LRURoundTrips.


Lemma X4_witness :
  let c := (LRU.put "A" (sample_entry "A" 300) (LRU.init 1000, ∅)).2.1 in
  let r := LRU.remove "A" (c, ∅) in
  r.1 = Ok (bool_decide (is_Some (cache_data c !! "A")))
  ∧ cache_data r.2.1 !! "A" = None
  ∧ ("A" ∉ OD.keys (cache_order r.2.1))
  ∧ (LRU.get 9 "A" r.2).1 = Ok None
  ∧ (∀ k', k' ≠ "A" → cache_data r.2.1 !! k' = cache_data c !! k')
  ∧ (∀ e, cache_data c !! "A" = Some e →
       r.2.2 !! file_path e = None
       ∧ current_size_bytes r.2.1 = current_size_bytes c - file_size e)
  ∧ (cache_data c !! "A" = None → r.2 = (c, ∅)).
Proof.
  apply (X4_remove_forgets_the_key 9 "A").
  apply (put_in_sync "A" (sample_entry "A" 300) (LRU.init 1000) ∅), init_in_sync.
Defined.

Lemma X5_witness :
  ∃ n,
    let c := (lru_run (LRU.init 1000, ∅)
                [OpPut "A" (sample_entry "A" 600); OpPut "B" (sample_entry "B" 300)]).1 in
    let c' := (LRU.put "C" (sample_entry "C" 500) (c, ∅)).2.1 in
    cache_order c' = drop n (cache_order c) ++ [("C", 0)]
    ∧ (∀ j, j ∈ OD.keys (take n (cache_order c)) → cache_data c' !! j = None)
    ∧ (∀ j, j ∈ OD.keys (drop n (cache_order c)) → cache_data c' !! j = cache_data c !! j)
    ∧ cache_data c' !! "C" = Some (sample_entry "C" 500)
    ∧ (current_size_bytes c + 500 ≤ max_size_bytes c → n = O).
Proof.
  apply (X5_put_evicts_a_prefix "C" (sample_entry "C" 500)
           (lru_run (LRU.init 1000, ∅)
              [OpPut "A" (sample_entry "A" 600); OpPut "B" (sample_entry "B" 300)]).1 ∅).
  - apply (lru_run_in_sync 1000 ∅).
  - vm_compute. reflexivity.
  - vm_compute. discriminate.
Defined.

Section LRUStatistics.

Implicit Types (c : LRUCache) (d : Disk) (w : World).

(** [put] touches the counters through its evictions only. *)
Lemma put_stats k entry c d :
  ∃ n, stats (LRU.put k entry (c, d)).2.1 = Nat.iter n LRU.count_eviction (stats c).
Proof.
  unfold LRU.put.
  set (removed := match cache_data c !! k with Some _ => _ | None => _ end).
  assert (stats removed.2 = stats c) as Hst1.
  { subst removed. destruct (cache_data c !! k); [cbn; destruct (OD.del _ _)|]; done. }
  destruct removed as [[[]|x|] c1]; cbn in *; [|by exists O..].
  pose proof (evict_while_preserves
    (fun c' => ∃ n, stats c' = Nat.iter n LRU.count_eviction (stats c))
    (length (cache_order c1)) entry (c1, d)) as Hloop.
  cbn in Hloop. destruct Hloop as [n Hn].
  { intros [c' d'] [n Hn]. cbn in *. unfold LRU._evict_lru.
    destruct (OD.first_key (cache_order c')) as [k'|]; [|by exists n].
    destruct (cache_data c' !! k'); [|by exists n]. cbn.
    destruct (OD.del k' (cache_order c')); cbn; [|by exists n].
    exists (S n). cbn. by rewrite Hn. }
  { exists O. done. }
  destruct (LRU.evict_while _ entry (c1, d)) as [[[]|x|] [c2 d2]]; cbn in *;
    [|by exists n..].
  case_bool_decide; by exists n.
Qed.

Lemma count_eviction_iter n s :
  hits (Nat.iter n LRU.count_eviction s) = hits s
  ∧ misses (Nat.iter n LRU.count_eviction s) = misses s
  ∧ total_requests (Nat.iter n LRU.count_eviction s) = total_requests s
  ∧ evictions (Nat.iter n LRU.count_eviction s) = evictions s + Z.of_nat n.
Proof.
  unfold Nat.iter.
  induction n as [|n (Hh & Hm & Ht & He)]; cbn -[Z.of_nat];
    [split_and!; [done..|lia]|].
  split_and!; [done..|lia].
Qed.

Lemma lru_step_counters_ok w o :
  in_sync w.1 → counters_ok w.1 → counters_ok (lru_step w o).1.
Proof.
  destruct w as [c d]. cbn. intros Hs (Hsum & Hh & Hm & He).
  destruct o as [k e|now k|k| |]; cbn -[LRU.put].
  - destruct (put_stats k e c d) as [n Hn]. unfold counters_ok. rewrite Hn.
    destruct (count_eviction_iter n (stats c)) as (-> & -> & -> & ->).
    split_and!; [done..|lia].
  - destruct (get_in_sync now k c d Hs) as [_ Hnr].
    unfold LRU.get in *. cbn in *.
    destruct (cache_data c !! k); cbn in *.
    + destruct (OD.move_to_end k (cache_order c)); cbn in *.
      * unfold counters_ok. cbn. split_and!; lia.
      * by destruct (Hnr KeyError).
    + unfold counters_ok. cbn. split_and!; lia.
  - unfold LRU.remove. destruct (cache_data c !! k); [|done]. cbn.
    by destruct (OD.del k (cache_order c)).
  - unfold LRU._evict_lru. cbn.
    destruct (OD.first_key (cache_order c)) as [k|]; [|done].
    destruct (cache_data c !! k); [|done]. cbn.
    destruct (OD.del k (cache_order c)); cbn; [|done].
    unfold counters_ok. cbn. split_and!; lia.
  - unfold counters_ok. cbn. lia.
Qed.

Lemma in_sync_size c : in_sync c → size (cache_data c) = length (cache_order c).
Proof.
  intros [Hnd Hiff].
  rewrite <- size_dom, <- (length_fmap fst (cache_order c)).
  change (fst <$> cache_order c) with (OD.keys (cache_order c)).
  rewrite <- (size_list_to_set (C := gset string)) by done.
  f_equal. apply set_eq. intros k.
  by rewrite elem_of_dom, elem_of_list_to_set, Hiff.
Qed.

(** X6. For a cache built from [LRUCache(max_size)] by any sequence of
    calls, [get_stats] reports counters with [hits + misses =
    total_requests], none of them negative, a [hit_rate] between 0 and 100,
    and as [entries] the number of keys in [cache_order]. *)
Theorem X6_get_stats_is_consistent (max_size : Z) (d : Disk) (ops : list lru_op) :
  let c := (lru_run (LRU.init max_size, d) ops).1 in
  rep_hits (get_stats c) + rep_misses (get_stats c) = rep_total_requests (get_stats c)
  ∧ 0 ≤ rep_hits (get_stats c)
  ∧ 0 ≤ rep_misses (get_stats c)
  ∧ 0 ≤ rep_evictions (get_stats c)
  ∧ (0 <= rep_hit_rate (get_stats c))%Q
  ∧ (rep_hit_rate (get_stats c) <= 100)%Q
  ∧ rep_entries (get_stats c) = Z.of_nat (length (cache_order c)).
Proof.
  intros c.
  assert (in_sync c ∧ counters_ok c) as [Hs (Hsum & Hh & Hm & He)].
  { subst c.
    assert (∀ w, in_sync w.1 → counters_ok w.1 →
                 in_sync (lru_run w ops).1 ∧ counters_ok (lru_run w ops).1) as Hrun.
    { induction ops as [|o ops IH]; intros w H1 H2; cbn; [done|].
      apply IH; [by apply lru_step_in_sync|by apply lru_step_counters_ok]. }
    apply Hrun; [apply init_in_sync|]. unfold counters_ok. cbn. lia. }
  cbn. split_and!; try done.
  - unfold Qle. cbn.
    destruct (Z.max (total_requests (stats c)) 1) as [|p|p] eqn:Hp; [lia| |lia].
    cbn. nia.
  - unfold Qle. cbn.
    destruct (Z.max (total_requests (stats c)) 1) as [|p|p] eqn:Hp; [lia| |lia].
    cbn. nia.
  - by rewrite in_sync_size.
Qed.

End LRUStatistics.

Section LRUClear.

Implicit Types (c : LRUCache) (d : Disk) (m : gmap string CacheEntry).

Lemma clear_files d m :
  let d' := map_fold (fun _ entry d => remove_if_exists d (file_path entry)) d m in
  (∀ k e, m !! k = Some e → d' !! file_path e = None)
  ∧ (∀ p, (∀ k e, m !! k = Some e → file_path e ≠ p) → d' !! p = d !! p).
Proof.
  cbn. apply (map_fold_weak_ind (fun d' m =>
    (∀ k e, m !! k = Some e → d' !! file_path e = None)
    ∧ (∀ p, (∀ k e, m !! k = Some e → file_path e ≠ p) → d' !! p = d !! p))).
  - split; [intros k e; by rewrite lookup_empty|done].
  - intros i x m' r Hi [IH1 IH2]. split.
    + intros k e. rewrite lookup_insert. case_decide; subst.
      * intros [= <-]. apply remove_if_exists_lookup.
      * intros Hk. destruct (decide (file_path x = file_path e)) as [Heq|Hne].
        -- rewrite <- Heq. apply remove_if_exists_lookup.
        -- rewrite remove_if_exists_other by done. by eapply IH1.
    + intros p Hp. rewrite remove_if_exists_other.
      * apply IH2. intros k e Hk. apply (Hp k).
        rewrite lookup_insert_ne; [done|]. intros ->. congruence.
      * apply (Hp i). apply lookup_insert_eq.
Qed.

(** X7. [clear] leaves an empty cache with the same budget: no key, a
    running total of 0 and all four counters at 0. The file of every entry
    that was stored is gone from the disk, and no other file is touched. *)
Theorem X7_clear_empties_cache_and_files c d :
  (LRU.clear (c, d)).1 = Ok tt
  ∧ (LRU.clear (c, d)).2.1 = LRU.init (max_size_bytes c)
  ∧ (∀ k e, cache_data c !! k = Some e → (LRU.clear (c, d)).2.2 !! file_path e = None)
  ∧ (∀ p, (∀ k e, cache_data c !! k = Some e → file_path e ≠ p) →
          (LRU.clear (c, d)).2.2 !! p = d !! p).
Proof.
  split; [done|]. split; [done|]. apply (clear_files d (cache_data c)).
Qed.

End LRUClear.

(** ** Further properties of [ImageCache] *)

Section ImageCacheMore.

Import ImageCache.

Implicit Types (env : ImageEnv) (st : ImageCacheState) (body : list chunk).

Lemma payload_length_content body : payload_length body = length (body_content body).
Proof.
  induction body as [|[b|] body IH]; cbn; [done| |done]. rewrite length_app. lia.
Qed.

Lemma read_chunks_content body : ∀ content result,
  read_chunks content body = Ok result → result = content ++ body_content body.
Proof.
  induction body as [|[b|] body IH]; intros content result; cbn.
  - intros [= <-]. by rewrite app_nil_r.
  - case_bool_decide; [done|]. intros Hr%IH. by rewrite Hr, <- app_assoc.
  - done.
Qed.

Lemma read_chunks_whole body : ∀ content,
  Broken ∉ body →
  Z.of_nat (length content + payload_length body) ≤ max_download_size →
  read_chunks content body = Ok (content ++ body_content body).
Proof.
  induction body as [|[b|] body IH]; intros content Hnb Hlen; cbn in *.
  - by rewrite app_nil_r.
  - apply not_elem_of_cons in Hnb as [_ Hnb].
    rewrite bool_decide_false by (rewrite length_app; lia).
    rewrite IH; [by rewrite <- app_assoc|done|rewrite length_app; lia].
  - exfalso. apply Hnb. apply elem_of_cons. by left.
Qed.

(** X8. [_download_image] returns bytes exactly when the request comes back
    with a status outside 400..599, a content type that starts with
    [image/] (in any letter case), a stream that does not break and a
    payload of at most 10 MiB; the bytes are then the chunks of the body, in
    order. In every other case it raises [ImageProcessingError]. *)
Theorem X8_download_succeeds_iff env url content :
  (_download_image env url = Ok content
   ↔ ∃ status_code content_type body,
       session_get env url = Response status_code content_type body
       ∧ ¬ (400 ≤ status_code < 600)
       ∧ startswith "image/" (lower (default "" content_type)) = true
       ∧ (Broken ∉ body)
       ∧ Z.of_nat (length (body_content body)) ≤ 10 * 1024 * 1024
       ∧ content = body_content body)
  ∧ (∀ e, _download_image env url = Raise e → e = ImageProcessingError)
  ∧ _download_image env url ≠ OutOfFuel.
Proof.
  assert (∀ body acc, (∀ e, read_chunks acc body = Raise e → e = ImageProcessingError)
                      ∧ read_chunks acc body ≠ OutOfFuel) as Hrd.
  { induction body as [|[b|] body IH]; intros acc; cbn; [done| |split; [congruence|done]].
    case_bool_decide; [split; [congruence|done]|apply IH]. }
  split; [|unfold _download_image; destruct (session_get env url) as [|status ct body];
           [split; [congruence|done]|];
           destruct (raises_for_status status); [split; [congruence|done]|];
           destruct (negb _); [split; [congruence|done]|apply Hrd]].
  split.
  - intros Hdl.
    destruct (session_get env url) as [|status ct body] eqn:Hget.
    { unfold _download_image in Hdl. by rewrite Hget in Hdl. }
    exists status, ct, body. split; [done|].
    unfold _download_image in Hdl. rewrite Hget in Hdl.
    unfold raises_for_status in Hdl. case_bool_decide as Hst; [done|].
    destruct (startswith "image/" (lower (default "" ct))) eqn:Hct; cbn in Hdl; [|done].
    pose proof (read_chunks_content _ _ _ Hdl) as Hc. cbn in Hc.
    apply read_chunks_Ok in Hdl as (Hnb & Hl & Hmax); [|cbn; unfold max_download_size; lia].
    split; [done|]. split; [done|]. split; [done|]. split; [|done].
    subst content. unfold max_download_size in Hmax. lia.
  - intros (status & ct & body & Hget & Hst & Hct & Hnb & Hlen & ->).
    unfold _download_image. rewrite Hget. unfold raises_for_status.
    rewrite bool_decide_false by done. rewrite Hct. cbn.
    rewrite read_chunks_whole; [done|done|].
    cbn. rewrite payload_length_content. unfold max_download_size. lia.
Qed.

End ImageCacheMore.

Section ImageCacheHits.

Import ImageCache.

Implicit Types (env : ImageEnv) (st : ImageCacheState).

(** The answer of [get_image] from the cache. *)
Lemma get_image_hit env now url size_type st e :
  url ≠ "" →
  in_sync (lru_cache st) →
  cache_data (lru_cache st) !! _generate_cache_key env url size_type = Some e →
  is_Some (files st !! file_path e) →
  ∃ c,
    (LRU.get now (_generate_cache_key env url size_type) (world st)).2 = (c, files st)
    ∧ get_image env now url size_type st
      = (Ok (Some (file_path e)),
         mkImageCacheState (cache_dir st) c (files st)
           (<[_generate_cache_key env url size_type := LRU.touch now e]>
              (image_cache_table st))).
Proof.
  intros Hurl Hs Hk Hfile. unfold get_image. rewrite decide_False by done.
  set (key := _generate_cache_key env url size_type) in *.
  assert (key ∈ OD.keys (cache_order (lru_cache st))) as Hin by (apply Hs; eauto).
  destruct (get_moves_to_end now key e (lru_cache st) (files st) Hk Hin)
    as (v & o' & _ & Hres & _).
  unfold world.
  assert ((LRU.get now key (lru_cache st, files st)).2.2 = files st) as Hd.
  { unfold LRU.get. cbn. rewrite Hk. cbn.
    by destruct (OD.move_to_end key (cache_order (lru_cache st))). }
  destruct (LRU.get now key (lru_cache st, files st)) as [r [c d]]. cbn in *. subst r d.
  exists c. split; [done|].
  unfold path_exists. cbn. by rewrite bool_decide_true.
Qed.


(** What [_process_and_cache_image] does once the bytes are downloaded and
    processed, when the file system lets the file be written. *)
Lemma process_and_cache_downloaded env now url size_type st image_data processed_data dims :
  in_sync (lru_cache st) →
  _download_image env url = Ok image_data →
  process_image env image_data (target_size size_type) = Some processed_data →
  image_size env processed_data = Some dims →
  let key := _generate_cache_key env url size_type in
  let p := _get_cache_file_path st key size_type in
  let entry := new_entry env now url size_type st processed_data dims in
  let w := (LRU.put key entry (lru_cache st, <[p := processed_data]> (files st))).2 in
  create_raises env p = false →
  stat_raises env p = false →
  _process_and_cache_image env now url size_type st
  = if bool_decide (Z.of_nat (length processed_data) > max_size_bytes (lru_cache st))
    then (Ok None, mkImageCacheState (cache_dir st) w.1 (remove_if_exists w.2 p)
                     (image_cache_table st))
    else (Ok (Some entry), mkImageCacheState (cache_dir st) w.1 w.2
                             (<[key := entry]> (image_cache_table st))).
Proof.
  intros Hs Hdl Hproc Hdim key p entry w Hcr Hstat.
  unfold _process_and_cache_image. rewrite Hdl, Hproc, Hdim.
  destruct dims as [width height]. fold key. fold p. rewrite Hcr, Hstat. cbn [orb].
  change (mkCacheEntry p url size_type _ now now 1 width height "WEBP") with entry.
  unfold world. cbn [lru_cache files with_files].
  pose proof (put_outcome key entry (lru_cache st) (<[p := processed_data]> (files st)) Hs)
    as Hout.
  change (file_size entry) with (Z.of_nat (length processed_data)) in Hout.
  subst w.
  destruct (LRU.put key entry (lru_cache st, <[p := processed_data]> (files st)))
    as [r [c' d']]. cbn [fst snd] in *. subst r.
  by case_bool_decide.
Qed.

End ImageCacheHits.

Section ImageCacheDownloads.

Import ImageCache.

Implicit Types (env : ImageEnv) (st : ImageCacheState).

(** X10. After a request that went to the download and was stored, the
    file system having let the file be written, the next request for the
    same URL and size type is answered from the cache: it returns the same
    path and changes no file, whatever the server would reply by then. *)
Theorem X10_second_request_is_a_hit
    env now url size_type st image_data processed_data dims :
  url ≠ "" →
  in_sync (lru_cache st) →
  ¬ served_from_cache env url size_type st →
  _download_image env url = Ok image_data →
  process_image env image_data (target_size size_type) = Some processed_data →
  image_size env processed_data = Some dims →
  Z.of_nat (length processed_data) ≤ max_size_bytes (lru_cache st) →
  (∀ k e, k ≠ _generate_cache_key env url size_type →
     cache_data (lru_cache st) !! k = Some e →
     file_path e ≠ _get_cache_file_path st (_generate_cache_key env url size_type) size_type) →
  let p := _get_cache_file_path st (_generate_cache_key env url size_type) size_type in
  let first := get_image env now url size_type st in
  create_raises env p = false →
  stat_raises env p = false →
  first.1 = Ok (Some p)
  ∧ files first.2 !! p = Some processed_data
  ∧ ∀ now' reply,
      let env' := mkImageEnv (sha256_hexdigest env) reply (process_image env)
                    (image_size env) (stat_raises env) (create_raises env) in
      (get_image env' now' url size_type first.2).1 = Ok (Some p)
      ∧ files (get_image env' now' url size_type first.2).2 = files first.2.
Proof.
  intros Hurl Hs Hns Hdl Hproc Hdim Hfit Hno p first Hcr Hstat.
  destruct (get_image_miss env now url size_type st Hurl Hs Hns)
    as (c & Hsc & Hmax & _ & Hpaths & _ & Heq).
  set (st1 := with_world (c, files st) st) in *.
  pose proof (process_and_cache_downloaded env now url size_type st1 image_data
                processed_data dims Hsc Hdl Hproc Hdim Hcr Hstat) as Hpc.
  cbn zeta in Hpc. rewrite bool_decide_false in Hpc by (cbn; lia).
  set (key := _generate_cache_key env url size_type) in *.
  change (_get_cache_file_path st1 key size_type) with p in Hpc.
  set (entry := new_entry env now url size_type st1 processed_data dims) in *.
  change (lru_cache st1) with c in Hpc. change (files st1) with (files st) in Hpc.
  set (d1 := <[p := processed_data]> (files st)) in *.
  assert (file_path entry = p) as Hpath by done.
  pose proof (put_in_sync key entry c d1 Hsc) as [Hs2 _].
  assert (cache_data (LRU.put key entry (c, d1)).2.1 !! key = Some entry) as Hk2.
  { destruct (put_spec key entry c d1 Hsc)
      as (n & c2 & d2 & _ & _ & _ & _ & _ & _ & _ & _ & _ & Hput).
    rewrite Hput. rewrite bool_decide_false by (cbn; lia). cbn. apply lookup_insert_eq. }
  assert ((LRU.put key entry (c, d1)).2.2 !! p = Some processed_data) as Hp2.
  { apply put_keeps_file; [apply lookup_insert_eq|].
    intros k' e Hne Hk'. destruct (Hpaths k' e Hk') as (e' & He' & -> & _).
    by apply (Hno k' e'). }
  subst first. rewrite Heq, Hpc. cbn [fst snd].
  split; [done|]. split; [done|].
  intros now' reply.
  set (env' := mkImageEnv (sha256_hexdigest env) reply (process_image env) (image_size env)
                 (stat_raises env) (create_raises env)).
  set (st2 := mkImageCacheState _ _ _ _).
  destruct (get_image_hit env' now' url size_type st2 entry Hurl Hs2 Hk2) as (c3 & _ & Hhit).
  { exists processed_data. exact Hp2. }
  rewrite Hhit. done.
Qed.

(** X11. When the processed image is larger than the whole budget of the
    cache and the file system lets the file be written, [get_image] returns
    [None] and leaves nothing of the image behind: the file it had written
    is removed again, no row is written to the [image_cache] table and the
    key is not in the cache. *)
Theorem X11_oversized_image_leaves_no_file
    env now url size_type st image_data processed_data dims :
  url ≠ "" →
  in_sync (lru_cache st) →
  ¬ served_from_cache env url size_type st →
  _download_image env url = Ok image_data →
  process_image env image_data (target_size size_type) = Some processed_data →
  image_size env processed_data = Some dims →
  Z.of_nat (length processed_data) > max_size_bytes (lru_cache st) →
  let key := _generate_cache_key env url size_type in
  let r := get_image env now url size_type st in
  create_raises env (_get_cache_file_path st key size_type) = false →
  stat_raises env (_get_cache_file_path st key size_type) = false →
  r.1 = Ok None
  ∧ files r.2 !! _get_cache_file_path st key size_type = None
  ∧ image_cache_table r.2 = image_cache_table st
  ∧ cache_data (lru_cache r.2) !! key = None.
Proof.
  intros Hurl Hs Hns Hdl Hproc Hdim Hbig key r Hcr Hstat.
  destruct (get_image_miss env now url size_type st Hurl Hs Hns)
    as (c & Hsc & Hmax & _ & _ & _ & Heq).
  set (st1 := with_world (c, files st) st) in *.
  pose proof (process_and_cache_downloaded env now url size_type st1 image_data
                processed_data dims Hsc Hdl Hproc Hdim Hcr Hstat) as Hpc.
  cbn zeta in Hpc. rewrite bool_decide_true in Hpc by (cbn; lia).
  fold key in Hpc.
  set (p := _get_cache_file_path st key size_type).
  change (_get_cache_file_path st1 key size_type) with p in Hpc.
  set (entry := new_entry env now url size_type st1 processed_data dims) in *.
  change (lru_cache st1) with c in Hpc. change (files st1) with (files st) in Hpc.
  set (d1 := <[p := processed_data]> (files st)) in *.
  subst r. rewrite Heq, Hpc. cbn [fst snd].
  split; [done|]. split; [apply remove_if_exists_lookup|]. split; [done|].
  cbn [lru_cache].
  destruct (put_spec key entry c d1 Hsc)
    as (n & c2 & d2 & _ & _ & Hdat & _ & _ & _ & _ & _ & _ & Hput).
  rewrite Hput. rewrite bool_decide_true by (cbn; lia). cbn.
  eapply lookup_weaken_None; [|exact Hdat]. apply lookup_delete_eq.
Qed.

End ImageCacheDownloads.


Lemma X10_witness :
  let p := ImageCache._get_cache_file_path fresh_image_cache
             (ImageCache._generate_cache_key env_200 "http://img/a" "detail") "detail" in
  let first := ImageCache.get_image env_200 0 "http://img/a" "detail" fresh_image_cache in
  first.1 = Ok (Some p)
  ∧ files first.2 !! p = Some [Byte.x06; Byte.x89; Byte.x50]
  ∧ ∀ now' reply,
      let env' := mkImageEnv (sha256_hexdigest env_200) reply (process_image env_200)
                    (image_size env_200) (stat_raises env_200) (create_raises env_200) in
      (ImageCache.get_image env' now' "http://img/a" "detail" first.2).1 = Ok (Some p)
      ∧ files (ImageCache.get_image env' now' "http://img/a" "detail" first.2).2
        = files first.2.
Proof.
  apply (X10_second_request_is_a_hit env_200 0 "http://img/a" "detail" fresh_image_cache
           [Byte.x89; Byte.x50] [Byte.x06; Byte.x89; Byte.x50] (600, 600)).
  - discriminate.
  - apply init_in_sync.
  - intros (entry & Hk & _). cbn in Hk. by rewrite lookup_empty in Hk.
  - reflexivity.
  - reflexivity.
  - reflexivity.
  - cbn. lia.
  - intros k e _ Hk. cbn in Hk. by rewrite lookup_empty in Hk.
  - reflexivity.
  - reflexivity.
Defined.

Lemma X11_witness :
  let key := ImageCache._generate_cache_key env_200 "http://img/a" "detail" in
  let r := ImageCache.get_image env_200 0 "http://img/a" "detail" tiny_image_cache in
  r.1 = Ok None
  ∧ files r.2 !! ImageCache._get_cache_file_path tiny_image_cache key "detail" = None
  ∧ image_cache_table r.2 = image_cache_table tiny_image_cache
  ∧ cache_data (lru_cache r.2) !! key = None.
Proof.
  apply (X11_oversized_image_leaves_no_file env_200 0 "http://img/a" "detail"
           tiny_image_cache [Byte.x89; Byte.x50] [Byte.x06; Byte.x89; Byte.x50] (600, 600)).
  - discriminate.
  - apply init_in_sync.
  - intros (entry & Hk & _). cbn in Hk. by rewrite lookup_empty in Hk.
  - reflexivity.
  - reflexivity.
  - reflexivity.
  - cbn. lia.
  - reflexivity.
  - reflexivity.
Defined.

(** ** [ImageCache.get_placeholder_path] and [ImageCache.cleanup_cache] *)

Section ImageCacheHousekeeping.

Import ImageCache.

Implicit Types (st : ImageCacheState) (c : LRUCache) (d : Disk).

(** X12. [get_placeholder_path] raises [OSError] when the directory
    [cache_dir / "placeholders"] cannot be made or [Path.exists] raises on
    the placeholder path, both of which it asks before its [try], and then
    it changes nothing. Otherwise it answers the path of the file
    [placeholder_<size_type>.webp] in that directory: literally
    [cache_dir/placeholders/placeholder_<size_type>.webp] when [size_type]
    has no slash. A file already at that path is never redrawn or
    overwritten; a missing one is drawn at 150x150 for ['thumbnails'] and at
    600x600 for every other size type, and written if the file can be
    created. No other path is touched, and asking again gives the same
    answer and changes nothing more. *)
Theorem X12_placeholder_is_drawn_once
    env (draw : Z * Z → option bytes) (size_type : string) st :
  let dir := Pathlib.truediv (Pathlib.parse (cache_dir st)) "placeholders" in
  let p := Pathlib.str (Pathlib.truediv dir ("placeholder_" +:+ size_type +:+ ".webp")) in
  let r := get_placeholder_path env draw size_type st in
  (create_raises env (Pathlib.str dir) = true ∨ stat_raises env p = true →
     r = (Raise OSError, st))
  ∧ (create_raises env (Pathlib.str dir) = false → stat_raises env p = false →
       r.1 = Ok p
       ∧ (∀ draw', is_Some (files st !! p) →
            get_placeholder_path env draw' size_type st = (Ok p, st))
       ∧ (files st !! p = None →
            files r.2 !! p
            = if create_raises env p then None
              else draw (if decide (size_type = "thumbnails") then (150, 150) else (600, 600)))
       ∧ get_placeholder_path env draw size_type r.2 = r)
  ∧ (has_slash size_type = false →
       p = path_join (cache_dir st) "placeholders"
           +:+ "/" +:+ "placeholder_" +:+ size_type +:+ ".webp")
  ∧ (∀ q, q ≠ p → files r.2 !! q = files st !! q)
  ∧ lru_cache r.2 = lru_cache st
  ∧ image_cache_table r.2 = image_cache_table st.
Proof.
  intros dir p r.
  set (size := if decide (size_type = "thumbnails") then (150, 150) else (600, 600)).
  assert (∀ draw' st', cache_dir st' = cache_dir st →
    create_raises env (Pathlib.str dir) = false → stat_raises env p = false →
    get_placeholder_path env draw' size_type st'
    = (Ok p,
       if bool_decide (is_Some (files st' !! p)) then st'
       else match draw' size with
            | Some img =>
                if create_raises env p then st'
                else with_files (<[p := img]> (files st')) st'
            | None => st'
            end)) as Hnf.
  { intros draw' st' Hdir Hcr Hstat. unfold get_placeholder_path, path_exists.
    rewrite Hdir. fold dir. fold p. by rewrite Hcr, Hstat. }
  split.
  { subst r. unfold get_placeholder_path. fold dir. fold p.
    intros [Hcr|Hstat]; [by rewrite Hcr|].
    destruct (create_raises env (Pathlib.str dir)); [done|]. by rewrite Hstat. }
  split.
  { intros Hcr Hstat. subst r. rewrite (Hnf draw st eq_refl Hcr Hstat). cbn [fst snd].
    split; [done|]. split.
    { intros draw' Hex. rewrite (Hnf draw' st eq_refl Hcr Hstat).
      by rewrite bool_decide_true. }
    case_bool_decide as Hex.
    - split; [intros Hn; rewrite Hn in Hex; by destruct Hex|].
      rewrite (Hnf draw st eq_refl Hcr Hstat). by rewrite bool_decide_true.
    - assert (files st !! p = None) as Hn.
      { destruct (files st !! p) eqn:E; [|done]. destruct Hex. eauto. }
      destruct (draw size) as [img|] eqn:Hdraw.
      + destruct (create_raises env p) eqn:Hcp.
        * split; [done|]. rewrite (Hnf draw st eq_refl Hcr Hstat).
          rewrite bool_decide_false by done. by rewrite Hdraw.
        * split; [intros _; apply lookup_insert_eq|].
          rewrite (Hnf draw (with_files (<[p := img]> (files st)) st) eq_refl Hcr Hstat).
          cbn [files with_files].
          rewrite bool_decide_true; [done|]. rewrite lookup_insert_eq. eauto.
      + split; [intros _; by destruct (create_raises env p)|].
        rewrite (Hnf draw st eq_refl Hcr Hstat).
        rewrite bool_decide_false by done. by rewrite Hdraw. }
  subst r. unfold get_placeholder_path. fold dir. fold p. fold size. unfold path_exists.
  split.
  { intros Hslash. subst p dir. unfold path_join.
    rewrite (truediv_plain _ "placeholders") by done.
    rewrite truediv_plain.
    - cbn [Pathlib.root Pathlib.parts]. rewrite str_snoc; [done|].
      by destruct (Pathlib.parts _).
    - split; [|done]. clear -Hslash.
      change (has_slash ("placeholder_" +:+ size_type +:+ ".webp"))
        with (has_slash (size_type +:+ ".webp")).
      induction size_type as [|a t IH]; [done|]. rewrite append_cons. cbn [has_slash] in *.
      apply orb_false_iff in Hslash as [-> Ht]. by apply IH. }
  destruct (create_raises env (Pathlib.str dir)); [done|].
  destruct (stat_raises env p); [done|].
  case_bool_decide as Hex; [done|].
  destruct (draw size) as [img|]; [|done].
  destruct (create_raises env p); [done|]. cbn.
  split; [intros q Hq; by apply lookup_insert_ne|done].
Qed.

(** What [remove] does on a cache whose two structures agree. *)
Lemma remove_spec k c d :
  in_sync c →
  ∃ c' d',
    LRU.remove k (c, d) = (Ok (bool_decide (is_Some (cache_data c !! k))), (c', d'))
    ∧ in_sync c'
    ∧ cache_data c' = delete k (cache_data c)
    ∧ d' ⊆ d
    ∧ (∀ e, cache_data c !! k = Some e → d' !! file_path e = None).
Proof.
  intros Hs. pose proof (remove_in_sync k c d Hs) as [Hs' _].
  unfold LRU.remove in *.
  destruct (cache_data c !! k) as [e|] eqn:Hk.
  - destruct (od_del_Some k (cache_order c)) as [o Ho]; [apply Hs; eauto|].
    cbn in *. rewrite Ho in *. cbn in *.
    eexists _, _. split; [reflexivity|]. split; [done|]. split; [done|].
    split; [apply remove_if_exists_subseteq|].
    intros e' [= <-]. apply remove_if_exists_lookup.
  - exists c, d. split; [done|]. split; [done|].
    split; [by rewrite delete_id|]. split; [done|]. intros e [=].
Qed.

Lemma list_filter_iff_in {A} (P Q : A → Prop) `{!∀ x, Decision (P x), !∀ x, Decision (Q x)}
    (l : list A) :
  (∀ x, x ∈ l → P x ↔ Q x) → filter P l = filter Q l.
Proof.
  induction l as [|x l IH]; intros Hiff; [done|].
  rewrite !filter_cons. rewrite IH by (intros; apply Hiff; by right).
  destruct (decide (P x)) as [HP|HP], (decide (Q x)) as [HQ|HQ]; try done.
  - destruct HQ. apply Hiff; [left|done].
  - destruct HP. apply Hiff; [left|done].
Qed.

Lemma foldr_delete_comm {V} (rows : list (string * V)) k (m : gmap string CacheEntry) :
  foldr (fun kv m => delete kv.1 m) (delete k m) rows
  = delete k (foldr (fun kv m => delete kv.1 m) m rows).
Proof.
  induction rows as [|[k' row'] rows IH]; [done|]. cbn.
  rewrite IH. apply delete_delete.
Qed.

(** The loop of [cleanup_cache], on a cache whose two structures agree. *)
Lemma cleanup_rows_spec (rows : list (string * CacheEntry)) :
  ∀ n c d table,
    in_sync c →
    NoDup rows.*1 →
    ∃ c' d',
      cleanup_rows rows n (c, d) table
      = (Ok (n + Z.of_nat (length (filter (fun kv => is_Some (cache_data c !! kv.1)) rows))),
         (c', d'),
         foldr (fun kv m => delete kv.1 m) table rows)
      ∧ in_sync c'
      ∧ cache_data c' = foldr (fun kv m => delete kv.1 m) (cache_data c) rows
      ∧ d' ⊆ d
      ∧ (∀ k e, k ∈ rows.*1 → cache_data c !! k = Some e → d' !! file_path e = None).
Proof.
  induction rows as [|[k row] rows IH]; intros n c d table Hs Hnd.
  - exists c, d. cbn. rewrite Z.add_0_r. split; [done|]. split; [done|].
    split; [done|]. split; [done|]. intros k e Hk. by apply elem_of_nil in Hk.
  - cbn [fmap list_fmap fst] in Hnd. apply NoDup_cons in Hnd as [Hk Hnd].
    destruct (remove_spec k c d Hs) as (c1 & d1 & Hrm & Hs1 & Hdat1 & Hsub1 & Hfile1).
    cbn [cleanup_rows]. rewrite Hrm.
    destruct (IH (if bool_decide (is_Some (cache_data c !! k)) then n + 1 else n)
                c1 d1 (delete k table) Hs1 Hnd)
      as (c' & d' & Hrun & Hs' & Hdat' & Hsub' & Hfile').
    exists c', d'. rewrite Hrun.
    pose proof (fun m => foldr_delete_comm rows k m) as Hcomm.
    assert (filter (fun kv => is_Some (cache_data c1 !! kv.1)) rows
            = filter (fun kv => is_Some (cache_data c !! kv.1)) rows) as Hfilter.
    { apply list_filter_iff_in. intros [j rj] Hj. cbn.
      rewrite Hdat1, lookup_delete_ne; [done|].
      intros ->. apply Hk. apply list_elem_of_fmap. by exists (j, rj). }
    split.
    { f_equal; [f_equal|].
      - f_equal. rewrite Hfilter. rewrite filter_cons. cbn [fst].
        case_bool_decide as Hin.
        + rewrite decide_True by done. cbn [length]. lia.
        + rewrite decide_False by done. lia.
      - cbn [foldr fst]. apply Hcomm. }
    split; [done|]. split.
    { rewrite Hdat', Hdat1. cbn [foldr fst]. apply Hcomm. }
    split; [by etrans|].
    intros j e Hj He. cbn [fmap list_fmap fst] in Hj.
    apply elem_of_cons in Hj as [->|Hj].
    + eapply lookup_weaken_None; [|exact Hsub']. by apply Hfile1.
    + destruct (decide (j = k)) as [->|Hne].
      * eapply lookup_weaken_None; [|exact Hsub']. by apply Hfile1.
      * apply (Hfile' j e Hj). by rewrite Hdat1, lookup_delete_ne.
Qed.

Lemma foldr_delete_lookup {V} (rows : list (string * V)) (m : gmap string CacheEntry) j :
  foldr (fun kv m => delete kv.1 m) m rows !! j
  = if bool_decide (j ∈ rows.*1) then None else m !! j.
Proof.
  induction rows as [|[k row] rows IH]; cbn [foldr fst].
  - by rewrite bool_decide_false by apply not_elem_of_nil.
  - cbn [fmap list_fmap fst]. destruct (decide (j = k)) as [->|Hne].
    + rewrite lookup_delete_eq. rewrite bool_decide_true; [done|]. left.
    + rewrite lookup_delete_ne by done. rewrite IH.
      rewrite (bool_decide_ext (j ∈ k :: rows.*1) (j ∈ rows.*1)); [done|].
      rewrite elem_of_cons. naive_solver.
Qed.

End ImageCacheHousekeeping.

Section ImageCacheCleanup.

Import ImageCache.

Implicit Types (st : ImageCacheState).

(** [timedelta(days=d)] and the subtraction succeed exactly when [d] is
    within 999999999 days and the cutoff is a [datetime]. *)
Lemma datetime_minus_days (now days : Z) :
  datetime_minus now (days * 86400)
  = if bool_decide (-999999999 ≤ days ≤ 999999999
                    ∧ datetime_min ≤ now - days * 86400 ≤ datetime_max)
    then Some (now - days * 86400) else None.
Proof.
  unfold datetime_minus, timedelta_ok. rewrite Z.div_mul by done.
  repeat case_bool_decide; cbn; try done; naive_solver.
Qed.

(** X13. [cleanup_cache] computes its cutoff, [now - max_age_days] days,
    before its [try]: when [max_age_days] is beyond the 999999999 days of a
    [timedelta], or the cutoff is not a [datetime], the [OverflowError]
    leaves the method and nothing is changed. Otherwise, on a cache whose
    two structures agree, it deletes from the table exactly the rows whose
    [last_accessed] is before the cutoff and keeps every other row as it is.
    The keys of the deleted rows leave the LRU cache, with the files of
    their entries; every other key keeps its entry, no file is created, and
    the number returned counts the deleted rows whose key the LRU cache
    held. The age is read from the row of the table, not from the entry in
    memory. *)
Theorem X13_cleanup_deletes_the_old_rows (now max_age_days : Z) st :
  in_sync (lru_cache st) →
  let cutoff := now - max_age_days * 86400 in
  let in_range :=
    -999999999 ≤ max_age_days ≤ 999999999 ∧ datetime_min ≤ cutoff ≤ datetime_max in
  let old k := ∃ row, image_cache_table st !! k = Some row ∧ last_accessed row < cutoff in
  let r := cleanup_cache now max_age_days st in
  (¬ in_range → r = (Raise OverflowError, st))
  ∧ (in_range →
       image_cache_table r.2
       = filter (fun kv => ¬ last_accessed kv.2 < cutoff) (image_cache_table st)
       ∧ (∀ k, old k → cache_data (lru_cache r.2) !! k = None)
       ∧ (∀ k, ¬ old k → cache_data (lru_cache r.2) !! k = cache_data (lru_cache st) !! k)
       ∧ (∀ k e, old k → cache_data (lru_cache st) !! k = Some e →
            files r.2 !! file_path e = None)
       ∧ files r.2 ⊆ files st
       ∧ r.1 = Ok (Z.of_nat
                     (length (filter (fun kv => is_Some (cache_data (lru_cache st) !! kv.1))
                                (old_entries cutoff (image_cache_table st)))))
       ∧ in_sync (lru_cache r.2)).
Proof.
  intros Hs cutoff in_range old r. subst r. unfold cleanup_cache.
  rewrite datetime_minus_days. fold cutoff. fold in_range.
  split; [intros Hout; by rewrite bool_decide_false|].
  intros Hin. rewrite bool_decide_true by done.
  assert (∀ k, k ∈ (old_entries cutoff (image_cache_table st)).*1 ↔ old k) as Hold.
  { intros k. unfold old_entries, old. rewrite list_elem_of_fmap. split.
    - intros ([k' row] & -> & Hin'). apply elem_of_map_to_list in Hin'.
      apply map_lookup_filter_Some in Hin' as [Hrow Hlt]. by exists row.
    - intros (row & Hrow & Hlt). exists (k, row). split; [done|].
      apply elem_of_map_to_list. by apply map_lookup_filter_Some. }
  destruct (cleanup_rows_spec (old_entries cutoff (image_cache_table st)) 0
              (lru_cache st) (files st) (image_cache_table st) Hs)
    as (c' & d' & Hrun & Hs' & Hdat & Hsub & Hfile).
  { apply NoDup_fst_map_to_list. }
  unfold world. rewrite Hrun. cbn [fst snd image_cache_table lru_cache files].
  split_and!.
  - apply map_eq. intros k. rewrite foldr_delete_lookup. apply option_eq. intros row.
    rewrite map_lookup_filter_Some. cbn. case_bool_decide as Hin'.
    + apply Hold in Hin' as (row' & Hrow' & Hlt). split; [done|].
      intros [Hrow Hge]. rewrite Hrow in Hrow'. injection Hrow' as <-. done.
    + split; [|by intros [? ?]]. intros Hrow. split; [done|].
      intros Hlt. apply Hin', Hold. by exists row.
  - intros k Hk. rewrite Hdat, foldr_delete_lookup.
    rewrite bool_decide_true; [done|]. by apply Hold.
  - intros k Hk. rewrite Hdat, foldr_delete_lookup.
    rewrite bool_decide_false; [done|]. by rewrite Hold.
  - intros k e Hk He. apply (Hfile k e); [by apply Hold|done].
  - done.
  - f_equal; lia.
  - done.
Qed.

End ImageCacheCleanup.

Lemma X13_witness :
  let cutoff := 40 * 86400 - 30 * 86400 in
  let in_range := -999999999 ≤ 30 ≤ 999999999 ∧ datetime_min ≤ cutoff ≤ datetime_max in
  let old k := ∃ row, image_cache_table aged_image_cache !! k = Some row
                      ∧ last_accessed row < cutoff in
  let r := cleanup_cache (40 * 86400) 30 aged_image_cache in
  (¬ in_range → r = (Raise OverflowError, aged_image_cache))
  ∧ (in_range →
       image_cache_table r.2
       = filter (fun kv => ¬ last_accessed kv.2 < cutoff) (image_cache_table aged_image_cache)
       ∧ (∀ k, old k → cache_data (lru_cache r.2) !! k = None)
       ∧ (∀ k, ¬ old k →
            cache_data (lru_cache r.2) !! k = cache_data (lru_cache aged_image_cache) !! k)
       ∧ (∀ k e, old k → cache_data (lru_cache aged_image_cache) !! k = Some e →
            files r.2 !! file_path e = None)
       ∧ files r.2 ⊆ files aged_image_cache
       ∧ r.1 = Ok (Z.of_nat
                     (length
                        (filter
                           (fun kv => is_Some (cache_data (lru_cache aged_image_cache) !! kv.1))
                           (old_entries cutoff (image_cache_table aged_image_cache)))))
       ∧ in_sync (lru_cache r.2)).
Proof.
  apply (X13_cleanup_deletes_the_old_rows (40 * 86400) 30 aged_image_cache).
  apply (put_in_sync _ stored_detail_entry (LRU.init 1000) ∅), init_in_sync.
Defined.

(** ** [ImageCache.__init__] and [ImageCache._load_cache_from_database] *)

Section ImageCacheLoad.

Import ImageCache.

Implicit Types (st : ImageCacheState) (c : LRUCache) (d : Disk)
  (table : gmap string CacheEntry).

Lemma subseteq_delete_absent table (m : gmap string CacheEntry) k :
  m ⊆ table → m !! k = None → m ⊆ delete k table.
Proof.
  intros Hsub Hk. apply map_subseteq_spec. intros j e Hj.
  rewrite lookup_delete_ne by congruence.
  by apply (lookup_weaken _ _ _ _ Hj).
Qed.

(** The loop of [_load_cache_from_database] over rows of distinct keys that
    the cache does not hold yet. *)
Lemma load_cache_rows_spec (rows : list (string * CacheEntry)) :
  ∀ n c d table,
    in_sync c → size_ok c →
    NoDup rows.*1 →
    (∀ k, k ∈ rows.*1 → cache_data c !! k = None) →
    cache_data c ⊆ table →
    (∀ k row, (k, row) ∈ rows → table !! k = Some row) →
    ∃ n' c' d' table',
      load_cache_rows rows n (c, d) table = (Ok n', (c', d'), table')
      ∧ in_sync c' ∧ size_ok c'
      ∧ max_size_bytes c' = max_size_bytes c
      ∧ d' ⊆ d
      ∧ table' ⊆ table
      ∧ cache_data c' ⊆ table'
      ∧ (∀ k, k ∉ rows.*1 → table' !! k = table !! k)
      ∧ (∀ k row, (k, row) ∈ rows → d !! file_path row = None → table' !! k = None)
      ∧ (∀ k row, (k, row) ∈ rows → table' !! k = None → d' !! file_path row = None)
      ∧ n ≤ n' ≤ n + Z.of_nat (length rows).
Proof.
  induction rows as [|[k row] rows IH]; intros n c d table Hs Hsz Hnd Hfresh Hsub Hrows.
  - exists n, c, d, table. cbn. split_and!; try done; try lia.
    + intros k row Hin. by apply elem_of_nil in Hin.
    + intros k row Hin. by apply elem_of_nil in Hin.
  - cbn [fmap list_fmap fst] in Hnd, Hfresh. apply NoDup_cons in Hnd as [Hk Hnd].
    assert (table !! k = Some row) as Hrow by (apply Hrows; left).
    assert (∀ j rj, (j, rj) ∈ rows → j ≠ k) as Hne.
    { intros j rj Hin ->. apply Hk. apply list_elem_of_fmap. by exists (k, rj). }
    cbn [load_cache_rows fst snd]. unfold path_exists. case_bool_decide as Hex.
    + destruct (put_spec k row c d Hs)
        as (m & c2 & d2 & Hs2 & _ & Hdat2 & Hmax2 & _ & Hd2 & Hsz2 & _ & _ & Heq).
      pose proof (put_in_sync k row c d Hs) as [Hs3 _].
      pose proof (put_size_ok k row c d Hsz) as Hsz3.
      assert (cache_data c2 ⊆ table) as Hsub2.
      { etrans; [exact Hdat2|]. etrans; [apply delete_subseteq|done]. }
      assert (∀ j, j ∈ rows.*1 → cache_data c2 !! j = None) as Hfresh2.
      { intros j Hj. eapply lookup_weaken_None; [|exact Hdat2].
        rewrite lookup_delete_ne.
        - apply Hfresh. by right.
        - intros ->. done. }
      set (stored := negb (bool_decide (file_size row > max_size_bytes c))).
      assert (∃ c3, LRU.put k row (c, d) = (Ok stored, (c3, d2))
                    ∧ in_sync c3 ∧ size_ok c3 ∧ max_size_bytes c3 = max_size_bytes c
                    ∧ cache_data c3 ⊆ table
                    ∧ ∀ j, j ∈ rows.*1 → cache_data c3 !! j = None)
        as (c3 & Hput & Hs3' & Hsz3' & Hmax3 & Hsub3 & Hfresh3).
      { rewrite Heq in Hs3, Hsz3 |- *. subst stored. case_bool_decide; cbn in *.
        - exists c2. by split_and!.
        - eexists. split; [reflexivity|]. split_and!; try done.
          + cbn. by apply insert_subseteq_l.
          + intros j Hj. cbn. rewrite lookup_insert_ne; [by apply Hfresh2|].
            intros ->. done. }
      rewrite Hput.
      destruct (IH (if stored then n + 1 else n) c3 d2 table Hs3' Hsz3' Hnd Hfresh3 Hsub3)
        as (n' & c' & d' & table' & Hrun & Hs' & Hsz' & Hmax' & Hd' & Ht' & Hdat' & Hout
            & Hmiss & Hgone & Hn').
      { intros j rj Hin. apply Hrows. by right. }
      exists n', c', d', table'. rewrite Hrun. split_and!; try done.
      * congruence.
      * by etrans.
      * intros j Hj. apply not_elem_of_cons in Hj as [_ Hj]. by apply Hout.
      * intros j rj Hin Hno. apply elem_of_cons in Hin as [[= -> ->]|Hin].
        -- rewrite Hno in Hex. by destruct Hex.
        -- apply (Hmiss j rj Hin). by eapply lookup_weaken_None.
      * intros j rj Hin Hno. apply elem_of_cons in Hin as [[= -> ->]|Hin].
        -- rewrite Hout, Hrow in Hno by done. done.
        -- by apply (Hgone j rj).
      * destruct stored; cbn [length]; lia.
      * destruct stored; cbn [length]; lia.
    + assert (d !! file_path row = None) as Hno.
      { destruct (d !! file_path row) eqn:E; [|done]. destruct Hex. eauto. }
      destruct (IH n c d (delete k table) Hs Hsz Hnd)
        as (n' & c' & d' & table' & Hrun & Hs' & Hsz' & Hmax' & Hd' & Ht' & Hdat' & Hout
            & Hmiss & Hgone & Hn').
      { intros j Hj. apply Hfresh. by right. }
      { apply subseteq_delete_absent; [done|]. apply Hfresh. left. }
      { intros j rj Hin. rewrite lookup_delete_ne.
        - apply Hrows. by right.
        - intros ->. by apply (Hne j rj). }
      exists n', c', d', table'. rewrite Hrun. split_and!; try done.
      * etrans; [exact Ht'|apply delete_subseteq].
      * intros j Hj. apply not_elem_of_cons in Hj as [Hjk Hj].
        rewrite Hout by done. by apply lookup_delete_ne.
      * intros j rj Hin Hnone. apply elem_of_cons in Hin as [[= -> ->]|Hin].
        -- rewrite Hout by done. apply lookup_delete_eq.
        -- by apply (Hmiss j rj).
      * intros j rj Hin Hnone. apply elem_of_cons in Hin as [[= -> ->]|Hin].
        -- by eapply lookup_weaken_None.
        -- by apply (Hgone j rj).
      * lia.
      * cbn [length]. lia.
Qed.

Lemma rows_by_last_accessed_desc_elem table k row :
  (k, row) ∈ rows_by_last_accessed_desc table ↔ table !! k = Some row.
Proof.
  unfold rows_by_last_accessed_desc. rewrite merge_sort_Permutation.
  apply elem_of_map_to_list.
Qed.

Lemma rows_by_last_accessed_desc_NoDup table :
  NoDup (rows_by_last_accessed_desc table).*1.
Proof.
  unfold rows_by_last_accessed_desc. rewrite merge_sort_Permutation.
  apply NoDup_fst_map_to_list.
Qed.

(** X14. A start of [ImageCache] keeps the rows of the table whose file it
    found, and deletes the others: the table only loses rows, a row whose
    file is not on the disk is deleted, and the file of a deleted row is not
    on the disk afterwards. Every entry the LRU cache then holds is a row of
    the table, unchanged; no file is created; the running total is the sum
    of the stored sizes and the two structures of the LRU cache agree. *)
Theorem X14_start_drops_rows_without_file
    (dir : string) (max_cache_size : Z) (disk : Disk) table :
  let st := ImageCache_init dir max_cache_size disk table in
  image_cache_table st ⊆ table
  ∧ (∀ k row, table !! k = Some row → disk !! file_path row = None →
       image_cache_table st !! k = None)
  ∧ (∀ k row, table !! k = Some row → image_cache_table st !! k = None →
       files st !! file_path row = None)
  ∧ cache_data (lru_cache st) ⊆ image_cache_table st
  ∧ files st ⊆ disk
  ∧ in_sync (lru_cache st) ∧ size_ok (lru_cache st)
  ∧ max_size_bytes (lru_cache st) = max_cache_size
  ∧ cache_dir st = dir.
Proof.
  intros st. subst st. unfold ImageCache_init, _load_cache_from_database, world.
  cbn [image_cache_table lru_cache files cache_dir].
  destruct (load_cache_rows_spec (rows_by_last_accessed_desc table) 0
              (LRU.init max_cache_size) disk table)
    as (n' & c' & d' & table' & Hrun & Hs' & Hsz' & Hmax' & Hd' & Ht' & Hdat' & Hout
        & Hmiss & Hgone & Hn').
  - apply init_in_sync.
  - unfold size_ok, LRU.stored_bytes. cbn. by rewrite map_fold_empty.
  - apply rows_by_last_accessed_desc_NoDup.
  - intros k _. apply lookup_empty.
  - apply map_empty_subseteq.
  - intros k row. apply rows_by_last_accessed_desc_elem.
  - rewrite Hrun. cbn [fst snd image_cache_table lru_cache files cache_dir].
    split_and!; try done.
    + intros k row Hrow. apply (Hmiss k row). by apply rows_by_last_accessed_desc_elem.
    + intros k row Hrow. apply (Hgone k row). by apply rows_by_last_accessed_desc_elem.
Qed.

End ImageCacheLoad.

Section ImageCacheReload.

Import ImageCache.

Implicit Types (st : ImageCacheState) (c : LRUCache) (d : Disk)
  (table : gmap string CacheEntry).

#[local] Abbreviation rows_bytes :=
  (foldr (uncurry (fun (_ : string) (entry : CacheEntry) acc => file_size entry + acc)) 0).

Lemma rows_bytes_nonneg (rows : list (string * CacheEntry)) :
  (∀ k row, (k, row) ∈ rows → 0 ≤ file_size row) → 0 ≤ rows_bytes rows.
Proof.
  induction rows as [|[k row] rows IH]; intros Hpos; cbn; [done|].
  assert (0 ≤ file_size row) by (apply (Hpos k); left).
  assert (0 ≤ rows_bytes rows) by (apply IH; intros; eapply Hpos; by right).
  lia.
Qed.

(** The loop of [_load_cache_from_database] when every file is there and
    all rows fit together: each row is appended, nothing is evicted. *)
Lemma load_cache_rows_all_fit (rows : list (string * CacheEntry)) :
  ∀ n c d table,
    NoDup rows.*1 →
    (∀ k, k ∈ rows.*1 → cache_data c !! k = None ∧ (k ∉ OD.keys (cache_order c))) →
    (∀ k row, (k, row) ∈ rows → is_Some (d !! file_path row) ∧ 0 ≤ file_size row) →
    0 ≤ current_size_bytes c →
    current_size_bytes c + rows_bytes rows ≤ max_size_bytes c →
    load_cache_rows rows n (c, d) table
    = (Ok (n + Z.of_nat (length rows)),
       (mkLRUCache (max_size_bytes c) (current_size_bytes c + rows_bytes rows)
          (cache_order c ++ ((fun kv => (kv.1, last_accessed kv.2)) <$> rows))
          (list_to_map rows ∪ cache_data c) (stats c), d),
       table).
Proof.
  induction rows as [|[k row] rows IH]; intros n c d table Hnd Hfresh Hrows Hcur Hfit.
  - cbn. rewrite !Z.add_0_r, app_nil_r, (left_id_L ∅ (∪)). by destruct c.
  - cbn [fmap list_fmap fst] in Hnd, Hfresh. apply NoDup_cons in Hnd as [Hk Hnd].
    destruct (Hrows k row) as [Hex Hpos]; [left|].
    assert (0 ≤ rows_bytes rows) as Hrest.
    { apply rows_bytes_nonneg. intros j rj Hin. eapply Hrows. by right. }
    destruct (Hfresh k) as [Hk1 Hk2]; [left|].
    cbn [foldr uncurry fst snd] in Hfit.
    cbn [load_cache_rows fst snd]. unfold path_exists. rewrite bool_decide_true by done.
    rewrite put_fits by (done || lia).
    rewrite IH; cbn [max_size_bytes current_size_bytes cache_order cache_data stats].
    + f_equal. f_equal.
      * f_equal. cbn [length]. lia.
      * f_equal. f_equal.
        -- cbn [foldr uncurry fst snd]. lia.
        -- by rewrite <- app_assoc.
        -- cbn [list_to_map foldr uncurry fst snd].
           rewrite <- insert_union_r by (by apply not_elem_of_list_to_map_1).
           by rewrite <- insert_union_l.
    + done.
    + intros j Hj. destruct (Hfresh j) as [Hj1 Hj2]; [by right|].
      assert (j ≠ k) by (intros ->; done).
      split; [by rewrite lookup_insert_ne|].
      rewrite od_keys_app, elem_of_app. cbn. rewrite list_elem_of_singleton.
      intros [?|?]; done.
    + intros j rj Hin. apply (Hrows j rj). by right.
    + lia.
    + lia.
Qed.

#[local] Instance newer_row_first_total : Total newer_row_first.
Proof. intros x y. unfold newer_row_first. lia. Qed.

#[local] Instance newer_row_first_trans : Transitive newer_row_first.
Proof. intros x y z. unfold newer_row_first. lia. Qed.

(** X15. When every row of the table has its file on disk, no size is
    negative and the sizes add up to at most [max_cache_size], a start of
    [ImageCache] loads every row and changes neither table nor disk. The
    rows are put in the order of the query, newest [last_accessed] first, so
    [cache_order] runs from the most recently accessed key to the least
    recently accessed one: the key at its head, which [_evict_lru] takes
    first, is a row whose [last_accessed] no other row exceeds. *)
Theorem X15_start_orders_newest_first
    (dir : string) (max_cache_size : Z) (disk : Disk) table :
  (∀ k row, table !! k = Some row → is_Some (disk !! file_path row) ∧ 0 ≤ file_size row) →
  LRU.stored_bytes table ≤ max_cache_size →
  let st := ImageCache_init dir max_cache_size disk table in
  cache_data (lru_cache st) = table
  ∧ image_cache_table st = table
  ∧ files st = disk
  ∧ current_size_bytes (lru_cache st) = LRU.stored_bytes table
  ∧ StronglySorted (fun a b => b.2 ≤ a.2) (cache_order (lru_cache st))
  ∧ (∀ k row, table !! k = Some row → (k, last_accessed row) ∈ cache_order (lru_cache st))
  ∧ (∀ k row k' row',
       OD.first_key (cache_order (lru_cache st)) = Some k →
       table !! k = Some row → table !! k' = Some row' →
       last_accessed row' ≤ last_accessed row).
Proof.
  intros Hrows Hfit st. subst st.
  unfold ImageCache_init, _load_cache_from_database, world.
  cbn [image_cache_table lru_cache files cache_dir].
  set (rows := rows_by_last_accessed_desc table).
  assert (rows ≡ₚ map_to_list table) as Hperm by apply merge_sort_Permutation.
  assert (rows_bytes rows = LRU.stored_bytes table) as Hsum.
  { unfold LRU.stored_bytes. rewrite map_fold_foldr.
    apply (foldr_permutation (=)); try apply _; try done.
    intros j1 [k1 r1] j2 [k2 r2] b _ _ _. cbn. lia. }
  assert (StronglySorted newer_row_first rows) as Hsorted.
  { apply StronglySorted_merge_sort; apply _. }
  rewrite (load_cache_rows_all_fit rows 0 (LRU.init max_cache_size) disk table); cbn.
  - assert (list_to_map rows = table) as Hmap.
    { rewrite (list_to_map_proper rows (map_to_list table)); [|..|done].
      - apply list_to_map_to_list.
      - apply rows_by_last_accessed_desc_NoDup. }
    split_and!.
    + by rewrite (right_id_L ∅ (∪)).
    + done.
    + done.
    + lia.
    + apply (StronglySorted_fmap _ newer_row_first); [|done]. by intros x y.
    + intros k row Hrow. apply list_elem_of_fmap. exists (k, row). split; [done|].
      by apply rows_by_last_accessed_desc_elem.
    + intros k row k' row' Hfirst Hrow Hrow'.
      apply rows_by_last_accessed_desc_elem in Hrow'. fold rows in Hrow'.
      assert (∀ k0 row0, (k0, row0) ∈ rows → table !! k0 = Some row0) as Hin_table.
      { intros k0 row0. apply rows_by_last_accessed_desc_elem. }
      clearbody rows.
      destruct rows as [|[k0 row0] rest]; [done|]. cbn in Hfirst. injection Hfirst as ->.
      assert (table !! k = Some row0) as Hrow0 by (apply Hin_table; left).
      rewrite Hrow in Hrow0. injection Hrow0 as <-.
      apply StronglySorted_inv in Hsorted as [_ Hall].
      apply elem_of_cons in Hrow' as [[= -> ->]|Hin]; [done|].
      rewrite Forall_forall in Hall. apply (Hall _ Hin).
  - apply rows_by_last_accessed_desc_NoDup.
  - intros k _. split; [apply lookup_empty|apply not_elem_of_nil].
  - intros k row Hin. apply (Hrows k row). by apply rows_by_last_accessed_desc_elem.
  - done.
  - lia.
Qed.

End ImageCacheReload.

Lemma X15_witness :
  let st := ImageCache_init "/cache" 1000 two_file_disk two_row_table in
  cache_data (lru_cache st) = two_row_table
  ∧ image_cache_table st = two_row_table
  ∧ files st = two_file_disk
  ∧ current_size_bytes (lru_cache st) = LRU.stored_bytes two_row_table
  ∧ StronglySorted (fun a b => b.2 ≤ a.2) (cache_order (lru_cache st))
  ∧ (∀ k row, two_row_table !! k = Some row →
       (k, last_accessed row) ∈ cache_order (lru_cache st))
  ∧ (∀ k row k' row',
       OD.first_key (cache_order (lru_cache st)) = Some k →
       two_row_table !! k = Some row → two_row_table !! k' = Some row' →
       last_accessed row' ≤ last_accessed row).
Proof.
  apply (X15_start_orders_newest_first "/cache" 1000 two_file_disk two_row_table).
  - intros k row Hrow. unfold two_row_table in Hrow.
    apply lookup_insert_Some in Hrow as [[<- <-]|[_ Hrow]];
      [|apply lookup_singleton_Some in Hrow as [<- <-]].
    + split; [vm_compute; eauto|vm_compute; discriminate].
    + split; [vm_compute; eauto|vm_compute; discriminate].
  - vm_compute. discriminate.
Defined.

(** ** [ImageCache.clear_cache] and runs of [ImageCache] *)

Section ImageCacheClear.

Import ImageCache.

Implicit Types (st : ImageCacheState) (c : LRUCache) (d : Disk) (s p : string).

Lemma strip_prefix_app p s : strip_prefix p (p +:+ s) = Some s.
Proof.
  induction p as [|a p IH]; [rewrite append_nil; by destruct s|].
  rewrite append_cons. cbn. by rewrite decide_True.
Qed.

Lemma strip_prefix_Some p s r : strip_prefix p s = Some r → s = p +:+ r.
Proof.
  revert s. induction p as [|a p IH]; intros s; cbn.
  - rewrite append_nil. destruct s; by intros [= <-].
  - destruct s as [|b s]; [done|]. case_decide; [|done]. subst.
    intros Hr. by rewrite (IH s Hr), append_cons.
Qed.

Lemma endswith_app s suffix : endswith suffix (s +:+ suffix) = true.
Proof.
  induction s as [|a s IH].
  - rewrite append_nil. destruct suffix; cbn; by rewrite decide_True.
  - rewrite append_cons. cbn. by case_decide.
Qed.

Lemma has_slash_app (a b : string) : has_slash (a +:+ b) = has_slash a || has_slash b.
Proof.
  induction a as [|x a IH]; [by rewrite append_nil|].
  rewrite append_cons. cbn. by rewrite IH, orb_assoc.
Qed.

(** [glob('*.webp')] yields the direct children whose name ends in
    [.webp]. *)
Lemma is_webp_child_spec (dir p : string) :
  is_webp_child dir p = true
  ↔ ∃ name, p = dir +:+ "/" +:+ name ∧ has_slash name = false
            ∧ endswith ".webp" name = true.
Proof.
  unfold is_webp_child. split.
  - destruct (strip_prefix _ p) as [name|] eqn:Hname; [|done].
    intros [Hs He]%andb_true_iff. apply negb_true_iff in Hs.
    exists name. split; [|done].
    apply strip_prefix_Some in Hname. by rewrite Hname, string_append_assoc.
  - intros (name & -> & Hs & He).
    rewrite <- string_append_assoc, strip_prefix_app. by rewrite Hs, He.
Qed.

(** The path [get_image] stores an image under is one that [clear_cache]
    looks for, as long as the size type is a plain name and the key holds
    no slash (a hex digest holds none). *)
Lemma cache_file_is_webp_child st (key size_type : string) :
  plain_component size_type →
  has_slash key = false →
  is_webp_child (path_join (cache_dir st) size_type)
    (_get_cache_file_path st key size_type) = true.
Proof.
  intros Hty Hkey. apply is_webp_child_spec. exists (key +:+ ".webp").
  split; [by apply cache_file_path_plain|]. split; [|apply endswith_app].
  rewrite has_slash_app, Hkey. done.
Qed.

Lemma foldl_delete_lookup (ps : list string) d p :
  foldl (fun d p => delete p d) d ps !! p
  = if bool_decide (p ∈ ps) then None else d !! p.
Proof.
  revert d. induction ps as [|q ps IH]; intros d; cbn.
  - by rewrite bool_decide_false by apply not_elem_of_nil.
  - rewrite IH. destruct (decide (p = q)) as [->|Hne].
    + rewrite lookup_delete_eq. rewrite (bool_decide_true (q ∈ q :: ps)) by left.
      by case_bool_decide.
    + rewrite lookup_delete_ne by done.
      rewrite (bool_decide_ext (p ∈ q :: ps) (p ∈ ps)); [done|].
      rewrite elem_of_cons. naive_solver.
Qed.

Lemma unlink_webp_lookup d dir p :
  unlink_webp d dir !! p = if is_webp_child dir p then None else d !! p.
Proof.
  unfold unlink_webp, glob_webp. rewrite foldl_delete_lookup.
  case_bool_decide as Hin.
  - apply list_elem_of_filter in Hin as [-> _]. done.
  - destruct (is_webp_child dir p) eqn:Hc; [|done].
    destruct (d !! p) as [x|] eqn:Hp; [|done].
    destruct Hin. apply list_elem_of_filter. split; [done|].
    apply list_elem_of_fmap. exists (p, x). split; [done|].
    by apply elem_of_map_to_list.
Qed.

(** X16. [clear_cache] answers [True] and leaves an empty table and an
    empty LRU cache with the same budget and all counters at 0. Gone from
    the disk are the file of every entry the LRU cache held and every
    [*.webp] file directly in [cache_dir/thumbnails] or [cache_dir/detail],
    among them the path of every image stored for these two size types under
    a key without a slash; no other file is touched and none is created.
    Afterwards no request is answered from the cache. *)
Theorem X16_clear_cache_forgets_everything st :
  let r := clear_cache st in
  let swept p :=
    is_webp_child (path_join (cache_dir st) "thumbnails") p = true
    ∨ is_webp_child (path_join (cache_dir st) "detail") p = true in
  r.1 = true
  ∧ lru_cache r.2 = LRU.init (max_size_bytes (lru_cache st))
  ∧ image_cache_table r.2 = ∅
  ∧ cache_dir r.2 = cache_dir st
  ∧ (∀ k e, cache_data (lru_cache st) !! k = Some e → files r.2 !! file_path e = None)
  ∧ (∀ p, swept p → files r.2 !! p = None)
  ∧ (∀ key size_type,
       size_type = "thumbnails" ∨ size_type = "detail" → has_slash key = false →
       files r.2 !! _get_cache_file_path st key size_type = None)
  ∧ (∀ p, (∀ k e, cache_data (lru_cache st) !! k = Some e → file_path e ≠ p) →
          ¬ swept p → files r.2 !! p = files st !! p)
  ∧ files r.2 ⊆ files st
  ∧ (∀ env url size_type, ¬ served_from_cache env url size_type r.2).
Proof.
  intros r swept. subst r. unfold clear_cache, world, LRU.clear.
  cbn [fst snd foldl lru_cache files image_cache_table cache_dir].
  set (d1 := map_fold _ (files st) (cache_data (lru_cache st))).
  destruct (clear_files (files st) (cache_data (lru_cache st))) as [Hgone Hkept].
  fold d1 in Hgone, Hkept.
  set (d3 := unlink_webp (unlink_webp d1 _) _).
  assert (∀ p, d3 !! p = if is_webp_child (path_join (cache_dir st) "detail") p then None
                         else if is_webp_child (path_join (cache_dir st) "thumbnails") p
                              then None else d1 !! p) as Hd3.
  { intros p. subst d3. by rewrite !unlink_webp_lookup. }
  assert (∀ p, swept p → d3 !! p = None) as Hswept.
  { intros p [Hp|Hp]; rewrite Hd3, Hp; by repeat case_match. }
  assert (∀ p x, d3 !! p = Some x → d1 !! p = Some x) as Hsub31.
  { intros p x. rewrite Hd3. by repeat case_match. }
  assert (d1 ⊆ files st) as Hsub1.
  { subst d1. apply (map_fold_weak_ind (fun d' _ => d' ⊆ files st)); [done|].
    intros i x m r _ Hr. etrans; [apply remove_if_exists_subseteq|done]. }
  split_and!; try done.
  - intros k e He. specialize (Hgone k e He).
    destruct (d3 !! file_path e) as [x|] eqn:Hx; [|done].
    apply Hsub31 in Hx. congruence.
  - intros key size_type Hsize Hkey. apply Hswept.
    destruct Hsize as [-> | ->]; [left|right]; by apply cache_file_is_webp_child.
  - intros p Hp Hns. rewrite Hd3.
    destruct (is_webp_child (path_join (cache_dir st) "detail") p) eqn:H1;
      [destruct Hns; by right|].
    destruct (is_webp_child (path_join (cache_dir st) "thumbnails") p) eqn:H2;
      [destruct Hns; by left|].
    by apply Hkept.
  - apply map_subseteq_spec. intros p x Hx. apply Hsub31 in Hx.
    by apply (lookup_weaken _ _ _ _ Hx).
  - intros env url size_type (entry & Hentry & _). cbn in Hentry.
    by rewrite lookup_empty in Hentry.
Qed.

End ImageCacheClear.

Section ImageCacheRuns.

Import ImageCache.

Implicit Types (st : ImageCacheState) (c : LRUCache) (d : Disk) (env : ImageEnv).











End ImageCacheRuns.

(** ** More on [SelectionHistory] *)

Section HistoryFacts.

Import History.

Implicit Types (h : SelectionHistory) (s : Selection) (sels : list Selection).

Lemma deque_append_drop {A} (maxlen : nat) (x : A) (l : list A) :
  deque_append maxlen x (drop (length l - maxlen) l)
  = drop (length (l ++ [x]) - maxlen) (l ++ [x]).
Proof.
  unfold deque_append.
  rewrite <- (drop_app_le l [x]) by lia.
  rewrite drop_drop. f_equal. rewrite !length_drop, !length_app. cbn. lia.
Qed.

Lemma deque_append_length {A} (maxlen : nat) (x : A) (l : list A) :
  (length (deque_append maxlen x l) ≤ maxlen)%nat.
Proof. unfold deque_append. rewrite length_drop, length_app. cbn. lia. Qed.

(** The genres that [add_selection] appends to [genre_history]. *)
Lemma primary_genres_snoc sels s :
  omap appended_genre (sels ++ [s])
  = omap appended_genre sels ++ match appended_genre s with Some g => [g] | None => [] end.
Proof. rewrite omap_app. cbn. by destruct (appended_genre s). Qed.

(** X18. The three deques of [SelectionHistory] are bounded queues: after
    any sequence of [add_selection] calls on a new history of size
    [max_size], whether they return or raise, [selections] holds the last
    [max_size] selections added, in the order they were added,
    [artist_history] the artists of the last 5 selections on which the call
    returned, and [genre_history] the first genre of the last 10 selections
    that had one. [get_recent_genres(count)] with a positive [count] then
    gives the last [count] of these, at most 10. A call raises only on
    genres that are a true value without item 0, never on a list, whose
    first genre is its head. *)
Theorem X18_history_keeps_the_newest (n : nat) sels :
  let h := foldl (fun h s => (add_selection s h).2) (History.init n) sels in
  let primary := omap appended_genre sels in
  let returned := filter (fun s => add_selection_raises s = false) sels in
  selections h = drop (length sels - n) sels
  ∧ artist_history h = drop (length returned - 5) (sel_artist <$> returned)
  ∧ genre_history h = drop (length primary - 10) primary
  ∧ max_size h = n
  ∧ (length (selections h) ≤ n)%nat
  ∧ (length (artist_history h) ≤ 5)%nat
  ∧ (length (genre_history h) ≤ 10)%nat
  ∧ (∀ count, 0 < count →
       get_recent_genres count h
       = drop (length primary - Nat.min (Z.to_nat count) 10) primary)
  ∧ (∀ s l, sel_genres s = VList l →
       appended_genre s = head l ∧ add_selection_raises s = false)
  ∧ ((∀ s, s ∈ sels → ∃ l, sel_genres s = VList l) → returned = sels).
Proof.
  intros h primary returned.
  assert (∀ s l, sel_genres s = VList l →
            appended_genre s = head l ∧ add_selection_raises s = false) as Hlist.
  { intros s l Hl. unfold appended_genre, add_selection_raises. rewrite Hl.
    by destruct l. }
  assert (selections h = drop (length sels - n) sels
          ∧ artist_history h = drop (length returned - 5) (sel_artist <$> returned)
          ∧ genre_history h = drop (length primary - 10) primary
          ∧ max_size h = n) as (Hsel & Hart & Hgen & Hmax).
  { subst h primary returned. induction sels as [|s sels IH] using rev_ind; [done|].
    rewrite foldl_app. cbn [foldl].
    destruct IH as (IH1 & IH2 & IH3 & IH4).
    set (h := foldl _ (History.init n) sels) in *.
    rewrite primary_genres_snoc, filter_app.
    rewrite (filter_cons _ s), filter_nil.
    unfold add_selection, appended_genre, add_selection_raises.
    destruct (py_bool (sel_genres s)); [destruct (item_0 (sel_genres s)) as [g|]|];
      cbn [snd selections artist_history genre_history max_size andb];
      rewrite IH1, IH2, IH3, IH4.
    - rewrite bool_decide_false by done. rewrite decide_True by done. split_and!.
      + apply deque_append_drop.
      + rewrite fmap_app. cbn [fmap list_fmap].
        set (returned := filter _ sels).
        replace (length returned) with (length (sel_artist <$> returned))
          by apply length_fmap.
        rewrite deque_append_drop. by rewrite !length_app, !length_fmap.
      + apply deque_append_drop.
      + done.
    - rewrite bool_decide_true by done. rewrite decide_False by done. split_and!.
      + apply deque_append_drop.
      + by rewrite app_nil_r.
      + by rewrite app_nil_r.
      + done.
    - rewrite decide_True by done. split_and!.
      + apply deque_append_drop.
      + rewrite fmap_app. cbn [fmap list_fmap].
        set (returned := filter _ sels).
        replace (length returned) with (length (sel_artist <$> returned))
          by apply length_fmap.
        rewrite deque_append_drop. by rewrite !length_app, !length_fmap.
      + by rewrite app_nil_r.
      + done. }
  split_and!; try done.
  - rewrite Hsel, length_drop. lia.
  - rewrite Hart, length_drop, length_fmap. lia.
  - rewrite Hgen, length_drop. lia.
  - intros count Hcount. unfold get_recent_genres, last_slice.
    rewrite decide_False by lia. rewrite decide_True by done.
    rewrite Hgen, drop_drop, length_drop. f_equal. lia.
  - intros Hall. subst returned. clear -Hall Hlist.
    induction sels as [|s sels IH]; [done|].
    rewrite filter_cons. destruct (Hall s) as [l Hl]; [left|].
    destruct (Hlist s l Hl) as [_ Hok]. rewrite decide_True by done.
    f_equal. apply IH. intros s' Hs'. apply Hall. by right.
Qed.

End HistoryFacts.

(** ** More on [WeightCalculator] *)

Section WeightBounds.

Import WeightCalculator.
Local Open Scope Q_scope.

Implicit Types (cfg : AlgorithmConfig) (clock : Clock).

Lemma py_max_le (a b u : Q) : a <= u → b <= u → py_max a b <= u.
Proof. intros Ha Hb. unfold py_max. by destruct (Qle_bool b a). Qed.

Lemma inv_count_le_1 (z : Z) : (1 ≤ z)%Z → 1 / inject_Z z <= 1.
Proof.
  intros Hz. destruct z as [|p|p]; try lia.
  unfold Qle, Qdiv, Qmult, Qinv. cbn. lia.
Qed.

Lemma inv_count_le_eighth (z : Z) : (8 ≤ z)%Z → 1 / inject_Z z <= 1 # 8.
Proof.
  intros Hz. destruct z as [|p|p]; try lia.
  unfold Qle, Qdiv, Qmult, Qinv. cbn. lia.
Qed.

Lemma count_occ_Z_nonneg {A} `{EqDecision A} (x : A) (l : list A) :
  (0 ≤ count_occ_Z x l)%Z.
Proof. unfold count_occ_Z. lia. Qed.

Lemma count_occ_Z_elem {A} `{EqDecision A} (x : A) (l : list A) :
  x ∈ l ↔ (1 ≤ count_occ_Z x l)%Z.
Proof.
  unfold count_occ_Z. induction l as [|y l IH].
  - cbn. split; [by intros ?%elem_of_nil|lia].
  - rewrite filter_cons, elem_of_cons. case_decide; subst; cbn [length].
    + split; [lia|by left].
    + rewrite <- IH. naive_solver.
Qed.

(** X19. With a diversity bonus that is not negative, the genre factor lies
    between 0.1 and [1 + genre_diversity_weight] and is at most 1 as soon as
    the first genre is among the recent ones; the artist factor lies between
    0.05 and 1. One occurrence of the artist among the recent ones still
    gives the factor 1, the penalty starts with the second occurrence, from
    which on the factor is at most 1/8. *)
Theorem X19_diversity_factors_are_bounded cfg (genres recent_genres : list string)
    (artist : option string) (recent_artists : list (option string)) :
  0 <= genre_diversity_weight cfg →
  let g := calculate_genre_diversity_weight cfg genres recent_genres in
  let a := calculate_artist_diversity_weight artist recent_artists in
  (1 # 10) <= g ∧ g <= 1 + genre_diversity_weight cfg
  ∧ (5 # 100) <= a ∧ a <= 1
  ∧ (∀ p rest, genres = p :: rest → p ∈ recent_genres → g <= 1)
  ∧ (∀ x, artist = Some x → (count_occ_Z (Some x) recent_artists ≤ 1)%Z → a == 1)
  ∧ (∀ x, artist = Some x → x ≠ "" →
       (2 ≤ count_occ_Z (Some x) recent_artists)%Z → a <= 1 # 8).
Proof.
  intros Hw g a.
  assert (1 <= 1 + genre_diversity_weight cfg) as Hone.
  { rewrite <- (Qplus_0_r 1) at 1. by apply Qplus_le_r. }
  assert ((1 # 10) <= g ∧ g <= 1 + genre_diversity_weight cfg
          ∧ ∀ p rest, genres = p :: rest → p ∈ recent_genres → g <= 1)
    as (Hg1 & Hg2 & Hg3).
  { subst g. unfold calculate_genre_diversity_weight.
    destruct genres as [|p rest].
    { split; [done|]. split; [done|]. by intros. }
    case_decide as Hp.
    { split; [done|]. split; [done|]. by intros. }
    pose proof (count_occ_Z_nonneg p recent_genres) as Hc0.
    unfold genre_count_weight. case_decide as Hc.
    - split; [by apply (Qle_trans _ 1)|]. split; [apply Qle_refl|].
      intros p' rest' [= <- <-] Hin. apply count_occ_Z_elem in Hin. lia.
    - assert (py_max (1 # 10) (1 / inject_Z (count_occ_Z p recent_genres ^ 2)) <= 1) as Hle.
      { apply py_max_le; [done|]. apply inv_count_le_1. nia. }
      split; [apply py_max_floor|]. split; [by apply (Qle_trans _ 1)|]. by intros. }
  assert ((5 # 100) <= a ∧ a <= 1
          ∧ (∀ x, artist = Some x → (count_occ_Z (Some x) recent_artists ≤ 1)%Z → a == 1)
          ∧ (∀ x, artist = Some x → x ≠ "" →
               (2 ≤ count_occ_Z (Some x) recent_artists)%Z → a <= 1 # 8))
    as (Ha1 & Ha2 & Ha3 & Ha4).
  { subst a. unfold calculate_artist_diversity_weight.
    destruct artist as [x|].
    2:{ split; [done|]. split; [done|]. split; intros; done. }
    case_decide as Hx.
    { split; [done|]. split; [done|]. split; [by intros|]. by intros x' [= <-]. }
    pose proof (count_occ_Z_nonneg (Some x) recent_artists) as Hc0.
    case_decide as Hc.
    - split; [done|]. split; [done|]. split; [by intros|].
      intros x' [= <-] _ Hc2. lia.
    - split; [apply py_max_floor|]. split.
      { apply py_max_le; [done|]. apply inv_count_le_1. nia. }
      split.
      + intros x' [= <-] Hc1.
        assert (count_occ_Z (Some x) recent_artists = 1%Z) as -> by lia. done.
      + intros x' [= <-] _ Hc2. apply py_max_le; [done|]. apply inv_count_le_eighth.
        assert (2 ^ 3 ≤ count_occ_Z (Some x) recent_artists ^ 3)%Z
          by (apply Z.pow_le_mono_l; lia).
        lia. }
  done.
Qed.

Lemma boost_13 (w : Q) : 0 <= w → w <= w * (13 # 10).
Proof. destruct w as [a b]. unfold Qle, Qmult. cbn. nia. Qed.

Lemma boost_12 (w : Q) : 0 <= w → w <= w * (12 # 10) ∧ w * (12 # 10) <= w * (13 # 10).
Proof. destruct w as [a b]. unfold Qle, Qmult. cbn. nia. Qed.

(** X20. The seasonal and the time-of-day adjustment return the weight
    itself or the weight times a fixed boost, 1.3 for the season and 1.2 or
    1.3 for the time of day, whatever genre, month and hour: a weight that is
    not negative is never lowered and never raised beyond 1.3 times its
    value. With the option switched off or without genres the weight is
    returned as it is. *)
Theorem X20_adjustments_only_boost cfg clock (genres : list string) (w : Q) :
  0 <= w →
  let s := apply_seasonal_adjustment cfg clock genres w in
  let t := apply_time_based_adjustment cfg clock genres w in
  (s = w ∨ s = w * (13 # 10))
  ∧ (t = w ∨ t = w * (12 # 10) ∨ t = w * (13 # 10))
  ∧ (w <= s ∧ s <= w * (13 # 10))
  ∧ (w <= t ∧ t <= w * (13 # 10))
  ∧ (seasonal_adjustment cfg = false ∨ genres = [] → s = w)
  ∧ (time_based_preferences cfg = false ∨ genres = [] → t = w).
Proof.
  intros Hw s t.
  assert (s = w ∨ s = w * (13 # 10)) as Hs.
  { subst s. unfold apply_seasonal_adjustment. repeat case_match; auto. }
  assert (t = w ∨ t = w * (12 # 10) ∨ t = w * (13 # 10)) as Ht.
  { subst t. unfold apply_time_based_adjustment. repeat case_match; auto. }
  pose proof (boost_13 w Hw) as H13. pose proof (boost_12 w Hw) as [H12 H1213].
  split; [done|]. split; [done|]. split_and!.
  - destruct Hs as [-> | ->]; [apply Qle_refl|done].
  - destruct Hs as [-> | ->]; [done|apply Qle_refl].
  - destruct Ht as [-> | [-> | ->]]; [apply Qle_refl|done..].
  - destruct Ht as [-> | [-> | ->]]; [done|done|apply Qle_refl].
  - subst s. unfold apply_seasonal_adjustment. intros [Hoff | ->]; [|done].
    rewrite Hoff. by destruct genres.
  - subst t. unfold apply_time_based_adjustment. intros [Hoff | ->]; [|done].
    rewrite Hoff. by destruct genres.
Qed.

End WeightBounds.

Lemma X19_witness :
  let g := WeightCalculator.calculate_genre_diversity_weight default_config
             ["Jazz"] ["Jazz"; "Rock"] in
  let a := WeightCalculator.calculate_artist_diversity_weight (Some "Miles Davis")
             [Some "Miles Davis"; Some "Miles Davis"] in
  ((1 # 10) <= g ∧ g <= 1 + genre_diversity_weight default_config
   ∧ (5 # 100) <= a ∧ a <= 1
   ∧ (∀ p rest, ["Jazz"] = p :: rest → p ∈ ["Jazz"; "Rock"] → g <= 1)
   ∧ (∀ x, Some "Miles Davis" = Some x →
        (WeightCalculator.count_occ_Z (Some x) [Some "Miles Davis"; Some "Miles Davis"] ≤ 1)%Z →
        a == 1)
   ∧ (∀ x, Some "Miles Davis" = Some x → x ≠ "" →
        (2 ≤ WeightCalculator.count_occ_Z (Some x)
               [Some "Miles Davis"; Some "Miles Davis"])%Z →
        a <= 1 # 8))%Q.
Proof.
  apply (X19_diversity_factors_are_bounded default_config ["Jazz"] ["Jazz"; "Rock"]
           (Some "Miles Davis") [Some "Miles Davis"; Some "Miles Davis"]).
  vm_compute. discriminate.
Defined.

Lemma X20_witness :
  let s := WeightCalculator.apply_seasonal_adjustment default_config (mkClock 0 11 7)
             ["Jazz"] 1 in
  let t := WeightCalculator.apply_time_based_adjustment default_config (mkClock 0 11 7)
             ["Jazz"] 1 in
  ((s = 1 ∨ s = 1 * (13 # 10))
   ∧ (t = 1 ∨ t = 1 * (12 # 10) ∨ t = 1 * (13 # 10))
   ∧ (1 <= s ∧ s <= 1 * (13 # 10))
   ∧ (1 <= t ∧ t <= 1 * (13 # 10))
   ∧ (seasonal_adjustment default_config = false ∨ ["Jazz"] = [] → s = 1)
   ∧ (time_based_preferences default_config = false ∨ ["Jazz"] = [] → t = 1))%Q.
Proof.
  apply (X20_adjustments_only_boost default_config (mkClock 0 11 7) ["Jazz"] 1%Q).
  vm_compute. discriminate.
Defined.

(** ** More on [RandomAlgorithm] *)

Section RefreshFacts.

Import WeightCalculator Engine.

Implicit Types (m : MathLib) (st : RandomAlgorithm) (d : Database) (row : CacheRow).

Lemma weigh_album_fields m cfg clock avg rg ra recent album row :
  weigh_album m cfg clock avg rg ra recent album = Some row →
  ic_album_id row = a_id album ∧ ic_base_weight row = 1%Q
  ∧ ic_last_computed row = now clock ∧ ic_times_served row = 0 ∧ ic_last_served row = None
  ∧ a_id album ∉ recent.
Proof.
  unfold weigh_album. intros H. repeat case_match; try done.
  injection H as <-. cbn. split_and!; try done. by eapply bool_decide_eq_false_1.
Qed.

Lemma insert_rows_lookup (rows : list CacheRow) : ∀ k i row,
  insert_rows k rows !! i = Some row →
  ic_id row = k + Z.of_nat i
  ∧ ∃ r0, rows !! i = Some r0
          ∧ ic_album_id row = ic_album_id r0 ∧ ic_base_weight row = ic_base_weight r0
          ∧ ic_final_weight row = ic_final_weight r0
          ∧ ic_last_computed row = ic_last_computed r0
          ∧ ic_times_served row = ic_times_served r0
          ∧ ic_last_served row = ic_last_served r0.
Proof.
  induction rows as [|r rows IH]; intros k i row; [done|].
  destruct i as [|i]; cbn.
  - intros [= <-]. cbn. split; [lia|]. by exists r.
  - intros Hi. destruct (IH _ _ _ Hi) as [Hid Hr0]. split; [lia|done].
Qed.

Lemma insert_rows_ids (rows : list CacheRow) k :
  ic_album_id <$> insert_rows k rows = ic_album_id <$> rows.
Proof.
  revert k. induction rows as [|r rows IH]; intros k; cbn; [done|]. by rewrite IH.
Qed.

Lemma omap_album_ids_sublist (f : Album → option CacheRow) (l : list Album) :
  (∀ album row, f album = Some row → ic_album_id row = a_id album) →
  (ic_album_id <$> omap f l) `sublist_of` (a_id <$> l).
Proof.
  intros Hf. induction l as [|a l IH]; cbn; [done|].
  destruct (f a) as [row|] eqn:Hrow; cbn.
  - rewrite (Hf a row Hrow). by apply sublist_skip.
  - by apply sublist_cons.
Qed.

(** The cutoff of the exclusion window overflows exactly when the hours
    are beyond what a [timedelta] holds or the cutoff is not a [datetime]. *)
Lemma get_recent_albums_None (now hours : Z) h :
  History.get_recent_albums now hours h = None
  ↔ ¬ (-999999999 ≤ hours * 3600 / 86400 ≤ 999999999
       ∧ datetime_min ≤ now - hours * 3600 ≤ datetime_max).
Proof.
  unfold History.get_recent_albums, datetime_minus, timedelta_ok.
  repeat case_bool_decide; cbn; naive_solver.
Qed.

Lemma get_recent_albums_Some (now hours : Z) h recent :
  History.get_recent_albums now hours h = Some recent →
  recent = sel_album_id <$> filter (fun s => now - hours * 3600 < sel_timestamp s) (selections h).
Proof.
  unfold History.get_recent_albums, datetime_minus.
  destruct (_ && _); [|done]. by intros [= <-].
Qed.

(** The rows a refresh computes do not depend on the rows the cache held. *)
Lemma refresh_forgets_old_cache m clock st old_cache :
  _refresh_selection_cache m clock
    (with_db (mkDatabase (albums (db st)) old_cache (selection_history (db st))) st)
  = match albums (db st),
          History.get_recent_albums (now clock) (min_time_between_repeats_hours (config st))
            (history st) with
    | _ :: _, Some _ => _refresh_selection_cache m clock st
    | _, _ => with_db (mkDatabase (albums (db st)) old_cache (selection_history (db st))) st
    end.
Proof.
  unfold _refresh_selection_cache, with_db. cbn.
  destruct (albums (db st)) as [|a l]; [done|].
  by destruct (History.get_recent_albums _ _ _).
Qed.

(** X21. [_refresh_selection_cache] changes nothing, not even the time of
    the last refresh, on an empty collection and when the cutoff of the
    exclusion window overflows ([min_time_between_repeats_hours] beyond the
    days of a [timedelta], or a cutoff that is not a [datetime]): the
    [OverflowError] abandons the refresh. In every other case it replaces
    the whole table [intelligent_cache]: the new rows are numbered from 1,
    each carries base weight 1, the time of the refresh, 0 servings and no
    serving time; their album ids follow the albums, each album at most
    once; the result does not depend on the rows that were there before.
    Albums, selection history, in-memory history, metrics and configuration
    are always left as they are. *)
Theorem X21_refresh_replaces_the_cache m clock st :
  let st' := _refresh_selection_cache m clock st in
  let rows := intelligent_cache (db st') in
  let hours := min_time_between_repeats_hours (config st) in
  let overflow :=
    ¬ (-999999999 ≤ hours * 3600 / 86400 ≤ 999999999
       ∧ datetime_min ≤ now clock - hours * 3600 ≤ datetime_max) in
  (albums (db st) = [] ∨ overflow → st' = st)
  ∧ (albums (db st) ≠ [] → ¬ overflow →
       (∀ i row, rows !! i = Some row →
          ic_id row = Z.of_nat i + 1 ∧ ic_base_weight row = 1%Q
          ∧ ic_last_computed row = now clock
          ∧ ic_times_served row = 0 ∧ ic_last_served row = None)
       ∧ (ic_album_id <$> rows) `sublist_of` (a_id <$> albums (db st))
       ∧ last_cache_refresh st' = now clock
       ∧ ∀ old_cache,
           _refresh_selection_cache m clock
             (with_db (mkDatabase (albums (db st)) old_cache (selection_history (db st))) st)
           = st')
  ∧ albums (db st') = albums (db st)
  ∧ selection_history (db st') = selection_history (db st)
  ∧ history st' = history st
  ∧ metrics st' = metrics st
  ∧ config st' = config st.
Proof.
  intros st' rows hours overflow. subst rows st'.
  pose proof (get_recent_albums_None (now clock) hours (history st)) as Hnone.
  fold overflow in Hnone.
  destruct (refresh_keeps m clock st) as (Hk1 & Hk2 & Hk3 & Hk4).
  pose proof (refresh_albums m clock st) as Hk0.
  split; [|split; [|done]].
  - intros [Hal|Hov].
    + unfold _refresh_selection_cache. by rewrite Hal.
    + apply Hnone in Hov. unfold _refresh_selection_cache. fold hours. rewrite Hov.
      by destruct (albums (db st)).
  - intros Hne Hin.
    pose proof (refresh_forgets_old_cache m clock st) as Hold. fold hours in Hold.
    destruct (refresh_cases m clock st) as [[_ [Hal|Hov]]|(recent & _ & Hrec & Heq)];
      [done|by apply Hnone in Hov|].
    fold hours in Hrec. rewrite Hrec in Hold.
    destruct (albums (db st)) as [|a0 l0] eqn:Hal; [done|]. rewrite <- Hal in *.
    rewrite Heq. cbn [db intelligent_cache last_cache_refresh].
    split_and!; try done.
    + intros i row Hi. apply insert_rows_lookup in Hi
        as (Hid & r0 & Hr0 & Halb & Hbase & _ & Hcomp & Hserved & Hlast).
      assert (r0 ∈ computed_rows m clock st recent) as Hin0 by by eapply list_elem_of_lookup_2.
      apply list_elem_of_omap in Hin0 as (album & _ & Hrow).
      apply weigh_album_fields in Hrow as (_ & ? & ? & ? & ? & _).
      split; [lia|]. split_and!; congruence.
    + rewrite insert_rows_ids. apply omap_album_ids_sublist.
      intros album row Hrow. by apply weigh_album_fields in Hrow as (? & _).
    + intros old_cache. rewrite Hold. exact Heq.
Qed.

End RefreshFacts.

Section RefreshCoverage.

Import WeightCalculator Engine.

Implicit Types (m : MathLib) (st : RandomAlgorithm) (d : Database) (row : CacheRow).

Lemma play_count_weight_defined m cfg (play_count : option Z) (avg : Q) :
  0 ≤ default 0 play_count →
  is_Some (calculate_play_count_weight m cfg play_count avg).
Proof.
  intros Hpc. unfold calculate_play_count_weight.
  destruct (Qle_bool avg 0) eqn:Havg; [by eauto|].
  assert (0 < avg)%Q as Hpos.
  { apply Qnot_le_lt. intros H. apply Qle_bool_iff in H. congruence. }
  assert (0 <= inject_Z (default 0%Z play_count) / avg)%Q as Hnorm.
  { apply Qle_shift_div_l; [done|]. rewrite Qmult_0_l.
    unfold Qle. cbn. lia. }
  unfold py_log.
  destruct (Qle_bool (inject_Z (default 0%Z play_count) / avg + 1) 0)%Q eqn:Hlog; [|by eauto].
  apply Qle_bool_iff in Hlog. exfalso.
  apply (Qlt_not_le 0 (inject_Z (default 0%Z play_count) / avg + 1))%Q; [|done].
  apply (Qlt_le_trans _ (0 + 1))%Q; [reflexivity|]. by apply Qplus_le_l.
Qed.

(** [math.exp] of the age of an album does not overflow unless the album
    was added 259071 days or more after the clock reading. *)
Lemma py_exp_defined m (days : Z) :
  -259071 < days → is_Some (py_exp m (- inject_Z days / 365)).
Proof.
  intros Hd. unfold py_exp, Qlt_b.
  assert (Qle_bool (- inject_Z days / 365) (709782712893384 # 1000000000000) = true) as ->;
    [|by eauto].
  apply Qle_bool_iff. unfold Qle, Qdiv, Qmult, Qopp, Qinv, inject_Z. cbn. lia.
Qed.

Lemma recency_weight_defined m cfg now date_added last_played :
  date_added_ok now date_added →
  is_Some (calculate_recency_weight m cfg now date_added last_played).
Proof.
  unfold calculate_recency_weight, date_added_ok.
  destruct date_added as [| | |t]; [done|by eauto..|].
  intros Hd. destruct (py_exp_defined m _ Hd) as [x ->].
  repeat case_match; by eauto.
Qed.

Lemma weigh_album_defined m cfg clock avg rg ra recent album :
  (a_genres album = JNull ∨ ∃ l, a_genres album = JList l) →
  date_added_ok (now clock) (a_date_added album) →
  0 ≤ default 0 (a_play_count album) →
  a_id album ∉ recent →
  is_Some (weigh_album m cfg clock avg rg ra recent album).
Proof.
  intros Hgenres Hdate Hpc Hrecent. unfold weigh_album.
  assert (∃ l, json_loads (a_genres album) = Ok (VList (GStr <$> l))) as [l ->].
  { destruct Hgenres as [->|[l ->]]; [by exists []|by exists l]. }
  rewrite bool_decide_false by done.
  destruct (play_count_weight_defined m cfg (a_play_count album) avg Hpc) as [pw ->].
  destruct (recency_weight_defined m cfg (now clock) (a_date_added album)
              (a_last_played album) Hdate) as [rw ->].
  unfold genre_factors, see_genres. destruct l as [|g l]; cbn; by eauto.
Qed.

Lemma insert_rows_elem (rows : list CacheRow) : ∀ k r0,
  r0 ∈ rows →
  ∃ row, row ∈ insert_rows k rows ∧ ic_album_id row = ic_album_id r0
         ∧ ic_final_weight row = ic_final_weight r0.
Proof.
  induction rows as [|r rows IH]; intros k r0; [by intros ?%elem_of_nil|].
  intros [->|Hin]%elem_of_cons; cbn.
  - eexists. split; [left|]. done.
  - destruct (IH (k + 1) r0 Hin) as (row & ? & ?). exists row. split; [by right|done].
Qed.

Lemma insert_rows_album_ids rows : ∀ n row,
  row ∈ insert_rows n rows → ∃ row', row' ∈ rows ∧ ic_album_id row = ic_album_id row'.
Proof.
  induction rows as [|r rows IH]; intros n row; cbn.
  - by intros ?%elem_of_nil.
  - intros [->|Hin]%elem_of_cons.
    + exists r. split; [apply elem_of_cons; by left|done].
    + destruct (IH _ _ Hin) as (row' & ? & ?). exists row'.
      split; [apply elem_of_cons; by right|done].
Qed.

(** A refresh that writes the table writes no row whose album id is among
    the ids of the exclusion window. *)
Lemma refresh_excludes_recent m clock st recent row :
  albums (db st) ≠ [] →
  History.get_recent_albums (now clock) (min_time_between_repeats_hours (config st))
    (history st) = Some recent →
  row ∈ intelligent_cache (db (_refresh_selection_cache m clock st)) →
  ic_album_id row ∉ recent.
Proof.
  intros Hne Hrec.
  destruct (refresh_cases m clock st) as [[_ [Hal|Hov]]|(recent' & _ & Hrec' & ->)];
    [done|congruence|].
  assert (recent' = recent) as -> by congruence.
  cbn [db intelligent_cache]. intros Hrow.
  apply insert_rows_album_ids in Hrow as (row' & Hrow' & ->).
  apply list_elem_of_omap in Hrow' as (album & _ & Hw).
  apply weigh_album_fields in Hw as (-> & _ & _ & _ & _ & ?). done.
Qed.

(** X22. After a refresh whose exclusion window has a cutoff (it did not
    overflow), the cache holds a row, of final weight 0.01 or more, for
    every album that was not selected within the window, whose [genres]
    column is NULL or a JSON array of strings, whose [date_added] is not
    NULL and not 259071 days (709 years) or more ahead of the clock, and
    whose play count is not negative; and it holds no row whose album id was
    recorded within the window. *)
Theorem X22_refresh_covers_the_collection m clock st (album : Album) (recent : list Z) :
  album ∈ albums (db st) →
  (a_genres album = JNull ∨ ∃ l, a_genres album = JList l) →
  date_added_ok (now clock) (a_date_added album) →
  0 ≤ default 0 (a_play_count album) →
  History.get_recent_albums (now clock) (min_time_between_repeats_hours (config st))
    (history st) = Some recent →
  let rows := intelligent_cache (db (_refresh_selection_cache m clock st)) in
  (a_id album ∉ recent →
     ∃ row, row ∈ rows ∧ ic_album_id row = a_id album ∧ (1 # 100 <= ic_final_weight row)%Q)
  ∧ (a_id album ∈ recent → ∀ row, row ∈ rows → ic_album_id row ≠ a_id album).
Proof.
  intros Hin Hgenres Hdate Hpc Hrec rows.
  assert (albums (db st) ≠ []) as Hne by (intros Hnil; rewrite Hnil in Hin; by apply elem_of_nil in Hin).
  split.
  - intros Hrecent. subst rows.
    destruct (refresh_cases m clock st) as [[_ [Hal|Hov]]|(recent' & _ & Hrec' & ->)];
      [done|congruence|].
    assert (recent' = recent) as -> by congruence.
    cbn [db intelligent_cache]. unfold computed_rows.
    match goal with
    | |- context [omap ?f (albums (db st))] => set (weigh := f)
    end.
    assert (is_Some (weigh album)) as [r0 Hr0] by by apply weigh_album_defined.
    assert (r0 ∈ omap weigh (albums (db st))) as Hr0in.
    { apply list_elem_of_omap. exists album. split; [done|]. exact Hr0. }
    destruct (insert_rows_elem _ 1 r0 Hr0in) as (row & Hrow & Hid & Hw).
    exists row. split; [done|].
    destruct (weigh_album_fields _ _ _ _ _ _ _ _ _ Hr0) as [Hid0 _].
    split; [congruence|]. rewrite Hw. by eapply weigh_album_floor.
  - intros Hrecent row Hrow Hid.
    apply (refresh_excludes_recent m clock st recent row Hne Hrec Hrow). by rewrite Hid.
Qed.

End RefreshCoverage.

Lemma X22_witness :
  let rows :=
    intelligent_cache
      (db (Engine._refresh_selection_cache coarse_math (noon 1000500) two_album_engine)) in
  (a_id kind_of_blue ∉ [] →
     ∃ row, row ∈ rows ∧ ic_album_id row = a_id kind_of_blue
            ∧ (1 # 100 <= ic_final_weight row)%Q)
  ∧ (a_id kind_of_blue ∈ [] → ∀ row, row ∈ rows → ic_album_id row ≠ a_id kind_of_blue).
Proof.
  apply (X22_refresh_covers_the_collection coarse_math (noon 1000500) two_album_engine
           kind_of_blue []).
  - vm_compute. left.
  - right. by exists ["Jazz"].
  - vm_compute. reflexivity.
  - vm_compute. discriminate.
  - vm_compute. reflexivity.
Defined.

Section SelectionBookkeeping.

Import WeightCalculator Engine.

Implicit Types (m : MathLib) (st : RandomAlgorithm) (d : Database) (row : CacheRow).




End SelectionBookkeeping.

Section FeedbackAfterSelect.

Import WeightCalculator Engine.

Implicit Types (m : MathLib) (st : RandomAlgorithm) (d : Database) (row : CacheRow).

(** The row a successful selection appends to [selection_history]. *)
Lemma select_history_rows m clock (rnd : nat → Z) (session_id : option string) st album :
  (select_random_album m clock rnd session_id st).1 = Some album →
  selection_history (db (select_random_album m clock rnd session_id st).2)
  = selection_history (db st)
    ++ [mkHistoryRow (next_rowid (selection_history (db st))) (dict_id album) (now clock)
          None (session_or_anonymous session_id)
          (match drawn_cache_row album with
           | Some row => ic_final_weight row
           | None => 1%Q
           end)].
Proof.
  destruct (refresh_if_stale_history_rows m clock st) as (Hrows & _ & _).
  pose proof (select_cases m clock rnd session_id st) as Hc. cbn zeta in Hc.
  set (st1 := refresh_if_stale m clock st) in *.
  destruct (draw_row rnd (db st1)) as [[a row]|]; [|by rewrite Hc].
  destruct (parse_json_fields a) as [[genres styles]|]; [|by destruct Hc as [_ ->]].
  destruct (breaks_selection a); rewrite Hc; [done|].
  cbn [fst snd]. intros [= <-]. destruct row; cbn; by rewrite Hrows.
Qed.

Lemma feedback_history_rows (album_id feedback : Z) (session_id : option string) st :
  selection_history (db (record_user_feedback album_id feedback session_id st))
  = match latest_candidate album_id (session_or_anonymous session_id) 0 None
            (selection_history (db st)) with
    | Some (i, _) => alter (set_feedback feedback) i (selection_history (db st))
    | None => selection_history (db st)
    end.
Proof. unfold record_user_feedback. by case_decide. Qed.

(** X24. Feedback given right after a selection, under the id the selection
    returned as [album['id']] and under the same session, is written into
    the row that selection appended to [selection_history], provided every
    earlier open row of that id and session is older than the selection. No
    other row changes. Feedback given under any other id leaves the row of
    the selection without feedback. *)
Theorem X24_feedback_reaches_the_new_selection
    m clock (rnd : nat → Z) (session_id : option string) (feedback : Z) st album :
  (select_random_album m clock rnd session_id st).1 = Some album →
  (∀ old, old ∈ selection_history (db st) →
     awaits_feedback (dict_id album) (session_or_anonymous session_id) old = true →
     sh_selected_at old < now clock) →
  let st1 := (select_random_album m clock rnd session_id st).2 in
  let new_row feedback :=
    mkHistoryRow (next_rowid (selection_history (db st))) (dict_id album) (now clock)
      feedback (session_or_anonymous session_id)
      (match drawn_cache_row album with
       | Some row => ic_final_weight row
       | None => 1%Q
       end) in
  selection_history (db (record_user_feedback (dict_id album) feedback session_id st1))
  = selection_history (db st) ++ [new_row (Some feedback)]
  ∧ (∀ other_id, other_id ≠ dict_id album →
       selection_history (db (record_user_feedback other_id feedback session_id st1))
         !! length (selection_history (db st))
       = Some (new_row None)).
Proof.
  intros Hsel Hold st1 new_row.
  pose proof (select_history_rows m clock rnd session_id st album Hsel) as Hrows.
  fold st1 in Hrows. fold (new_row None) in Hrows.
  set (old_rows := selection_history (db st)) in *.
  set (session := session_or_anonymous session_id) in *.
  assert (∀ id, awaits_feedback id session (new_row None) = bool_decide (dict_id album = id))
    as Hnew.
  { intros id. unfold awaits_feedback, new_row.
    cbn [sh_album_id sh_session_id sh_user_feedback].
    rewrite (bool_decide_true (session = session)) by done.
    rewrite (bool_decide_true (None = None)) by done.
    by rewrite !andb_true_r. }
  split.
  - rewrite feedback_history_rows, Hrows. fold session.
    pose proof (latest_candidate_spec (dict_id album) session
                  (old_rows ++ [new_row None]) [] None) as Hspec.
    cbn in Hspec. specialize (Hspec ltac:(by intros r ?%elem_of_nil)).
    destruct (latest_candidate (dict_id album) session 0 None (old_rows ++ [new_row None]))
      as [[i t]|]; cbn in Hspec.
    + destruct Hspec as (r & Hi & Hr & -> & Hmax).
      assert (now clock ≤ sh_selected_at r) as Hnow.
      { apply (Hmax (new_row None)).
        - apply elem_of_app. right. apply list_elem_of_singleton. done.
        - rewrite Hnew. by apply bool_decide_eq_true. }
      assert (i = length old_rows) as ->.
      { destruct (decide (i < length old_rows)%nat) as [Hlt|Hge].
        - rewrite lookup_app_l in Hi by done.
          assert (r ∈ old_rows) as Hin by by eapply list_elem_of_lookup_2.
          specialize (Hold r Hin Hr). lia.
        - apply lookup_lt_Some in Hi. rewrite length_app in Hi. cbn in Hi. lia. }
      rewrite alter_app_r_alt by lia. rewrite Nat.sub_diag. done.
    + specialize (Hspec (new_row None)). rewrite Hnew, bool_decide_true in Hspec by done.
      discriminate Hspec. apply elem_of_app. right. by apply list_elem_of_singleton.
  - intros other_id Hne. rewrite feedback_history_rows, Hrows. fold session.
    pose proof (latest_candidate_spec other_id session
                  (old_rows ++ [new_row None]) [] None) as Hspec.
    cbn in Hspec. specialize (Hspec ltac:(by intros r ?%elem_of_nil)).
    assert ((old_rows ++ [new_row None]) !! length old_rows = Some (new_row None)) as Hlast.
    { by rewrite lookup_app_r, Nat.sub_diag by lia. }
    destruct (latest_candidate other_id session 0 None (old_rows ++ [new_row None]))
      as [[i t]|]; cbn in Hspec; [|done].
    destruct Hspec as (r & Hi & Hr & _).
    rewrite list_lookup_alter_ne; [done|].
    intros ->. rewrite Hlast in Hi. injection Hi as <-.
    rewrite Hnew, bool_decide_false in Hr by done. done.
Qed.

End FeedbackAfterSelect.

Lemma X24_witness :
  let st1 := (Engine.select_random_album coarse_math (noon 1000010) first_row_high None
                two_album_engine).2 in
  let new_row feedback :=
    mkHistoryRow (Engine.next_rowid (selection_history (db two_album_engine)))
      (Engine.dict_id first_pick) (now (noon 1000010)) feedback
      (Engine.session_or_anonymous None)
      (match drawn_cache_row first_pick with
       | Some row => ic_final_weight row
       | None => 1%Q
       end) in
  selection_history (db (Engine.record_user_feedback (Engine.dict_id first_pick) 1 None st1))
  = selection_history (db two_album_engine) ++ [new_row (Some 1)]
  ∧ (∀ other_id, other_id ≠ Engine.dict_id first_pick →
       selection_history (db (Engine.record_user_feedback other_id 1 None st1))
         !! length (selection_history (db two_album_engine))
       = Some (new_row None)).
Proof.
  apply (X24_feedback_reaches_the_new_selection coarse_math (noon 1000010) first_row_high
           None 1 two_album_engine first_pick).
  - vm_compute. reflexivity.
  - intros old Hin. vm_compute in Hin. inversion Hin.
Defined.

Section MetricsBounds.

Import WeightCalculator Engine.
Local Open Scope Q_scope.

Implicit Types (m : MathLib) (st : RandomAlgorithm) (cfg : AlgorithmConfig).

Lemma convex_in_unit (a x y : Q) :
  0 <= a → a <= 1 → 0 <= x → x <= 1 → 0 <= y → y <= 1 →
  0 <= a * x + (1 - a) * y ∧ a * x + (1 - a) * y <= 1.
Proof. intros. split; nra. Qed.

Lemma refresh_metrics_config m clock st :
  metrics (_refresh_selection_cache m clock st) = metrics st
  ∧ config (_refresh_selection_cache m clock st) = config st.
Proof. by destruct (refresh_keeps m clock st) as (_ & _ & ? & ?). Qed.

Lemma select_metrics_config m clock (rnd : nat → Z) (session_id : option string) st :
  config (select_random_album m clock rnd session_id st).2 = config st
  ∧ (metrics (select_random_album m clock rnd session_id st).2 = metrics st
     ∨ ∃ success,
         metrics (select_random_album m clock rnd session_id st).2
         = _update_metrics success (metrics st)).
Proof.
  assert (metrics (refresh_if_stale m clock st) = metrics st
          ∧ config (refresh_if_stale m clock st) = config st) as [Hmet Hcfg].
  { unfold refresh_if_stale. case_bool_decide; [apply refresh_metrics_config|done]. }
  pose proof (select_cases m clock rnd session_id st) as Hc. cbn zeta in Hc.
  set (st1 := refresh_if_stale m clock st) in *.
  destruct (draw_row rnd (db st1)) as [[a row]|]; [|rewrite Hc; by auto].
  destruct (parse_json_fields a) as [[genres styles]|].
  - destruct (breaks_selection a); rewrite Hc; cbn; rewrite Hmet; by eauto.
  - destruct Hc as [_ ->]. cbn. rewrite Hmet. by eauto.
Qed.

(** X25. As long as [feedback_learning_rate] lies between 0 and 1, at the
    first start and at every restart, the two rates of the metrics stay
    between 0 and 1 through every sequence of selections, refreshes,
    feedback, history resets, changes of the collection and restarts, and
    [total_selections] is at least 0 and at most the number of calls made. *)
Theorem X25_metrics_stay_in_range m clock cfg (d : Database) (ops : list engine_op) :
  0 <= feedback_learning_rate cfg ∧ feedback_learning_rate cfg <= 1 →
  Forall (fun o => match o with
                   | ProcessRestarts _ cfg' =>
                       0 <= feedback_learning_rate cfg' ∧ feedback_learning_rate cfg' <= 1
                   | _ => True
                   end) ops →
  let st := engine_run m (Engine.init m clock cfg d) ops in
  (0 <= cache_hit_rate (metrics st) ∧ cache_hit_rate (metrics st) <= 1)
  ∧ (0 <= user_satisfaction_score (metrics st) ∧ user_satisfaction_score (metrics st) <= 1)
  ∧ (0 ≤ total_selections (metrics st) ≤ Z.of_nat (length ops))%Z.
Proof.
  intros Hcfg Hops st.
  set (ok := fun (k : Z) st =>
    (0 <= feedback_learning_rate (config st) ∧ feedback_learning_rate (config st) <= 1)
    ∧ (0 <= cache_hit_rate (metrics st) ∧ cache_hit_rate (metrics st) <= 1)
    ∧ (0 <= user_satisfaction_score (metrics st) ∧ user_satisfaction_score (metrics st) <= 1)
    ∧ (0 ≤ total_selections (metrics st) ≤ k)%Z).
  assert (∀ clock' cfg' d', 
            0 <= feedback_learning_rate cfg' ∧ feedback_learning_rate cfg' <= 1 →
            ok 0%Z (Engine.init m clock' cfg' d')) as Hinit.
  { intros clock' cfg' d' Hcfg'. unfold ok, Engine.init.
    destruct (refresh_metrics_config m clock'
                (_load_selection_history clock'
                   (mkRandomAlgorithm cfg' (History.init (max_history_size cfg'))
                      (mkSelectionMetrics 0 0 0) (now clock') d'))) as [-> ->].
    cbn. split_and!; try done; try apply Hcfg'. }
  assert (∀ o k st0, ok k st0 →
            match o with
            | ProcessRestarts _ cfg' =>
                0 <= feedback_learning_rate cfg' ∧ feedback_learning_rate cfg' <= 1
            | _ => True
            end →
            ok (k + 1)%Z (engine_step m st0 o)) as Hstep.
  { intros o k st0 (Hc & Hh & Hu & Ht) Ho.
    destruct o as [clock' rnd session_id|clock'|album_id feedback session_id| |new_albums|clock' cfg'];
      cbn [engine_step].
    - destruct (select_metrics_config m clock' rnd session_id st0)
        as [Hcfg' [Hmet'|[success Hmet']]]; unfold ok; rewrite Hcfg', Hmet'.
      + split; [done|]. split; [done|]. split; [done|lia].
      + cbn. split; [done|]. split; [|split; [done|lia]].
        destruct success.
        * apply (convex_in_unit (1 # 10) 1 (cache_hit_rate (metrics st0))); try done;
            apply Hh.
        * apply (convex_in_unit (1 # 10) 0 (cache_hit_rate (metrics st0))); try done;
            apply Hh.
    - unfold trigger_cache_refresh, ok.
      destruct (refresh_metrics_config m clock' st0) as [-> ->].
      split; [done|]. split; [done|]. split; [done|lia].
    - unfold record_user_feedback, ok. case_decide; cbn.
      + split; [done|]. split; [done|]. split; [done|lia].
      + split; [done|]. split; [done|]. split; [|lia].
        case_decide.
        * apply convex_in_unit; try done; try apply Hc; apply Hu.
        * apply convex_in_unit; try done; try apply Hc; apply Hu.
    - unfold clear_history, ok. cbn. split; [done|]. split; [done|]. split; [done|lia].
    - unfold ok. cbn. split; [done|]. split; [done|]. split; [done|lia].
    - destruct (Hinit clock' cfg' (db st0) Ho) as (? & ? & ? & ?).
      unfold ok. split; [done|]. split; [done|]. split; [done|lia]. }
  assert (∀ k st0, ok k st0 → ok (k + Z.of_nat (length ops))%Z (engine_run m st0 ops))
    as Hrun.
  { clear Hcfg st. induction ops as [|o ops IH]; intros k st0 Hok.
    - cbn. by rewrite Z.add_0_r.
    - apply Forall_cons in Hops as [Ho Hops]. cbn [engine_run foldl length].
      replace (k + Z.of_nat (S (length ops)))%Z with ((k + 1) + Z.of_nat (length ops))%Z
        by lia.
      apply (IH Hops). by apply Hstep. }
  destruct (Hrun 0%Z (Engine.init m clock cfg d) (Hinit clock cfg d Hcfg))
    as (_ & Hh & Hu & Ht).
  done.
Qed.

End MetricsBounds.

Lemma X25_witness :
  let st := engine_run coarse_math
              (Engine.init coarse_math (noon 1000000) default_config
                 (first_database [kind_of_blue; the_wall]))
              select_like_restart in
  (0 <= cache_hit_rate (metrics st) ∧ cache_hit_rate (metrics st) <= 1)%Q
  ∧ (0 <= user_satisfaction_score (metrics st)
     ∧ user_satisfaction_score (metrics st) <= 1)%Q
  ∧ 0 ≤ total_selections (metrics st) ≤ Z.of_nat (length select_like_restart).
Proof.
  apply (X25_metrics_stay_in_range coarse_math (noon 1000000) default_config
           (first_database [kind_of_blue; the_wall]) select_like_restart).
  - split; vm_compute; discriminate.
  - repeat (apply Forall_cons; split; [try exact I|]); [|apply Forall_nil_2].
    split; vm_compute; discriminate.
Defined.

Section RestartHistory.

Import WeightCalculator Engine.

Implicit Types (m : MathLib) (st : RandomAlgorithm) (d : Database) (h : SelectionHistory).

Lemma history_join_elem d (sh : HistoryRow) (a : Album) :
  (sh, a) ∈ history_join d
  ↔ sh ∈ selection_history d ∧ a ∈ albums d ∧ sh_album_id sh = a_id a.
Proof.
  unfold history_join. rewrite list_elem_of_bind. split.
  - intros (sh' & Hin & Hsh). apply list_elem_of_fmap in Hin as (a' & [= -> ->] & Ha).
    apply list_elem_of_filter in Ha as [? ?]. done.
  - intros (Hsh & Ha & Hid). exists sh. split; [|done].
    apply list_elem_of_fmap. exists a. split; [done|]. by apply list_elem_of_filter.
Qed.

Lemma add_selection_selections s h :
  selections (History.add_selection s h).2 = History.deque_append (max_size h) s (selections h)
  ∧ max_size (History.add_selection s h).2 = max_size h.
Proof. unfold History.add_selection. by repeat case_match. Qed.

(** The loop of [_load_selection_history]: what it adds is stamped with the
    time of the loading. *)
Lemma load_rows_selections clock (rows : list (HistoryRow * Album)) :
  ∀ h s,
    s ∈ selections (Engine.load_rows clock rows h) →
    s ∈ selections h
    ∨ (sel_timestamp s = now clock
       ∧ ∃ sh a, (sh, a) ∈ rows ∧ sel_album_id s = sh_album_id sh).
Proof.
  induction rows as [|[sh a] rows IH]; intros h s; cbn; [by left|].
  destruct (json_loads (a_genres a)) as [genres| |]; [|by left..].
  set (sel := mkSelection (sh_album_id sh) (now clock) genres (a_artist a)
                (a_rating a) (a_play_count a)).
  destruct (add_selection_selections sel h) as [Hsel _].
  assert (s ∈ selections (History.add_selection sel h).2 →
          s ∈ selections h
          ∨ (sel_timestamp s = now clock
             ∧ ∃ sh' a', (sh', a') ∈ (sh, a) :: rows ∧ sel_album_id s = sh_album_id sh'))
    as Hone.
  { rewrite Hsel. unfold History.deque_append. intros Hs.
    apply subseteq_drop in Hs. apply elem_of_app in Hs as [Hs|Hs]; [by left|].
    apply list_elem_of_singleton in Hs as ->. right. cbn. split; [done|].
    exists sh, a. split; [left|done]. }
  destruct (History.add_selection sel h) as [[[]|e|] h']; cbn [snd] in *; [|done..].
  intros Hs. apply IH in Hs as [Hs|(Ht & sh' & a' & Hin & Hid)]; [by apply Hone|].
  right. split; [done|]. exists sh', a'. split; [by right|done].
Qed.

Lemma load_rows_bounded clock (rows : list (HistoryRow * Album)) :
  ∀ h,
    (length (selections h) ≤ max_size h)%nat →
    (length (selections (Engine.load_rows clock rows h)) ≤ max_size h)%nat
    ∧ max_size (Engine.load_rows clock rows h) = max_size h.
Proof.
  induction rows as [|[sh a] rows IH]; intros h Hlen; cbn; [done|].
  destruct (json_loads (a_genres a)) as [genres| |]; [|done..].
  set (sel := mkSelection (sh_album_id sh) (now clock) genres (a_artist a)
                (a_rating a) (a_play_count a)).
  destruct (add_selection_selections sel h) as [Hsel Hmax].
  assert (length (selections (History.add_selection sel h).2) ≤ max_size h)%nat as Hlen'.
  { rewrite Hsel. apply deque_append_length. }
  destruct (History.add_selection sel h) as [[[]|e|] h']; cbn [snd] in *; [|done..].
  destruct (IH h') as [Hl Hm]; [by rewrite Hmax|]. rewrite Hmax in *. done.
Qed.

(** X26. A start of the engine loads into the in-memory history selections
    of the last seven days that join an album, at most [max_history_size] of
    them, and stamps every one with the time of the start, not with the time
    of the selection. So with a repeat window of an hour or more whose
    cutoff does not overflow, whatever its length, the cache built at the
    start holds no row for any of the loaded album ids. When the cutoff
    overflows, the refresh of the start is abandoned and the cache is as it
    was found. *)
Theorem X26_start_restamps_the_history m clock cfg d :
  let st := Engine.init m clock cfg d in
  let hours := min_time_between_repeats_hours cfg in
  let overflow :=
    ¬ (-999999999 ≤ hours * 3600 / 86400 ≤ 999999999
       ∧ datetime_min ≤ now clock - hours * 3600 ≤ datetime_max) in
  (∀ s, s ∈ selections (history st) →
     sel_timestamp s = now clock
     ∧ ∃ sh a, sh ∈ selection_history d ∧ a ∈ albums d
               ∧ sh_album_id sh = a_id a ∧ sel_album_id s = a_id a
               ∧ now clock - 7 * 86400 < sh_selected_at sh)
  ∧ (length (selections (history st)) ≤ max_history_size cfg)%nat
  ∧ (0 < hours → albums d ≠ [] → ¬ overflow →
       ∀ s row, s ∈ selections (history st) → row ∈ intelligent_cache (db st) →
                ic_album_id row ≠ sel_album_id s)
  ∧ (overflow → intelligent_cache (db st) = intelligent_cache d).
Proof.
  intros st hours overflow. subst st. unfold Engine.init.
  set (st0 := mkRandomAlgorithm cfg (History.init (max_history_size cfg))
                (mkSelectionMetrics 0 0 0) (now clock) d).
  set (st1 := _load_selection_history clock st0).
  destruct (refresh_keeps m clock st1) as (_ & Hhist & _ & _).
  assert (db st1 = d ∧ config st1 = cfg) as [Hdb Hcfg] by done.
  assert (∀ s, s ∈ selections (history st1) →
            sel_timestamp s = now clock
            ∧ ∃ sh a, sh ∈ selection_history d ∧ a ∈ albums d
                      ∧ sh_album_id sh = a_id a ∧ sel_album_id s = a_id a
                      ∧ now clock - 7 * 86400 < sh_selected_at sh) as Hloaded.
  { intros s Hs. subst st1. unfold _load_selection_history in Hs. cbn in Hs.
    apply load_rows_selections in Hs as [Hs|(Ht & sh & a & Hin & Hid)];
      [by apply elem_of_nil in Hs|].
    split; [done|]. exists sh, a.
    apply subseteq_take in Hin. rewrite merge_sort_Permutation in Hin.
    apply list_elem_of_filter in Hin as [Hrecent Hin].
    apply history_join_elem in Hin as (Hsh & Ha & Hja).
    split_and!; try done. congruence. }
  pose proof (get_recent_albums_None (now clock) hours (history st1)) as Hnone.
  fold overflow in Hnone.
  rewrite Hhist. split; [done|]. split; [|split].
  - subst st1. unfold _load_selection_history. cbn.
    apply (load_rows_bounded clock _ (History.init (max_history_size cfg))). cbn. lia.
  - intros Hwindow Hne Hin s row Hs Hrow Hid.
    destruct (History.get_recent_albums (now clock) hours (history st1)) as [recent|] eqn:Hrec;
      [|by apply Hin, Hnone].
    apply (refresh_excludes_recent m clock st1 recent row); [by rewrite Hdb|by rewrite Hcfg|done|].
    rewrite Hid. apply get_recent_albums_Some in Hrec as ->.
    apply list_elem_of_fmap. exists s. split; [done|].
    apply list_elem_of_filter. split; [|done].
    destruct (Hloaded s Hs) as [-> _]. nia.
  - intros Hov. apply Hnone in Hov.
    destruct (refresh_cases m clock st1) as [[-> _]|(recent & _ & Hrec & _)]; [done|].
    rewrite Hcfg in Hrec. fold hours in Hrec. congruence.
Qed.

End RestartHistory.

(** ** [ImageCache.get_cache_stats] *)

Section ImageCacheStatistics.

Import ImageCache.

Implicit Types (st : ImageCacheState) (env : ImageEnv).

Lemma disjoint_filters_length {A} (P Q : A → Prop)
    `{!∀ x, Decision (P x), !∀ x, Decision (Q x)} (l : list A) :
  (∀ x, P x → Q x → False) →
  (length (filter P l) + length (filter Q l) ≤ length l)%nat.
Proof.
  intros Hdisj. induction l as [|x l IH]; [done|].
  rewrite !filter_cons. destruct (decide (P x)) as [HP|HP], (decide (Q x)) as [HQ|HQ];
    cbn [length]; try lia.
  by destruct (Hdisj x).
Qed.

(** [get_image] writes at most one row of the table and deletes none. *)
Lemma get_image_table env now url size_type st :
  image_cache_table (get_image env now url size_type st).2 = image_cache_table st
  ∨ ∃ k e, image_cache_table (get_image env now url size_type st).2
           = <[k := e]> (image_cache_table st).
Proof.
  unfold get_image. case_decide; [by left|].
  destruct (LRU.get now _ (world st)) as [[r| |] w]; [|by left..].
  set (st1 := with_world w st).
  assert (image_cache_table st1 = image_cache_table st) as Ht1 by done.
  set (hit := match r with Some entry => _ | None => None end).
  destruct hit as [entry|].
  - right. unfold _save_cache_entry. cbn. eauto.
  - rewrite <- Ht1. clearbody st1. clear.
    unfold _process_and_cache_image. cbv zeta.
    set (p := _get_cache_file_path st1 _ size_type).
    destruct (_download_image env url) as [image_data| |];
      [|left; cbn; by destruct (stat_raises env p)..].
    destruct (process_image env image_data (target_size size_type)) as [processed_data|];
      [|left; cbn; by destruct (stat_raises env p)].
    destruct (image_size env processed_data) as [[wd ht]|];
      [|left; cbn; by destruct (stat_raises env p)].
    destruct (create_raises env p || stat_raises env p);
      [left; cbn; by destruct (stat_raises env p)|].
    destruct (LRU.put _ _ _) as [[[|]| |] w']; cbn;
      [|left; by destruct (stat_raises env p)..].
    right. eauto.
Qed.

(** X27. [get_cache_stats] describes the table [image_cache], not the LRU
    cache: [total_entries] is the number of its rows, [total_size_bytes] the
    sum of their sizes, the two counts by type are not negative and together
    at most [total_entries], and [available_space_bytes] is the budget minus
    that sum. While every key of the LRU cache has a row, [total_entries] is
    at least the number of entries the LRU cache reports. A [get_image]
    never removes a row, also not the row of an entry it evicts, so
    [total_entries] does not go down with it. *)
Theorem X27_cache_stats_describe_the_table env (now : Z) (url kind : string) st :
  let s := get_cache_stats st in
  let st' := (get_image env now url kind st).2 in
  total_entries s = Z.of_nat (size (image_cache_table st))
  ∧ total_size_bytes s = LRU.stored_bytes (image_cache_table st)
  ∧ (0 ≤ thumbnail_count s ∧ 0 ≤ detail_count s
     ∧ thumbnail_count s + detail_count s ≤ total_entries s)
  ∧ available_space_bytes s = cache_limit_bytes s - total_size_bytes s
  ∧ (image_cache_ok st → rep_entries (get_stats (lru_cache st)) ≤ total_entries s)
  ∧ (∀ k, is_Some (image_cache_table st !! k) → is_Some (image_cache_table st' !! k))
  ∧ total_entries s ≤ total_entries (get_cache_stats st').
Proof.
  intros s st'. subst s. unfold get_cache_stats, count_of_type.
  cbn [total_entries total_size_bytes thumbnail_count detail_count available_space_bytes
       cache_limit_bytes].
  rewrite !length_map_to_list.
  split; [done|]. split; [done|]. split.
  { split; [lia|]. split; [lia|].
    pose proof (disjoint_filters_length
                  (fun kv : string * CacheEntry => size_type kv.2 = "thumbnails")
                  (fun kv : string * CacheEntry => size_type kv.2 = "detail")
                  (map_to_list (image_cache_table st))) as Hlen.
    rewrite length_map_to_list in Hlen.
    assert (∀ x : string * CacheEntry,
              size_type x.2 = "thumbnails" → size_type x.2 = "detail" → False)
      as Hdisj by (intros x H1 H2; by rewrite H1 in H2).
    specialize (Hlen Hdisj). lia. }
  split; [done|]. split.
  { intros (_ & _ & Hdom). unfold get_stats. cbn.
    rewrite <- !size_dom. apply inj_le, subseteq_size.
    intros k. rewrite !elem_of_dom. apply Hdom. }
  subst st'. destruct (get_image_table env now url kind st) as [-> | (k & e & ->)].
  - done.
  - split.
    + intros j Hj. rewrite lookup_insert. by case_decide.
    + rewrite map_size_insert. destruct (image_cache_table st !! k); cbn; lia.
Qed.

End ImageCacheStatistics.
